(** * Image-content classifier of rl-chat-app: a shallow embedding

    The development follows [src/services/image-analysis/analyzers.ts]
    (the three pixel analyzers and the content classifier) and the
    orchestrator [processImage], and proves the properties its
    specification states about them.

    Numbers.  A JavaScript [number] is an IEEE-754 binary64 value; it is
    modelled by Rocq's primitive [float], whose operations are the
    binary64 ones.  Quantities that the program only ever holds as
    integers (channel values, loop indices, counters, dimensions) are
    kept in [Z]; binary64 represents every integer below 2^53 exactly, and
    [Z2F] is the conversion (round to nearest even) used where such an
    integer meets a genuinely fractional operation.

    Buffers.  A [Uint8ClampedArray] is a list of bytes, so that a channel
    is in [0,255] by type; a canvas is the colour of each pixel, and
    [getImageData] builds the row-major RGBA buffer of a rectangle.

    Dictionary.  The object [colorCounts] has non-numeric string keys,
    which [Object.entries] lists in insertion order: an association list.

    Effects.  [processImage] runs in a small monad with a trace of the
    calls to the browser and the thrown value.

    Around them.  The label that [generateMermaidDiagram] embeds in the
    diagram, the chat providers of [ai-providers.ts], which call
    [processImage] and keep the conversation, and the markdown tools of
    the chat input are modelled as well; the second part of the
    development proves further properties of all of these from the
    code. *)

From Stdlib Require Import Reals Lra.
From Stdlib Require Import ZArith List String Ascii Bool Lia Floats.
From Stdlib Require Import DecimalString Permutation Sorted FinFun.
Import ListNotations.

Set Warnings "-inexact-float".

Local Open Scope string_scope.
Local Open Scope list_scope.
Local Open Scope Z_scope.

(** ** JavaScript numbers *)

Module JS.

Definition number := float.
Bind Scope float_scope with number.

(** The binary64 value nearest to an integer. *)
Definition Z2F (z : Z) : number :=
  SF2Prim (binary_normalize prec emax z 0 false).

(** [a < b] and [a > b] on numbers (false when either side is NaN). *)
Definition lt (a b : number) : bool := PrimFloat.ltb a b.
Definition gt (a b : number) : bool := PrimFloat.ltb b a.
Definition le (a b : number) : bool := PrimFloat.leb a b.

(** [Math.round]: the nearest integer, ties towards +infinity, that is
    floor(x + 1/2), computed on the exact value [m * 2^e] of a finite
    binary64.  The program rounds only quotients [channel / 32], which
    are finite; zeros round to 0. *)
Definition Math_round (x : number) : Z :=
  match Prim2SF x with
  | S754_finite s m e =>
      let v := if s then Zneg m else Zpos m in
      if 0 <=? e then v * 2 ^ e
      else (v + 2 ^ (- e - 1)) / 2 ^ (- e)
  | _ => 0
  end.

(** Decimal rendering of an integer-valued number inside a template
    literal. *)
Definition toString (z : Z) : string := NilZero.string_of_int (Z.to_int z).

(** [String.prototype.includes]. *)
Fixpoint includes (needle hay : string) : bool :=
  if String.prefix needle hay then true
  else match hay with
       | EmptyString => false
       | String _ rest => includes needle rest
       end.

(** [Array.prototype.join]. *)
Fixpoint join (sep : string) (l : list string) : string :=
  match l with
  | [] => ""
  | [s] => s
  | s :: rest => (s ++ sep ++ join sep rest)%string
  end.

(** [Array.prototype.some] is [existsb]; [Array.prototype.includes] on
    an array of strings: *)
Definition array_includes (l : list string) (s : string) : bool :=
  existsb (String.eqb s) l.

(** A plain object used as a dictionary with non-numeric string keys:
    [Object.entries] enumerates such keys in insertion order, so the
    object is an association list in which a key keeps the position of
    its first assignment. *)
Definition object := list (string * Z).

Fixpoint get (o : object) (k : string) : option Z :=
  match o with
  | [] => None
  | (k', v) :: o' => if String.eqb k k' then Some v else get o' k
  end.

Fixpoint set (o : object) (k : string) (v : Z) : object :=
  match o with
  | [] => [(k, v)]
  | (k', v') :: o' =>
      if String.eqb k k' then (k', v) :: o' else (k', v') :: set o' k v
  end.

Definition entries (o : object) : list (string * Z) := o.

(** [Array.prototype.sort] with a comparator.  The sort is stable and
    the comparators used here are consistent, so the result is the one
    a stable insertion sort gives: [insert x l] puts [x] in front of the
    first element it does not have to follow. *)
Section Sort.
Context {A : Type} (cmp : A -> A -> Z).

Fixpoint insert (x : A) (l : list A) : list A :=
  match l with
  | [] => [x]
  | y :: l' => if cmp x y <=? 0 then x :: l else y :: insert x l'
  end.

Fixpoint sort (l : list A) : list A :=
  match l with
  | [] => []
  | x :: l' => insert x (sort l')
  end.
End Sort.

(** [Array.prototype.slice(0, n)]. *)
Definition slice0 {A} (n : nat) (l : list A) : list A := firstn n l.

End JS.

(** ** Data model ([types.ts]) *)

Record ColorAnalysis := {
  dominantColors : list string;
  darkRatio : JS.number;
  lightRatio : JS.number;
  brightness : JS.number
}.

Record EdgeAnalysis := {
  horizontalEdges : Z;
  verticalEdges : Z;
  normalizedEdges : JS.number;
  rectangularShapes : Z
}.

Record PatternAnalysis := {
  regularPatterns : Z;
  totalPixels : Z
}.

Record ContentAnalysis := {
  isUIScreen : bool;
  hasText : bool;
  isErrorScreen : bool;
  isDarkMode : bool;
  isLightMode : bool;
  contentType : string
}.

(** A [Uint8ClampedArray]: every element is a byte, so channel values
    are in [0,255] by type. *)
Definition Uint8ClampedArray := list Byte.byte.

Definition chan (b : Byte.byte) : Z := Z.of_N (Byte.to_N b).

(** ** analyzeColors *)

Definition quantize (c : Byte.byte) : Z :=
  JS.Math_round (JS.Z2F (chan c) / 32)%float * 32.

(** The template literal [`rgb(${qr},${qg},${qb})`]. *)
Definition colorKey (qr qg qb : Z) : string :=
  ("rgb(" ++ JS.toString qr ++ "," ++ JS.toString qg
          ++ "," ++ JS.toString qb ++ ")")%string.

Definition quantizedColor (r g b : Byte.byte) : string :=
  colorKey (quantize r) (quantize g) (quantize b).

Definition pixelBrightness (r g b : Byte.byte) : JS.number :=
  (JS.Z2F (chan r + chan g + chan b) / 3)%float.

(** The variables of the scan. *)
Record ColorState := {
  colorCounts : JS.object;
  brightnessSum : JS.number;
  darkPixels : Z;
  lightPixels : Z
}.

Definition colorInit : ColorState :=
  {| colorCounts := []; brightnessSum := 0%float;
     darkPixels := 0; lightPixels := 0 |}.

(** One iteration of the loop body for the quad [r g b a]. *)
Definition colorStep (r g b a : Byte.byte) (st : ColorState) : ColorState :=
  if chan a <? 128 then st
  else
    let q := quantizedColor r g b in
    let counts :=
      JS.set (colorCounts st) q
        (match JS.get (colorCounts st) q with Some c => c | None => 0 end + 1) in
    let pb := pixelBrightness r g b in
    {| colorCounts := counts;
       brightnessSum := (brightnessSum st + pb)%float;
       darkPixels := if JS.lt pb 85 then darkPixels st + 1 else darkPixels st;
       lightPixels := if JS.gt pb 170 then lightPixels st + 1 else lightPixels st |}.

(** [for (i = 0; i < data.length; i += 4)]: the buffer of an [ImageData]
    holds whole RGBA quads, which the loop consumes one at a time (its
    length is 4 * width * height, so no partial quad is left over). *)
Fixpoint colorLoop (data : Uint8ClampedArray) (st : ColorState) : ColorState :=
  match data with
  | r :: g :: b :: a :: rest => colorLoop rest (colorStep r g b a st)
  | _ => st
  end.

(** The comparator [([,a], [,b]) => b - a]. *)
Definition byCountDesc (x y : string * Z) : Z := snd y - snd x.

Definition analyzeColors (data : Uint8ClampedArray) (total : JS.number)
  : ColorAnalysis :=
  let st := colorLoop data colorInit in
  {| dominantColors :=
       map fst (JS.slice0 3 (JS.sort byCountDesc (JS.entries (colorCounts st))));
     darkRatio := (JS.Z2F (darkPixels st) / total)%float;
     lightRatio := (JS.Z2F (lightPixels st) / total)%float;
     brightness := (brightnessSum st / total / 255)%float |}.

(** ** The canvas

    [ctx.getImageData(sx, sy, sw, sh).data] is the row-major RGBA buffer
    of the rectangle whose top-left corner is [(sx, sy)].  A canvas is
    the colour of each of its pixels. *)

Record Pixel := { red : Byte.byte; green : Byte.byte; blue : Byte.byte; alpha : Byte.byte }.

Definition Canvas := Z -> Z -> Pixel.

(** The integers [lo, lo+1, ..., hi-1] (none when [hi <= lo]): the values
    a loop [for (v = lo; v < hi; v++)] gives its variable. *)
Definition range (lo hi : Z) : list Z :=
  map (fun i => lo + Z.of_nat i) (seq 0 (Z.to_nat (hi - lo))).

Definition getImageData (ctx : Canvas) (sx sy sw sh : Z) : Uint8ClampedArray :=
  flat_map (fun y =>
    flat_map (fun x =>
      let p := ctx x y in [red p; green p; blue p; alpha p])
      (range sx (sx + sw)))
    (range sy (sy + sh)).

(** [d[i]] for an index inside the buffer (every read below is). *)
Definition idx (d : Uint8ClampedArray) (i : nat) : Z := chan (nth i d Byte.x00).

(** ** analyzeEdges *)

Record EdgeState := { hEdges : Z; vEdges : Z; rShapes : Z }.

(** Mean of the R, G and B channels of a one-pixel buffer. *)
Definition brightnessOf (d : Uint8ClampedArray) : JS.number :=
  (JS.Z2F (idx d 0 + idx d 1 + idx d 2) / 3)%float.

Definition horizontalDiff (ctx : Canvas) (x y : Z) : JS.number :=
  abs (brightnessOf (getImageData ctx x y 1 1)
       - brightnessOf (getImageData ctx (x - 1) y 1 1))%float.

Definition verticalDiff (ctx : Canvas) (x y : Z) : JS.number :=
  abs (brightnessOf (getImageData ctx x y 1 1)
       - brightnessOf (getImageData ctx x (y - 1) 1 1))%float.

(** The body of the inner loop at pixel [(x, y)]. *)
Definition edgeStep (ctx : Canvas) (y : Z) (st : EdgeState) (x : Z) : EdgeState :=
  let hd := horizontalDiff ctx x y in
  let vd := verticalDiff ctx x y in
  let h := if JS.gt hd 50 then hEdges st + 1 else hEdges st in
  let v := if JS.gt vd 50 then vEdges st + 1 else vEdges st in
  let r := if JS.gt hd 50 && JS.gt vd 50 then rShapes st + 1 else rShapes st in
  {| hEdges := h; vEdges := v; rShapes := r |}.

Definition edgeRow (ctx : Canvas) (width : Z) (st : EdgeState) (y : Z) : EdgeState :=
  fold_left (edgeStep ctx y) (range 1 width) st.

Definition edgeLoop (ctx : Canvas) (width height : Z) : EdgeState :=
  fold_left (edgeRow ctx width) (range 1 height)
    {| hEdges := 0; vEdges := 0; rShapes := 0 |}.

Definition analyzeEdges (ctx : Canvas) (width height : Z) : EdgeAnalysis :=
  let st := edgeLoop ctx width height in
  let total := width * height in
  {| horizontalEdges := hEdges st;
     verticalEdges := vEdges st;
     normalizedEdges := (JS.Z2F (hEdges st + vEdges st) / JS.Z2F total)%float;
     rectangularShapes := rShapes st |}.

(** ** analyzePatterns *)

(** The scan [for (p = 0; p < pattern.length; p += 4)] over the
    neighbourhood buffer: [false] as soon as one channel of one pixel is
    more than 20 away from the current pixel's (the [break]). *)
Fixpoint isRegular (pattern : Uint8ClampedArray) (c0 c1 c2 : Z) : bool :=
  match pattern with
  | p0 :: p1 :: p2 :: _ :: rest =>
      if (Z.abs (chan p0 - c0) >? 20) || (Z.abs (chan p1 - c1) >? 20)
         || (Z.abs (chan p2 - c2) >? 20)
      then false
      else isRegular rest c0 c1 c2
  | _ => true
  end.

Definition patternStep (ctx : Canvas) (y : Z) (n : Z) (x : Z) : Z :=
  let pattern := getImageData ctx (x - 3) (y - 3) 3 3 in
  let current := getImageData ctx x y 1 1 in
  if isRegular pattern (idx current 0) (idx current 1) (idx current 2)
  then n + 1 else n.

Definition patternRow (ctx : Canvas) (width : Z) (n : Z) (y : Z) : Z :=
  fold_left (patternStep ctx y) (range 3 width) n.

Definition analyzePatterns (ctx : Canvas) (width height : Z) : PatternAnalysis :=
  {| regularPatterns := fold_left (patternRow ctx width) (range 3 height) 0;
     totalPixels := width * height |}.

(** ** analyzeContent *)

Definition isErrorColor (c : string) : bool :=
  JS.includes "rgb(255,0,0)" c || JS.includes "rgb(255,192,192)" c.

Definition analyzeContent (colorAnalysis : ColorAnalysis)
  (edgeAnalysis : EdgeAnalysis) (patternAnalysis : PatternAnalysis)
  : ContentAnalysis :=
  let total := JS.Z2F (totalPixels patternAnalysis) in
  let ne := normalizedEdges edgeAnalysis in
  let isUIScreen :=
    JS.gt (JS.Z2F (rectangularShapes edgeAnalysis)) (total * 0.01)%float
    && JS.gt (JS.Z2F (regularPatterns patternAnalysis)) (total * 0.1)%float in
  let hasText :=
    JS.gt (JS.Z2F (horizontalEdges edgeAnalysis))
          (JS.Z2F (verticalEdges edgeAnalysis) * 1.5)%float
    && JS.gt ne 0.1 in
  let isErrorScreen :=
    JS.lt (darkRatio colorAnalysis) 0.2 && JS.gt (lightRatio colorAnalysis) 0.6
    && existsb isErrorColor (dominantColors colorAnalysis) in
  let isDarkMode := JS.gt (darkRatio colorAnalysis) 0.7 in
  let isLightMode := JS.gt (lightRatio colorAnalysis) 0.7 in
  let contentType := "Unknown" in
  let contentType :=
    if isUIScreen then
      let contentType := "User Interface" in
      if isErrorScreen then (contentType ++ " (Error Screen)")%string
      else if isDarkMode then (contentType ++ " (Dark Theme)")%string
      else if isLightMode then (contentType ++ " (Light Theme)")%string
      else contentType
    else if hasText && JS.gt ne 0.2 then "Document or Text Content"
    else if JS.lt ne 0.05 then "Simple Graphic or Icon"
    else "Complex Image or Photo" in
  {| isUIScreen := isUIScreen;
     hasText := hasText;
     isErrorScreen := isErrorScreen;
     isDarkMode := isDarkMode;
     isLightMode := isLightMode;
     contentType := contentType |}.

(** ** The orchestrator ([processImage])

    The orchestrator talks to the browser: a [FileReader] turns the file
    into a data URL and an [Image] decodes it onto a canvas.  Those steps
    are outcomes the browser decides; the code's own control flow, its
    [throw]s and its [try]/[catch] are modelled in a monad that threads a
    trace of the browser calls made and carries the thrown value. *)

Module Orchestrator.

(** What the code reads of a [File]. *)
Record File := { type : string; size : Z }.

(** A thrown (or rejected-with) value: an [Error] with its message, or
    something that is not an [Error]. *)
Inductive thrown := ErrorObj (message : string) | NotAnError.

Inductive completion (A : Type) :=
| Return (a : A)
| Throw (t : thrown).
Arguments Return {A} a.
Arguments Throw {A} t.

(** Calls that leave the orchestrator. *)
Inductive event := ReadAsDataURL | DecodeImage | ConsoleError.

Definition M (A : Type) : Type := list event -> completion A * list event.

Definition ret {A} (a : A) : M A := fun tr => (Return a, tr).
Definition throw {A} (t : thrown) : M A := fun tr => (Throw t, tr).
Definition emit (e : event) : M unit := fun tr => (Return tt, tr ++ [e]).
Definition bind {A B} (m : M A) (k : A -> M B) : M B :=
  fun tr => match m tr with
            | (Return a, tr') => k a tr'
            | (Throw t, tr') => (Throw t, tr')
            end.
Definition try_catch {A} (body : M A) (handler : thrown -> M A) : M A :=
  fun tr => match body tr with
            | (Return a, tr') => (Return a, tr')
            | (Throw t, tr') => handler t tr'
            end.

Notation "x <- m ;; k" := (bind m (fun x => k))
  (at level 61, m at next level, right associativity).
Notation "m ;;; k" := (bind m (fun _ => k))
  (at level 61, right associativity).

(** [error instanceof Error ? error.message : 'Unknown error']. *)
Definition messageOf (error : thrown) : string :=
  match error with
  | ErrorObj m => m
  | NotAnError => "Unknown error"
  end.

(** How a [FileReader] can finish. *)
Inductive readResult :=
| ReadString (dataUrl : string)   (* onload, result is a string *)
| ReadOther                      (* onload, result is not a string *)
| ReadFailed.                    (* onerror *)

(** The browser, for one call.  [loadImage] is the decoding of a data
    URL ([None]: the image's [onerror]); [hasContext] whether
    [canvas.getContext('2d')] is non-null; [analysis] is what the rest
    of the [try] block of [analyzeImageLocally] does with the decoded
    image: the report text, or a thrown value. *)
Section Browser.
Variable Image : Type.

Record Browser := {
  readAsDataURL : File -> readResult;
  loadImage : string -> option Image;
  hasContext : Image -> bool;
  analysis : Image -> completion string
}.

Variable env : Browser.

Definition nl : string := String (ascii_of_nat 10) EmptyString.

(** [String.prototype.split] on a one-character separator. *)
Fixpoint split_aux (sep : ascii) (s : string) (cur : string) : list string :=
  match s with
  | EmptyString => [cur]
  | String c rest =>
      if Ascii.eqb c sep then cur :: split_aux sep rest EmptyString
      else split_aux sep rest (cur ++ String c EmptyString)%string
  end.
Definition split (sep : ascii) (s : string) : list string :=
  split_aux sep s EmptyString.

Definition SUPPORTED_FORMATS : list string :=
  ["image/jpeg"; "image/png"; "image/webp"; "image/gif"].
Definition MAX_IMAGE_SIZE : Z := 10 * 1024 * 1024.

Definition analyzeImageLocally (imageData : string) : M string :=
  emit DecodeImage ;;;
  match loadImage env imageData with
  | None => throw (ErrorObj "Failed to load image")
  | Some img =>
      try_catch
        (if negb (hasContext env img)
         then throw (ErrorObj "Failed to get canvas context")
         else fun tr => (analysis env img, tr))
        (fun error =>
           throw (ErrorObj ("Failed to analyze image: " ++ messageOf error)%string))
  end.

Definition readFile (image : File) : M string :=
  emit ReadAsDataURL ;;;
  match readAsDataURL env image with
  | ReadString s => ret s
  | ReadOther => throw (ErrorObj "Failed to read image file")
  | ReadFailed => throw (ErrorObj "Error reading image file")
  end.

Definition unsupportedMessage : string :=
  ("Unsupported image format. Supported formats: "
   ++ JS.join ", " (map (fun f => nth 1 (split "/" f) "") SUPPORTED_FORMATS))%string.

Definition tooLargeMessage : string :=
  ("Image size exceeds maximum limit of "
   ++ JS.toString (MAX_IMAGE_SIZE / (1024 * 1024)) ++ "MB")%string.

(** The body of the [try] block of [processImage]. *)
Definition processBody (image : option File) : M string :=
  match image with
  | None => throw (ErrorObj "No image provided")
  | Some image =>
      if negb (JS.array_includes SUPPORTED_FORMATS (type image))
      then throw (ErrorObj unsupportedMessage)
      else if size image >? MAX_IMAGE_SIZE
      then throw (ErrorObj tooLargeMessage)
      else
        base64Image <- readFile image ;;
        analyzeImageLocally base64Image
  end.

(** The text the [catch] block returns. *)
Definition failureText (errorMessage : string) : string :=
  ("Image Analysis Error:" ++ nl ++
   "- Status: Unable to process image" ++ nl ++
   "- Reason: " ++ errorMessage ++ nl ++
   "- Recommendation: Please ensure the image is valid and try again" ++ nl ++
   "- Note: Continuing with text-only analysis" ++ nl ++
   "- Supported Formats: JPEG, PNG, WebP, GIF" ++ nl ++
   "- Maximum Size: 10MB")%string.

Definition processImage (image : option File) : M string :=
  try_catch (processBody image)
    (fun error =>
       let errorMessage := messageOf error in
       emit ConsoleError ;;;
       ret (failureText errorMessage)).

End Browser.

Arguments readAsDataURL {Image}.
Arguments loadImage {Image}.
Arguments hasContext {Image}.
Arguments analysis {Image}.
Arguments processImage {Image}.
Arguments processBody {Image}.
Arguments analyzeImageLocally {Image}.
Arguments readFile {Image}.

End Orchestrator.

(** ** The diagram ([generateMermaidDiagram])

    The content type is embedded in the diagram between double quotes
    after [contentType.replace(/[^a-zA-Z0-9\s()-]/g, '')]: every
    character outside the class is deleted.  A string is modelled by its
    sequence of code units below 256, which covers every string this
    program builds; among those, [\s] matches TAB, LF, VT, FF, CR, the
    space and the no-break space. *)

Module Visualization.

Definition code (c : ascii) : Z := Z.of_N (N_of_ascii c).

Definition isWhiteSpace (c : ascii) : bool :=
  ((9 <=? code c) && (code c <=? 13)) || (code c =? 32) || (code c =? 160).

(** The characters the class [[a-zA-Z0-9\s()-]] matches. *)
Definition inClass (c : ascii) : bool :=
  ((97 <=? code c) && (code c <=? 122))
  || ((65 <=? code c) && (code c <=? 90))
  || ((48 <=? code c) && (code c <=? 57))
  || isWhiteSpace c
  || Ascii.eqb c "(" || Ascii.eqb c ")" || Ascii.eqb c "-".

(** [s.replace(/[^a-zA-Z0-9\s()-]/g, '')]. *)
Fixpoint sanitize (s : string) : string :=
  match s with
  | EmptyString => EmptyString
  | String c rest =>
      if inClass c then String c (sanitize rest) else sanitize rest
  end.

Definition sanitizedContentType (contentAnalysis : ContentAnalysis) : string :=
  sanitize (contentType contentAnalysis).

End Visualization.

(** ** The chat providers ([ai-providers.ts])

    The module keeps four variables ([config], the two clients and
    [messageHistory]); its functions read and assign them, call the
    image orchestrator and the provider's SDK, and throw.  They are
    modelled in a state-and-exception monad over those variables and a
    trace of what leaves the module.  The SDK is the environment: a
    constructor returns or throws, a request returns the reply or
    throws an error object.  A client is represented by the key it was
    built with.  One call runs to completion before the next starts
    (the chat input is disabled while a message is processed). *)

Module AIProviders.

Inductive AIProvider := openai | claude.

Record AIConfig := { provider : AIProvider; apiKey : string }.

Inductive Role := system | user | assistant.

Record ChatMessage := { role : Role; content : string }.

(** A thrown value as the handlers read it: whether it is an [Error],
    its [status] and its [message] ([None]: undefined). *)
Record exn := {
  isError : bool;
  status : option Z;
  errorMessage : option string
}.

(** [new Error(m)]. *)
Definition Error (m : string) : exn :=
  {| isError := true; status := None; errorMessage := Some m |}.

Inductive outcome (A : Type) :=
| Ok (a : A)
| Thrown (e : exn).
Arguments Ok {A} a.
Arguments Thrown {A} e.

(** What leaves the module: the browser calls of [processImage], the
    requests to a provider (with the client's key and the [messages]
    sent) and [console.error]. *)
Inductive event :=
| BrowserCall (e : Orchestrator.event)
| Request (p : AIProvider) (key : string) (messages : list ChatMessage)
| ConsoleError.

Record Store := {
  config : option AIConfig;
  openaiClient : option string;
  claudeClient : option string;
  messageHistory : list ChatMessage;
  trace : list event
}.

Definition initial : Store :=
  {| config := None; openaiClient := None; claudeClient := None;
     messageHistory := []; trace := [] |}.

Definition M (A : Type) : Type := Store -> outcome A * Store.

Definition pure {A} (a : A) : M A := fun s => (Ok a, s).
Definition raise {A} (e : exn) : M A := fun s => (Thrown e, s).
Definition andThen {A B} (m : M A) (k : A -> M B) : M B :=
  fun s => match m s with
           | (Ok a, s') => k a s'
           | (Thrown e, s') => (Thrown e, s')
           end.
Definition attempt {A} (body : M A) (handler : exn -> M A) : M A :=
  fun s => match body s with
           | (Ok a, s') => (Ok a, s')
           | (Thrown e, s') => handler e s'
           end.
Definition read : M Store := fun s => (Ok s, s).
Definition update (f : Store -> Store) : M unit := fun s => (Ok tt, f s).

Notation "x <- m ;; k" := (andThen m (fun x => k))
  (at level 61, m at next level, right associativity).
Notation "m ;;; k" := (andThen m (fun _ => k))
  (at level 61, right associativity).

Definition setConfig (c : option AIConfig) (s : Store) : Store :=
  {| config := c; openaiClient := openaiClient s; claudeClient := claudeClient s;
     messageHistory := messageHistory s; trace := trace s |}.
Definition setOpenaiClient (c : option string) (s : Store) : Store :=
  {| config := config s; openaiClient := c; claudeClient := claudeClient s;
     messageHistory := messageHistory s; trace := trace s |}.
Definition setClaudeClient (c : option string) (s : Store) : Store :=
  {| config := config s; openaiClient := openaiClient s; claudeClient := c;
     messageHistory := messageHistory s; trace := trace s |}.
Definition setMessageHistory (h : list ChatMessage) (s : Store) : Store :=
  {| config := config s; openaiClient := openaiClient s;
     claudeClient := claudeClient s; messageHistory := h; trace := trace s |}.
Definition emitAll (es : list event) (s : Store) : Store :=
  {| config := config s; openaiClient := openaiClient s;
     claudeClient := claudeClient s; messageHistory := messageHistory s;
     trace := trace s ++ es |}.

Definition emit (e : event) : M unit := update (emitAll [e]).

Definition nl : string := String (ascii_of_nat 10) EmptyString.

Definition SYSTEM_PROMPT : string :=
  ("You are a helpful AI assistant specializing in software development and debugging. You can use special tools to enhance your responses:" ++ nl ++
   nl ++
   "1. To create diagrams, wrap Mermaid syntax in ```mermaid blocks" ++ nl ++
   "2. To create runnable code examples, use ```jsx live blocks" ++ nl ++
   "3. To highlight specific code, use regular ```language blocks" ++ nl ++
   "4. To create tables, use markdown table syntax" ++ nl ++
   "5. To create math equations, wrap them in $$ blocks" ++ nl ++
   nl ++
   "When analyzing images:" ++ nl ++
   "- Focus on identifying potential software bugs, UI/UX issues, and error messages" ++ nl ++
   "- Provide specific technical recommendations for fixes" ++ nl ++
   "- Consider both visual and functional aspects of the interface" ++ nl ++
   "- Reference specific elements and their states in the interface")%string.

Definition systemMessage : ChatMessage :=
  {| role := system; content := SYSTEM_PROMPT |}.

(** [value || fallback] on a string that may be undefined or null. *)
Definition orElse (value : option string) (fallback : string) : string :=
  match value with
  | Some v => if String.eqb v "" then fallback else v
  | None => fallback
  end.

(** [error.status === n]. *)
Definition statusIs (error : exn) (n : Z) : bool :=
  match status error with
  | Some k => k =? n
  | None => false
  end.

(** [error.message?.includes(needle)] as a condition. *)
Definition messageIncludes (error : exn) (needle : string) : bool :=
  match errorMessage error with
  | Some m => JS.includes needle m
  | None => false
  end.

Definition ofThrown (t : Orchestrator.thrown) : exn :=
  match t with
  | Orchestrator.ErrorObj m => Error m
  | Orchestrator.NotAnError =>
      {| isError := false; status := None; errorMessage := None |}
  end.

Section World.
Variable Image : Type.

(** The environment.  [newOpenAI] and [newAnthropic]: what the
    constructor throws for a key, if it does; [claudeCreate] and
    [openaiCreate]: how a request ends, given all that happened before
    it, the client's key and the messages.  A Claude request returns the
    text of the first content block, an OpenAI request the content of
    the first choice, which may be missing or null ([None]). *)
Record World := {
  browser : Orchestrator.Browser Image;
  newOpenAI : string -> option exn;
  newAnthropic : string -> option exn;
  claudeCreate : list event -> string -> list ChatMessage -> outcome string;
  openaiCreate : list event -> string -> list ChatMessage -> outcome (option string)
}.

Variable w : World.

Definition initializeAI (provider : AIProvider) (apiKey : string) : M bool :=
  attempt
    (if String.eqb apiKey "" then pure false
     else
       update (setConfig (Some {| provider := provider; apiKey := apiKey |})) ;;;
       update (setMessageHistory [systemMessage]) ;;;
       match provider with
       | openai =>
           match newOpenAI w apiKey with
           | None => update (setOpenaiClient (Some apiKey))
           | Some e => raise e
           end
       | claude =>
           match newAnthropic w apiKey with
           | None => update (setClaudeClient (Some apiKey))
           | Some e => raise e
           end
       end ;;;
       pure true)
    (fun error =>
       emit ConsoleError ;;;
       update (setConfig None) ;;;
       update (setOpenaiClient None) ;;;
       update (setClaudeClient None) ;;;
       update (setMessageHistory []) ;;;
       pure false).

(** [await processImage(image)]. *)
Definition processImage (image : Orchestrator.File) : M string :=
  fun s =>
    match Orchestrator.processImage (browser w) (Some image) [] with
    | (Orchestrator.Return text, calls) =>
        (Ok text, emitAll (map BrowserCall calls) s)
    | (Orchestrator.Throw t, calls) =>
        (Thrown (ofThrown t), emitAll (map BrowserCall calls) s)
    end.

(** The content of the user message that is sent; both completion
    functions build it with the same code. *)
Definition userContent (message : string) (image : option Orchestrator.File)
  : M string :=
  match image with
  | Some image =>
      attempt
        (imageAnalysis <- processImage image ;;
         pure (imageAnalysis ++ nl ++ nl ++ "User Message: " ++ message)%string)
        (fun error =>
           emit ConsoleError ;;;
           pure ("[Image analysis unavailable]" ++ nl ++ nl
                 ++ "User Message: " ++ message)%string)
  | None => pure message
  end.

Definition isSystem (r : Role) : bool :=
  match r with system => true | _ => false end.

Definition sendClaude (client : string) (messages : list ChatMessage) : M string :=
  fun s =>
    let s' := emitAll [Request claude client messages] s in
    match claudeCreate w (trace s) client messages with
    | Ok text => (Ok text, s')
    | Thrown e => (Thrown e, s')
    end.

Definition sendOpenAI (client : string) (messages : list ChatMessage)
  : M (option string) :=
  fun s =>
    let s' := emitAll [Request openai client messages] s in
    match openaiCreate w (trace s) client messages with
    | Ok text => (Ok text, s')
    | Thrown e => (Thrown e, s')
    end.

Definition pushHistory (ms : list ChatMessage) : M unit :=
  update (fun s => setMessageHistory (messageHistory s ++ ms) s).

Definition getClaudeCompletion (message : string)
  (image : option Orchestrator.File) : M string :=
  s <- read ;;
  match claudeClient s with
  | None => raise (Error "Claude client not initialized")
  | Some client =>
      attempt
        (s <- read ;;
         let messages :=
           map (fun msg =>
                  {| role := if isSystem (role msg) then user else role msg;
                     content := content msg |})
               (filter (fun msg => negb (isSystem (role msg))) (messageHistory s)) in
         content <- userContent message image ;;
         assistantResponse <-
           sendClaude client (messages ++ [{| role := user; content := content |}]) ;;
         pushHistory [ {| role := user; content := message |};
                       {| role := assistant; content := assistantResponse |} ] ;;;
         pure assistantResponse)
        (fun error =>
           emit ConsoleError ;;;
           if statusIs error 401 then raise (Error "Invalid Claude API key")
           else if statusIs error 403 then
             raise (Error "Access denied. Please check your Claude API key permissions.")
           else if messageIncludes error "Failed to fetch" then
             raise (Error "Unable to connect to Claude API. Please check your internet connection and try again.")
           else
             raise (Error (orElse (errorMessage error)
                      "An unexpected error occurred while connecting to Claude API")))
  end.

Definition getOpenAICompletion (message : string)
  (image : option Orchestrator.File) : M string :=
  s <- read ;;
  match openaiClient s with
  | None => raise (Error "OpenAI client not initialized")
  | Some client =>
      attempt
        (s <- read ;;
         let messages := messageHistory s in
         content <- userContent message image ;;
         completion <-
           sendOpenAI client (messages ++ [{| role := user; content := content |}]) ;;
         let assistantResponse :=
           orElse completion "Sorry, I could not process your request." in
         pushHistory [ {| role := user; content := message |};
                       {| role := assistant; content := assistantResponse |} ] ;;;
         pure assistantResponse)
        (fun error =>
           if statusIs error 401 then raise (Error "Invalid OpenAI API key")
           else raise (Error (orElse (errorMessage error)
                                "Failed to get response from OpenAI")))
  end.

Definition getChatCompletion (message : string)
  (image : option Orchestrator.File) : M string :=
  s <- read ;;
  match config s with
  | None =>
      raise (Error "AI provider not initialized. Please set a valid API key.")
  | Some c =>
      match provider c with
      | openai => getOpenAICompletion message image
      | claude => getClaudeCompletion message image
      end
  end.

End World.

Arguments browser {Image}.
Arguments newOpenAI {Image}.
Arguments newAnthropic {Image}.
Arguments claudeCreate {Image}.
Arguments openaiCreate {Image}.
Arguments initializeAI {Image}.
Arguments processImage {Image}.
Arguments userContent {Image}.
Arguments getClaudeCompletion {Image}.
Arguments getOpenAICompletion {Image}.
Arguments getChatCompletion {Image}.

(** The test of the chat window on what [getChatCompletion] throws
    ([App.handleSendMessage]): when it holds, the stored key is
    forgotten.
    [error instanceof Error && error.message.includes('Invalid')]. *)
Definition forgetsKey (error : exn) : bool :=
  isError error && messageIncludes error "Invalid".

End AIProviders.

(** ** The markdown tools of the chat input ([ChatInput.handleToolClick])

    A click on a tool inserts the tool's markdown at the cursor, or
    wraps the selected text in it.  A string is here its sequence of
    UTF-16 code units, as [substring], [replace] and [length] see it. *)

Module ChatInput.

Definition JSString := list N.

(** The code units of an ASCII literal. *)
Definition units (s : string) : JSString :=
  map N_of_ascii (list_ascii_of_string s).

(** [s.substring(from, to)] and [s.substring(from)]: the indices are
    clamped to the length and swapped when out of order. *)
Definition substring (s : JSString) (from to : nat) : JSString :=
  let from := Nat.min from (List.length s) in
  let to := Nat.min to (List.length s) in
  firstn (Nat.max from to - Nat.min from to) (skipn (Nat.min from to) s).
Definition substringFrom (s : JSString) (from : nat) : JSString :=
  substring s from (List.length s).

Fixpoint startsWith (pattern s : JSString) : bool :=
  match pattern, s with
  | [], _ => true
  | p :: pattern', c :: s' => (p =? c)%N && startsWith pattern' s'
  | _ :: _, [] => false
  end.

(** [s.indexOf(pattern)]. *)
Fixpoint indexOf (pattern s : JSString) : option nat :=
  if startsWith pattern s then Some O
  else match s with
       | [] => None
       | _ :: s' => option_map S (indexOf pattern s')
       end.

(** The replacement text of [replace] with a string pattern: [$$] is a
    dollar sign, [$&] the matched text, [$`] and [$'] the text before
    and after the match; any other character, also a dollar sign
    before a digit or [<] (there are no captures), stands for itself. *)
Fixpoint getSubstitution (matched before after template : JSString) : JSString :=
  match template with
  | [] => []
  | c :: rest =>
      if (c =? 36)%N then
        match rest with
        | d :: rest' =>
            if (d =? 36)%N then 36%N :: getSubstitution matched before after rest'
            else if (d =? 96)%N then
              before ++ getSubstitution matched before after rest'
            else if (d =? 38)%N then
              matched ++ getSubstitution matched before after rest'
            else if (d =? 39)%N then
              after ++ getSubstitution matched before after rest'
            else c :: getSubstitution matched before after rest
        | [] => [c]
        end
      else c :: getSubstitution matched before after rest
  end.

(** [s.replace(pattern, replacement)] for strings: the first
    occurrence only. *)
Definition replace (s pattern replacement : JSString) : JSString :=
  match indexOf pattern s with
  | None => s
  | Some position =>
      let before := firstn position s in
      let after := skipn (position + List.length pattern) s in
      before ++ getSubstitution pattern before after replacement ++ after
  end.

(** The new text and the new cursor position, from the value of the
    text area and its selection. *)
Definition handleToolClick (text : JSString) (selectionStart selectionEnd : nat)
  (markdown : JSString) : JSString * nat :=
  let start := selectionStart in
  let end_ := selectionEnd in
  let beforeSelection := substring text 0 start in
  let selection := substring text start end_ in
  let afterSelection := substringFrom text end_ in
  match selection with
  | _ :: _ =>
      let wrappedText :=
        replace (replace markdown (units "text") selection) (units "code") selection in
      ((beforeSelection ++ wrappedText ++ afterSelection)%list,
       (start + List.length wrappedText)%nat)
  | [] =>
      ((beforeSelection ++ markdown ++ afterSelection)%list,
       (start + List.length markdown)%nat)
  end.

(** The tools ([MarkdownTools]). *)
Definition bold : JSString := units "**text**".
Definition italic : JSString := units "*text*".
Definition code : JSString := units "`code`".
Definition link : JSString := units "[text](url)".

End ChatInput.

(** * Binary64 arithmetic

    What the proofs below need of IEEE-754 arithmetic, derived from the
    specification of the primitive operations ([FloatAxioms], [SpecFloat]):
    a finite float stands for the real [m * 2^e]; comparisons of
    non-negative floats are comparisons of these reals; and the rounded
    quotient or sum of non-negative floats never exceeds a float that
    bounds the exact quotient or sum. *)

Module Binary64.

(** ** Binary64 values as reals *)

Definition F2R (m e : Z) : R := (IZR m * powerRZ 2 e)%R.

Definition SF2R (x : spec_float) : R :=
  match x with
  | S754_finite s m e => F2R (cond_Zopp s (Zpos m)) e
  | _ => 0%R
  end.

Lemma pow2_pos e : (0 < powerRZ 2 e)%R.
Proof. apply powerRZ_lt. lra. Qed.

Lemma pow2_add a b : powerRZ 2 (a + b) = (powerRZ 2 a * powerRZ 2 b)%R.
Proof. apply powerRZ_add. lra. Qed.

Lemma pow2_IZR n : 0 <= n -> powerRZ 2 n = IZR (2 ^ n).
Proof.
  intros Hn. destruct n as [|p|p]; [reflexivity| |lia].
  symmetry. apply (Zpower_pos_powerRZ 2 p).
Qed.

Lemma F2R_shift m e k : 0 <= k -> F2R (m * 2 ^ k) (e - k) = F2R m e.
Proof.
  intros Hk. unfold F2R. rewrite mult_IZR, <- pow2_IZR by exact Hk.
  rewrite Rmult_assoc, <- pow2_add. f_equal. f_equal. lia.
Qed.

Lemma F2R_le m1 m2 e : m1 <= m2 <-> (F2R m1 e <= F2R m2 e)%R.
Proof.
  unfold F2R. pose proof (pow2_pos e) as Hp. split; intros H.
  - apply Rmult_le_compat_r; [lra|]. now apply IZR_le.
  - apply le_IZR. apply Rmult_le_reg_r with (powerRZ 2 e); assumption.
Qed.

Lemma F2R_lt m1 m2 e : m1 < m2 <-> (F2R m1 e < F2R m2 e)%R.
Proof.
  unfold F2R. pose proof (pow2_pos e) as Hp. split; intros H.
  - apply Rmult_lt_compat_r; [lra|]. now apply IZR_lt.
  - apply lt_IZR. apply Rmult_lt_reg_r with (powerRZ 2 e); assumption.
Qed.

Lemma F2R_0 e : F2R 0 e = 0%R.
Proof. unfold F2R. lra. Qed.

(** Values at different exponents, compared at the smaller one. *)
Lemma F2R_align m e e' : e' <= e -> F2R m e = F2R (m * 2 ^ (e - e')) e'.
Proof.
  intros H. rewrite <- (F2R_shift m e (e - e')) by lia. f_equal. lia.
Qed.

(** ** Digits *)

Lemma digits2_pos_bounds p :
  2 ^ (Zpos (digits2_pos p) - 1) <= Zpos p < 2 ^ Zpos (digits2_pos p).
Proof.
  induction p as [p IH|p IH|]; cbn [digits2_pos].
  - rewrite Pos2Z.inj_succ.
    replace (Z.succ (Zpos (digits2_pos p)) - 1) with (Z.succ (Zpos (digits2_pos p) - 1)) by lia.
    rewrite !Z.pow_succ_r by lia. lia.
  - rewrite Pos2Z.inj_succ.
    replace (Z.succ (Zpos (digits2_pos p)) - 1) with (Z.succ (Zpos (digits2_pos p) - 1)) by lia.
    rewrite !Z.pow_succ_r by lia. lia.
  - cbn. lia.
Qed.

Lemma Zdigits2_bounds m : 0 < m ->
  2 ^ (Zdigits2 m - 1) <= m < 2 ^ Zdigits2 m.
Proof.
  destruct m as [|p|p]; try lia. intros _. apply digits2_pos_bounds.
Qed.

Lemma Zdigits2_nonneg m : 0 <= Zdigits2 m.
Proof. destruct m; cbn; lia. Qed.

(** The number of digits is determined by the binade. *)
Lemma Zdigits2_unique m d : 0 < m -> 2 ^ (d - 1) <= m < 2 ^ d -> Zdigits2 m = d.
Proof.
  intros Hm [Hlo Hhi]. pose proof (Zdigits2_bounds m Hm) as [Hlo' Hhi'].
  pose proof (Zdigits2_nonneg m).
  assert (0 < d).
  { destruct (Z.lt_trichotomy d 0) as [Hd|[Hd|Hd]]; [|subst; cbn in Hhi; lia|lia].
    rewrite Z.pow_neg_r in Hhi by exact Hd. lia. }
  destruct (Z.lt_trichotomy (Zdigits2 m) d) as [H1|[H1|H1]]; [|exact H1|].
  - assert (2 ^ Zdigits2 m <= 2 ^ (d - 1)) by (apply Z.pow_le_mono_r; lia). lia.
  - assert (2 ^ d <= 2 ^ (Zdigits2 m - 1)) by (apply Z.pow_le_mono_r; lia). lia.
Qed.

Lemma Zdigits2_mono m1 m2 : 0 < m1 -> m1 <= m2 -> Zdigits2 m1 <= Zdigits2 m2.
Proof.
  intros H1 H12.
  pose proof (Zdigits2_bounds m1 H1) as [Hlo1 _].
  pose proof (Zdigits2_bounds m2 ltac:(lia)) as [_ Hhi2].
  destruct (Z.leb_spec (Zdigits2 m1) (Zdigits2 m2)) as [|Hlt]; [assumption|].
  assert (2 ^ Zdigits2 m2 <= 2 ^ (Zdigits2 m1 - 1))
    by (apply Z.pow_le_mono_r; pose proof (Zdigits2_nonneg m2); lia).
  lia.
Qed.

(** ** Powers of two *)

Lemma pow2_le a b : a <= b -> (powerRZ 2 a <= powerRZ 2 b)%R.
Proof.
  intros H. replace b with (a + (b - a)) by lia.
  rewrite pow2_add, (pow2_IZR (b - a)) by lia.
  pose proof (pow2_pos a).
  assert (1 <= IZR (2 ^ (b - a)))%R.
  { apply IZR_le. pose proof (Z.pow_pos_nonneg 2 (b - a)). lia. }
  nra.
Qed.

Lemma pow2_lt_inv a b : (powerRZ 2 a < powerRZ 2 b)%R -> a < b.
Proof.
  intros H. destruct (Z.ltb_spec a b) as [|Hle]; [assumption|].
  apply pow2_le in Hle. lra.
Qed.

Lemma F2R_digits_lower m e : 0 < m -> (powerRZ 2 (Zdigits2 m - 1 + e) <= F2R m e)%R.
Proof.
  intros Hm. pose proof (Zdigits2_bounds m Hm) as [Hlo _].
  pose proof (Zdigits2_nonneg m).
  assert (0 < Zdigits2 m) by (destruct m; cbn in *; lia).
  rewrite pow2_add, pow2_IZR by lia. apply (F2R_le _ _ e) in Hlo. exact Hlo.
Qed.

Lemma F2R_digits_upper m e : 0 < m -> (F2R m e < powerRZ 2 (Zdigits2 m + e))%R.
Proof.
  intros Hm. pose proof (Zdigits2_bounds m Hm) as [_ Hhi].
  pose proof (Zdigits2_nonneg m).
  rewrite pow2_add, pow2_IZR by lia. apply (F2R_lt _ _ e) in Hhi. exact Hhi.
Qed.

(** A larger value does not sit in a lower binade. *)
Lemma F2R_le_digits m1 e1 m2 e2 :
  0 < m1 -> 0 < m2 -> (F2R m1 e1 <= F2R m2 e2)%R ->
  Zdigits2 m1 + e1 <= Zdigits2 m2 + e2.
Proof.
  intros H1 H2 H.
  pose proof (F2R_digits_lower m1 e1 H1).
  pose proof (F2R_digits_upper m2 e2 H2).
  assert (Hlt : (powerRZ 2 (Zdigits2 m1 - 1 + e1) < powerRZ 2 (Zdigits2 m2 + e2))%R) by lra.
  apply pow2_lt_inv in Hlt. lia.
Qed.

(** ** The binary64 format *)

Lemma fexp64 e : fexp prec emax e = Z.max (e - 53) (-1074).
Proof. reflexivity. Qed.

Lemma fexp64_mono a b : a <= b -> fexp prec emax a <= fexp prec emax b.
Proof. rewrite !fexp64. lia. Qed.

Lemma bounded_inv m e :
  bounded prec emax m e = true ->
  fexp prec emax (Zpos (digits2_pos m) + e) = e /\
  Zpos (digits2_pos m) <= 53 /\ -1074 <= e <= 971 /\
  (-1074 < e -> Zpos (digits2_pos m) = 53).
Proof.
  unfold bounded, canonical_mantissa. rewrite andb_true_iff, Z.eqb_eq, Z.leb_le.
  rewrite fexp64. change (emax - prec) with 971. lia.
Qed.

(** Floats that are zero or positive and finite. *)
Inductive nonnegF : spec_float -> Prop :=
| nonneg_zero s : nonnegF (S754_zero s)
| nonneg_finite m e : bounded prec emax m e = true -> nonnegF (S754_finite false m e).

Lemma SF2R_nonneg x : nonnegF x -> (0 <= SF2R x)%R.
Proof.
  intros [s|m e _]; cbn; [lra|]. unfold F2R.
  pose proof (pow2_pos e). assert (0 < IZR (Zpos m))%R by (apply IZR_lt; lia). nra.
Qed.

Lemma bounded_exp_lt m1 e1 m2 e2 :
  bounded prec emax m1 e1 = true -> bounded prec emax m2 e2 = true ->
  e1 < e2 -> (F2R (Zpos m1) e1 < F2R (Zpos m2) e2)%R.
Proof.
  intros H1 H2 He.
  apply bounded_inv in H1 as (_ & Hd1 & He1 & _).
  apply bounded_inv in H2 as (_ & _ & _ & Hd2).
  specialize (Hd2 ltac:(lia)).
  pose proof (digits2_pos_bounds m1) as [_ Hm1].
  pose proof (digits2_pos_bounds m2) as [Hm2 _]. rewrite Hd2 in Hm2.
  rewrite (F2R_align (Zpos m2) e2 e1) by lia. apply F2R_lt.
  assert (2 ^ Zpos (digits2_pos m1) <= 2 ^ 53) by (apply Z.pow_le_mono_r; lia).
  assert (2 ^ 1 <= 2 ^ (e2 - e1)) by (apply Z.pow_le_mono_r; lia).
  change (2 ^ (53 - 1)) with 4503599627370496 in Hm2.
  change (2 ^ 53) with 9007199254740992 in *. change (2 ^ 1) with 2 in *.
  nia.
Qed.

Lemma SFcompare_nonneg x y :
  nonnegF x -> nonnegF y ->
  ((SF2R x < SF2R y)%R /\ SFcompare x y = Some Lt) \/
  (SF2R x = SF2R y /\ SFcompare x y = Some Eq) \/
  ((SF2R y < SF2R x)%R /\ SFcompare x y = Some Gt).
Proof.
  intros [sx|mx ex Hx] [sy|my ey Hy]; cbn [SFcompare SF2R cond_Zopp].
  - right; left. split; reflexivity.
  - left. split; [|reflexivity].
    unfold F2R. pose proof (pow2_pos ey).
    assert (0 < IZR (Zpos my))%R by (apply IZR_lt; lia). nra.
  - right; right. split; [|reflexivity].
    unfold F2R. pose proof (pow2_pos ex).
    assert (0 < IZR (Zpos mx))%R by (apply IZR_lt; lia). nra.
  - destruct (Z.compare_spec ex ey) as [->|Hlt|Hgt].
    + rewrite Pos.compare_cont_spec. cbn [Pos.switch_Eq].
      destruct (Pos.compare_spec mx my) as [->|H|H].
      * right; left. split; reflexivity.
      * left. split; [|reflexivity]. apply F2R_lt. lia.
      * right; right. split; [|reflexivity]. apply F2R_lt. lia.
    + left. split; [|reflexivity]. now apply bounded_exp_lt.
    + right; right. split; [|reflexivity]. now apply bounded_exp_lt.
Qed.

Lemma SFleb_nonneg x y :
  nonnegF x -> nonnegF y -> (SFleb x y = true <-> (SF2R x <= SF2R y)%R).
Proof.
  intros Hx Hy. unfold SFleb.
  destruct (SFcompare_nonneg x y Hx Hy) as [[H ->]|[[H ->]|[H ->]]];
    split; intros; try lra; try reflexivity; discriminate.
Qed.

Lemma SFltb_nonneg x y :
  nonnegF x -> nonnegF y -> (SFltb x y = true <-> (SF2R x < SF2R y)%R).
Proof.
  intros Hx Hy. unfold SFltb.
  destruct (SFcompare_nonneg x y Hx Hy) as [[H ->]|[[H ->]|[H ->]]];
    split; intros; try lra; try reflexivity; discriminate.
Qed.

(** ** Shifting right with round and sticky bits *)

Lemma iter_pos_nat {A} (f : A -> A) p x :
  iter_pos f p x = Nat.iter (Pos.to_nat p) f x.
Proof.
  revert x. induction p as [p IH|p IH|]; intros x; cbn [iter_pos].
  - rewrite !IH, Pos2Nat.inj_xI. cbn [Nat.iter].
    rewrite <- Nat.iter_succ_r, <- Nat.iter_add. f_equal. lia.
  - rewrite !IH, Pos2Nat.inj_xO, <- Nat.iter_add. f_equal. lia.
  - reflexivity.
Qed.

Lemma shr_1_nonneg m r s :
  0 <= m ->
  shr_1 (Build_shr_record m r s) = Build_shr_record (m / 2) (Z.odd m) (r || s).
Proof.
  intros Hm. rewrite <- Z.div2_div.
  destruct m as [|[p|p|]|p]; try lia; reflexivity.
Qed.

Lemma iter_shr_1_m n m r s :
  0 <= m ->
  shr_m (Nat.iter n shr_1 (Build_shr_record m r s)) = m / 2 ^ Z.of_nat n.
Proof.
  revert m r s. induction n as [|n IH]; intros m r s Hm.
  - cbn. now rewrite Z.div_1_r.
  - rewrite Nat.iter_succ_r, shr_1_nonneg by exact Hm.
    rewrite IH by (apply Z.div_pos; lia).
    rewrite Nat2Z.inj_succ, Z.pow_succ_r by lia.
    rewrite Z.div_div by lia. reflexivity.
Qed.

Lemma iter_shr_1_exact n m :
  0 <= m -> m mod 2 ^ Z.of_nat n = 0 ->
  Nat.iter n shr_1 (Build_shr_record m false false)
  = Build_shr_record (m / 2 ^ Z.of_nat n) false false.
Proof.
  revert m. induction n as [|n IH]; intros m Hm Hmod.
  - cbn. now rewrite Z.div_1_r.
  - rewrite Nat2Z.inj_succ, Z.pow_succ_r in Hmod |- * by lia.
    assert (Hp : 0 < 2 ^ Z.of_nat n) by (apply Z.pow_pos_nonneg; lia).
    assert (Hm2 : m mod 2 = 0).
    { rewrite Z.rem_mul_r in Hmod by lia. pose proof (Z.mod_pos_bound m 2).
      pose proof (Z.mod_pos_bound (m / 2) (2 ^ Z.of_nat n)). nia. }
    assert (Hmn : (m / 2) mod 2 ^ Z.of_nat n = 0).
    { rewrite Z.rem_mul_r in Hmod by lia. pose proof (Z.mod_pos_bound m 2).
      pose proof (Z.mod_pos_bound (m / 2) (2 ^ Z.of_nat n)). nia. }
    rewrite Nat.iter_succ_r, shr_1_nonneg by exact Hm.
    replace (Z.odd m) with false
      by (symmetry; rewrite <- Z.negb_even, negb_false_iff, Zeven_mod;
          apply Z.eqb_eq; exact Hm2).
    cbn [orb]. rewrite IH by (try apply Z.div_pos; lia).
    rewrite Z.div_div by lia. reflexivity.
Qed.

Lemma shr_spec m e l k :
  0 <= m -> 0 <= k ->
  exists mrs,
    shr (shr_record_of_loc m l) e k = (mrs, e + k) /\
    shr_m mrs = m / 2 ^ k /\
    (l = loc_Exact -> m mod 2 ^ k = 0 -> loc_of_shr_record mrs = loc_Exact).
Proof.
  intros Hm Hk. destruct k as [|p|p]; [| |lia].
  - exists (shr_record_of_loc m l). cbn [shr]. rewrite Z.add_0_r.
    split; [reflexivity|]. split.
    + rewrite Z.div_1_r. destruct l as [|[]]; reflexivity.
    + intros ->. reflexivity.
  - exists (iter_pos shr_1 p (shr_record_of_loc m l)). cbn [shr].
    split; [reflexivity|]. rewrite iter_pos_nat.
    replace (Zpos p) with (Z.of_nat (Pos.to_nat p)) by lia. split.
    + destruct l as [|[]]; apply iter_shr_1_m; exact Hm.
    + intros -> Hmod. cbn [shr_record_of_loc].
      rewrite iter_shr_1_exact by assumption. reflexivity.
Qed.

Lemma round_nearest_even_bounds m l :
  m <= round_nearest_even m l <= m + 1 /\
  (l = loc_Exact -> round_nearest_even m l = m).
Proof.
  split; [|intros ->; reflexivity].
  destruct l as [|[]]; cbn [round_nearest_even]; try lia.
  destruct (Z.even m); lia.
Qed.

(** ** Rounding never passes a representable upper bound *)

Lemma binary_round_aux_upper mx ex lx z :
  0 <= mx ->
  ex <= fexp prec emax (Zdigits2 mx + ex) ->
  (F2R mx ex <= F2R z (fexp prec emax (Zdigits2 mx + ex)))%R ->
  (lx <> loc_Exact -> (F2R mx ex < F2R z (fexp prec emax (Zdigits2 mx + ex)))%R) ->
  let r := binary_round_aux prec emax false mx ex lx in
  let bound := F2R z (fexp prec emax (Zdigits2 mx + ex)) in
  r = S754_zero false \/
  (exists m e, r = S754_finite false m e /\ (F2R (Zpos m) e <= bound)%R) \/
  (r = S754_infinity false /\ (powerRZ 2 1024 <= bound)%R).
Proof.
  intros Hmx. set (e1 := fexp prec emax (Zdigits2 mx + ex)).
  intros He Hle Hlt r bound. subst r.
  unfold binary_round_aux, shr_fexp. fold e1.
  destruct (shr_spec mx ex lx (e1 - ex) Hmx ltac:(lia)) as (mrs1 & E1 & Hm1 & Hx1).
  rewrite E1. replace (ex + (e1 - ex)) with e1 by lia.
  set (m1 := shr_m mrs1) in *. set (l1 := loc_of_shr_record mrs1) in *.
  assert (Hp : 0 < 2 ^ (e1 - ex)) by (apply Z.pow_pos_nonneg; lia).
  assert (Hm1nn : 0 <= m1) by (rewrite Hm1; apply Z.div_pos; lia).
  (* the bound, at the exponent of the input *)
  rewrite (F2R_align z e1 ex) in Hle, Hlt by lia.
  apply F2R_le in Hle.
  assert (Hlt' : lx <> loc_Exact -> mx < z * 2 ^ (e1 - ex))
    by (intros H; apply (F2R_lt _ _ ex); auto).
  assert (Hm1z : m1 <= z).
  { rewrite Hm1. apply Z.lt_succ_r. apply Z.div_lt_upper_bound; lia. }
  assert (Hm1z' : l1 <> loc_Exact -> m1 < z).
  { intros Hl1. rewrite Hm1. apply Z.div_lt_upper_bound; [lia|].
    destruct (Z.eq_dec (mx mod 2 ^ (e1 - ex)) 0) as [Hmod|Hmod].
    - destruct lx as [|c]; [now elim Hl1; apply Hx1|].
      rewrite Z.mul_comm. apply Hlt'. discriminate.
    - assert (mx <> z * 2 ^ (e1 - ex))
        by (intros E; apply Hmod; rewrite E; apply Z.mod_mul; lia).
      lia. }
  destruct (round_nearest_even_bounds m1 l1) as [Hr Hrx].
  set (m2 := round_nearest_even m1 l1) in *.
  assert (Hm2z : m2 <= z).
  { clearbody m2 l1. destruct l1 as [|c]; [rewrite Hrx by reflexivity; lia|].
    assert (m1 < z) by (apply Hm1z'; discriminate). lia. }
  assert (Hm2nn : 0 <= m2) by lia.
  (* the second shift renormalises after a carry *)
  set (k2 := fexp prec emax (Zdigits2 m2 + e1) - e1).
  assert (E2 : exists mrs2 e3,
             shr (shr_record_of_loc m2 loc_Exact) e1 k2 = (mrs2, e3) /\
             0 <= shr_m mrs2 /\ (F2R (shr_m mrs2) e3 <= F2R m2 e1)%R /\
             e3 = Z.max e1 (e1 + k2)).
  { clearbody k2. destruct (Z.leb_spec 0 k2) as [Hk2|Hk2].
    - destruct (shr_spec m2 e1 loc_Exact k2 Hm2nn Hk2) as (mrs2 & E & Hm & _).
      exists mrs2, (e1 + k2). split; [exact E|].
      assert (0 < 2 ^ k2) by (apply Z.pow_pos_nonneg; lia).
      split; [rewrite Hm; apply Z.div_pos; lia|]. split; [|lia].
      rewrite (F2R_align (shr_m mrs2) (e1 + k2) e1) by lia.
      apply F2R_le. replace (e1 + k2 - e1) with k2 by lia. rewrite Hm.
      rewrite Z.mul_comm. apply Z.mul_div_le. lia.
    - exists (shr_record_of_loc m2 loc_Exact), e1.
      destruct k2; try lia. split; [reflexivity|]. cbn.
      split; [lia|]. split; [lra|lia]. }
  destruct E2 as (mrs2 & e3 & E2 & Hm3nn & Hm3 & He3max).
  rewrite E2.
  assert (Hb : (F2R m2 e1 <= F2R z e1)%R) by (now apply F2R_le).
  destruct (shr_m mrs2) as [|m3|m3] eqn:Em3; [now left| |lia].
  right. destruct (Z.leb_spec e3 (emax - prec)) as [He3|He3].
  - left. exists m3, e3. split; [reflexivity|]. unfold bound. lra.
  - right. split; [reflexivity|]. unfold bound.
    change (emax - prec) with 971 in He3.
    assert (Hm2pos : 0 < m2).
    { destruct (Z.eq_dec m2 0) as [E0|]; [|lia]. rewrite E0, F2R_0 in Hm3.
      assert (0 < F2R (Zpos m3) e3)%R; [|lra]. unfold F2R.
      pose proof (pow2_pos e3).
      assert (0 < IZR (Zpos m3))%R by (apply IZR_lt; lia). nra. }
    destruct (Z.leb_spec e1 971) as [He1|He1].
    + (* the carry of the rounding overflows *)
      assert (1025 <= Zdigits2 m2 + e1)
        by (unfold k2 in He3max; rewrite fexp64 in He3max; lia).
      pose proof (F2R_digits_lower m2 e1 Hm2pos).
      pose proof (pow2_le 1024 (Zdigits2 m2 - 1 + e1) ltac:(lia)). lra.
    + (* the input was already too large *)
      assert (Hd : 1025 <= Zdigits2 mx + ex)
        by (unfold e1 in He1; rewrite fexp64 in He1; lia).
      assert (Hmxpos : 0 < mx).
      { destruct (Z.eq_dec mx 0) as [E0|]; [|lia]. exfalso.
        unfold e1 in He. rewrite E0 in He, Hd. cbn [Zdigits2] in He, Hd.
        rewrite fexp64 in He. lia. }
      pose proof (F2R_digits_lower mx ex Hmxpos).
      pose proof (pow2_le 1024 (Zdigits2 mx - 1 + ex) ltac:(lia)).
      assert (F2R mx ex <= F2R z e1)%R; [|lra].
      rewrite (F2R_align z e1 ex) by lia. now apply F2R_le.
Qed.

(** The same against a positive finite binary64 bound. *)
Lemma binary_round_aux_le mx ex lx mB eB :
  0 <= mx ->
  ex <= fexp prec emax (Zdigits2 mx + ex) ->
  bounded prec emax mB eB = true ->
  (F2R mx ex <= F2R (Zpos mB) eB)%R ->
  (lx <> loc_Exact -> (F2R mx ex < F2R (Zpos mB) eB)%R) ->
  let r := binary_round_aux prec emax false mx ex lx in
  r = S754_zero false \/
  (exists m e, r = S754_finite false m e /\ (F2R (Zpos m) e <= F2R (Zpos mB) eB)%R).
Proof.
  intros Hmx He HB Hle Hlt r.
  pose proof (bounded_inv mB eB HB) as (HcB & HdB & HeB & _).
  set (e1 := fexp prec emax (Zdigits2 mx + ex)) in *.
  assert (He1 : e1 <= eB).
  { destruct (Z.eq_dec mx 0) as [E0|Hne].
    - unfold e1 in *. rewrite E0 in *. cbn [Zdigits2] in *.
      rewrite fexp64 in *. lia.
    - rewrite <- HcB. apply fexp64_mono.
      apply (F2R_le_digits mx ex (Zpos mB) eB); [lia|lia|exact Hle]. }
  rewrite (F2R_align (Zpos mB) eB e1) in Hle, Hlt |- * by exact He1.
  destruct (binary_round_aux_upper mx ex lx (Zpos mB * 2 ^ (eB - e1)) Hmx He Hle Hlt)
    as [H|[H|[_ H]]]; [now left|now right|exfalso].
  fold e1 in H. rewrite <- (F2R_align (Zpos mB) eB e1) in H by exact He1.
  pose proof (F2R_digits_upper (Zpos mB) eB ltac:(lia)) as Hu. cbn [Zdigits2] in Hu.
  pose proof (pow2_le (Zpos (digits2_pos mB) + eB) 1024 ltac:(lia)). lra.
Qed.

(** A value already in canonical form is not changed. *)
Lemma binary_round_aux_canonical m e :
  bounded prec emax m e = true ->
  binary_round_aux prec emax false (Zpos m) e loc_Exact = S754_finite false m e.
Proof.
  intros Hb. pose proof (bounded_inv m e Hb) as (Hc & _ & He & _).
  unfold binary_round_aux, shr_fexp. cbn [Zdigits2]. rewrite Hc, Z.sub_diag.
  cbn [shr shr_record_of_loc shr_m loc_of_shr_record round_nearest_even Zdigits2].
  rewrite Hc, Z.sub_diag. cbn [shr shr_m].
  change (emax - prec) with 971. destruct (Z.leb_spec e 971); [reflexivity|lia].
Qed.

(** ** Shifting left *)

Lemma iter_xO m d : Zpos (Pos.iter xO m d) = Zpos m * 2 ^ Zpos d.
Proof.
  induction d as [|d IH] using Pos.peano_ind.
  - cbn. lia.
  - rewrite Pos.iter_succ, Pos2Z.inj_xO, IH, Pos2Z.inj_succ, Z.pow_succ_r by lia.
    lia.
Qed.

Lemma shl_align_spec m e e' :
  exists m2 e2, shl_align m e e' = (m2, e2) /\
    e2 = Z.min e e' /\ Zpos m2 = Zpos m * 2 ^ (e - e2).
Proof.
  unfold shl_align. destruct (e' - e) as [|d|d] eqn:E.
  - exists m, e. split; [reflexivity|]. split; [lia|].
    rewrite Z.sub_diag. cbn. lia.
  - exists m, e. split; [reflexivity|]. split; [lia|].
    rewrite Z.sub_diag. cbn. lia.
  - exists (Pos.iter xO m d), e'. split; [reflexivity|]. split; [lia|].
    rewrite iter_xO. f_equal. f_equal. lia.
Qed.

Lemma Zdigits2_shift m k : 0 < m -> 0 <= k -> Zdigits2 (m * 2 ^ k) = Zdigits2 m + k.
Proof.
  intros Hm Hk. pose proof (Zdigits2_bounds m Hm) as [Hlo Hhi].
  assert (0 < Zdigits2 m) by (destruct m; cbn in *; lia).
  assert (0 < 2 ^ k) by (apply Z.pow_pos_nonneg; lia).
  apply Zdigits2_unique; [nia|].
  replace (Zdigits2 m + k - 1) with (Zdigits2 m - 1 + k) by lia.
  rewrite !Z.pow_add_r by lia. nia.
Qed.

(** Rounding a positive integer mantissa at exponent [e]
    ([binary_round], hence [binary_normalize]). *)
Lemma binary_round_le m e mB eB :
  bounded prec emax mB eB = true ->
  (F2R (Zpos m) e <= F2R (Zpos mB) eB)%R ->
  let r := binary_round prec emax false m e in
  r = S754_zero false \/
  (exists m' e', r = S754_finite false m' e' /\ (F2R (Zpos m') e' <= F2R (Zpos mB) eB)%R).
Proof.
  intros HB Hle r. subst r. unfold binary_round.
  destruct (shl_align_spec m e (fexp prec emax (Zpos (digits2_pos m) + e)))
    as (mz & ez & -> & Hez & Hmz).
  assert (Hval : F2R (Zpos mz) ez = F2R (Zpos m) e).
  { rewrite Hmz. rewrite (F2R_align (Zpos m) e ez) by lia. reflexivity. }
  apply binary_round_aux_le; try assumption; try lia.
  - rewrite Hmz, Zdigits2_shift by lia. cbn [Zdigits2].
    replace (Zpos (digits2_pos m) + (e - ez) + ez) with (Zpos (digits2_pos m) + e) by lia.
    lia.
  - now rewrite Hval.
  - intros H. now elim H.
Qed.

(** ** Division *)

Lemma new_location_exact n k :
  new_location n k = loc_Exact <-> k = 0.
Proof.
  unfold new_location, new_location_even, new_location_odd.
  destruct (Z.even n); destruct (Z.eqb_spec k 0); split; intros H;
    try reflexivity; try assumption; try discriminate; contradiction.
Qed.

Lemma SFdiv_core_spec m1 e1 m2 e2 :
  Zpos (digits2_pos m1) <= 53 -> Zpos (digits2_pos m2) <= 53 ->
  exists q e' l,
    SFdiv_core_binary prec emax (Zpos m1) e1 (Zpos m2) e2 = (q, e', l) /\
    0 <= q /\
    e' <= fexp prec emax (Zdigits2 q + e') /\
    (F2R q e' * F2R (Zpos m2) e2 <= F2R (Zpos m1) e1)%R /\
    (l <> loc_Exact -> (F2R q e' * F2R (Zpos m2) e2 < F2R (Zpos m1) e1)%R) /\
    (l = loc_Exact -> (F2R q e' * F2R (Zpos m2) e2 = F2R (Zpos m1) e1)%R).
Proof.
  intros Hd1 Hd2. unfold SFdiv_core_binary. cbn [Zdigits2].
  set (d1 := Zpos (digits2_pos m1)) in *. set (d2 := Zpos (digits2_pos m2)) in *.
  set (e' := Z.min (fexp prec emax (d1 + e1 - (d2 + e2))) (e1 - e2)).
  set (s := e1 - e2 - e').
  assert (Hs : 0 <= s) by (unfold s, e'; lia).
  set (m' := match s with Zpos _ => Z.shiftl (Zpos m1) s | 0 => Zpos m1 | Zneg _ => 0 end).
  assert (Hm' : m' = Zpos m1 * 2 ^ s).
  { unfold m'. destruct s as [|p|p] eqn:Es; [cbn; lia| |lia].
    apply Z.shiftl_mul_pow2. lia. }
  pose proof (Z_div_mod m' (Zpos m2) ltac:(lia)) as Hdm.
  destruct (Z.div_eucl m' (Zpos m2)) as [q r] eqn:Edm.
  destruct Hdm as [Hq Hr].
  assert (Hp : 0 < 2 ^ s) by (apply Z.pow_pos_nonneg; lia).
  assert (Hqnn : 0 <= q) by nia.
  exists q, e', (new_location (Zpos m2) r).
  split; [reflexivity|]. split; [exact Hqnn|].
  assert (Hprod : (F2R q e' * F2R (Zpos m2) e2 = F2R (q * Zpos m2) (e' + e2))%R).
  { unfold F2R. rewrite mult_IZR, pow2_add. ring. }
  assert (Hnum : F2R (Zpos m1) e1 = F2R m' (e' + e2)).
  { rewrite Hm'. rewrite (F2R_align (Zpos m1) e1 (e' + e2)) by lia.
    do 3 f_equal. unfold s. lia. }
  rewrite Hprod, Hnum. split; [|split; [|split]].
  - (* enough digits for the rounding *)
    rewrite fexp64.
    destruct (Z.leb_spec e' (-1074)) as [Hlow|Hhigh]; [lia|].
    pose proof (digits2_pos_bounds m1) as [Hlo1 _]. fold d1 in Hlo1.
    pose proof (digits2_pos_bounds m2) as [_ Hhi2]. fold d2 in Hhi2.
    assert (0 < d1) by (unfold d1; lia). assert (0 < d2) by (unfold d2; lia).
    assert (Hs' : s = 53 + d2 - d1)
      by (unfold s, e' in *; rewrite fexp64 in *; lia).
    assert (Hq52 : 2 ^ 52 <= q).
    { assert (Zpos m2 * 2 ^ 52 <= m').
      { rewrite Hm', Hs'.
        assert (HA : 2 ^ (d1 - 1) * 2 ^ (53 + d2 - d1) = 2 ^ d2 * 2 ^ 52).
        { rewrite <- !Z.pow_add_r by lia. f_equal. lia. }
        assert (0 < 2 ^ (53 + d2 - d1)) by (apply Z.pow_pos_nonneg; lia).
        change (2 ^ 52) with 4503599627370496 in *.
        generalize dependent (2 ^ (53 + d2 - d1)).
        generalize dependent (2 ^ (d1 - 1)). generalize dependent (2 ^ d2).
        intros. nia. }
      assert (0 < 2 ^ 52) by (cbn; lia).
      destruct (Z.leb_spec (2 ^ 52) q); [assumption|]. nia. }
    pose proof (Zdigits2_mono (2 ^ 52) q ltac:(cbn; lia) Hq52) as Hd.
    change (Zdigits2 (2 ^ 52)) with 53 in Hd. lia.
  - apply F2R_le. lia.
  - intros Hl. apply F2R_lt.
    assert (r <> 0) by (intros ->; apply Hl; now apply new_location_exact).
    lia.
  - intros Hl. apply new_location_exact in Hl. subst r. f_equal. lia.
Qed.

Lemma F2R_pos m e : 0 < m -> (0 < F2R m e)%R.
Proof.
  intros H. unfold F2R. pose proof (pow2_pos e).
  assert (0 < IZR m)%R by (now apply IZR_lt). nra.
Qed.

Lemma SFdiv_le mx ex my ey mB eB :
  bounded prec emax mx ex = true -> bounded prec emax my ey = true ->
  bounded prec emax mB eB = true ->
  (F2R (Zpos mx) ex <= F2R (Zpos mB) eB * F2R (Zpos my) ey)%R ->
  let r := SFdiv prec emax (S754_finite false mx ex) (S754_finite false my ey) in
  r = S754_zero false \/
  (exists m e, r = S754_finite false m e /\ (F2R (Zpos m) e <= F2R (Zpos mB) eB)%R).
Proof.
  intros Hx Hy HB Hle r. subst r. cbn [SFdiv xorb].
  pose proof (bounded_inv mx ex Hx) as (_ & Hdx & _).
  pose proof (bounded_inv my ey Hy) as (_ & Hdy & _).
  destruct (SFdiv_core_spec mx ex my ey Hdx Hdy)
    as (q & e' & l & -> & Hq & He' & Hv & Hvs & _).
  pose proof (F2R_pos (Zpos my) ey ltac:(lia)) as HY.
  apply binary_round_aux_le; try assumption.
  - apply Rmult_le_reg_r with (F2R (Zpos my) ey); [exact HY|lra].
  - intros Hl. specialize (Hvs Hl).
    apply Rmult_lt_reg_r with (F2R (Zpos my) ey); [exact HY|lra].
Qed.

Lemma SFdiv_self m e :
  bounded prec emax m e = true ->
  SFdiv prec emax (S754_finite false m e) (S754_finite false m e)
  = S754_finite false 4503599627370496 (-52).
Proof.
  intros _. cbn [SFdiv xorb]. unfold SFdiv_core_binary.
  replace (Zdigits2 (Zpos m) + e - (Zdigits2 (Zpos m) + e)) with 0 by lia.
  rewrite Z.sub_diag. change (Z.min (fexp prec emax 0) 0) with (-53).
  change (0 - -53) with 53. cbv iota beta.
  rewrite Z.shiftl_mul_pow2 by lia.
  assert (Hq : (Zpos m * 2 ^ 53) / Zpos m = 2 ^ 53)
    by (rewrite Z.mul_comm; apply Z.div_mul; lia).
  assert (Hr : (Zpos m * 2 ^ 53) mod Zpos m = 0)
    by (rewrite Z.mul_comm; apply Z.mod_mul; lia).
  unfold Z.div, Z.modulo in Hq, Hr.
  destruct (Z.div_eucl (Zpos m * 2 ^ 53) (Zpos m)) as [q r]. subst q r.
  assert (El : new_location (Zpos m) 0 = loc_Exact) by now apply new_location_exact.
  rewrite El. reflexivity.
Qed.

(** ** Addition *)

Lemma SFadd_le x y mB eB :
  nonnegF x -> nonnegF y -> bounded prec emax mB eB = true ->
  (SF2R x + SF2R y <= F2R (Zpos mB) eB)%R ->
  let r := SFadd prec emax x y in
  (exists s, r = S754_zero s) \/
  (exists m e, r = S754_finite false m e /\ (F2R (Zpos m) e <= F2R (Zpos mB) eB)%R).
Proof.
  intros [sx|mx ex Hx] [sy|my ey Hy] HB Hle r; subst r; cbn [SFadd SF2R cond_Zopp] in *.
  - left. destruct sx, sy; eauto.
  - right. exists my, ey. split; [reflexivity|lra].
  - right. exists mx, ex. split; [reflexivity|lra].
  - set (ez := Z.min ex ey).
    destruct (shl_align_spec mx ex ez) as (ax & e2x & -> & Hex & Hax).
    destruct (shl_align_spec my ey ez) as (ay & e2y & -> & Hey & Hay).
    cbn [fst binary_normalize Z.add].
    destruct (binary_round_le (ax + ay) ez mB eB HB) as [H|H].
    + rewrite Pos2Z.inj_add. unfold F2R. rewrite plus_IZR, Rmult_plus_distr_r.
      fold (F2R (Zpos ax) ez) (F2R (Zpos ay) ez).
      rewrite Hax, Hay.
      replace e2x with ez in * by (unfold ez in *; lia).
      replace e2y with ez in * by (unfold ez in *; lia).
      rewrite <- (F2R_align (Zpos mx) ex ez), <- (F2R_align (Zpos my) ey ez)
        by (unfold ez; lia).
      exact Hle.
    + left. eauto.
    + right. exact H.
Qed.

(** ** Integers below 2^53 *)

Definition Z2SF (z : Z) : spec_float := binary_normalize prec emax z 0 false.

Lemma Z2SF_pos n :
  0 < n < 2 ^ 53 ->
  exists m e, Z2SF n = S754_finite false m e /\
              bounded prec emax m e = true /\ F2R (Zpos m) e = IZR n.
Proof.
  intros [Hn Hhi]. destruct n as [|p|p]; try lia.
  unfold Z2SF. cbn [binary_normalize]. unfold binary_round.
  pose proof (digits2_pos_bounds p) as [Hlo _].
  set (d := Zpos (digits2_pos p)) in *.
  assert (Hd : 0 < d <= 53).
  { split; [unfold d; lia|].
    destruct (Z.leb_spec d 53); [assumption|].
    assert (2 ^ 53 <= 2 ^ (d - 1)) by (apply Z.pow_le_mono_r; lia). lia. }
  destruct (shl_align_spec p 0 (fexp prec emax (d + 0))) as (mz & ez & -> & Hez & Hmz).
  rewrite fexp64 in Hez.
  assert (Hb : bounded prec emax mz ez = true).
  { unfold bounded, canonical_mantissa.
    pose proof (Zdigits2_shift (Zpos p) (0 - ez) ltac:(lia) ltac:(lia)) as Hds.
    rewrite <- Hmz in Hds. cbn [Zdigits2] in Hds. rewrite Hds. fold d.
    rewrite fexp64. change (emax - prec) with 971.
    apply andb_true_iff. split; [apply Z.eqb_eq|apply Z.leb_le]; lia. }
  exists mz, ez. split; [now apply binary_round_aux_canonical|].
  split; [exact Hb|].
  rewrite Hmz. rewrite <- (F2R_align (Zpos p) 0 ez) by lia.
  unfold F2R. cbn. lra.
Qed.

(** ** Primitive floats *)

Definition FR (x : float) : R := SF2R (Prim2SF x).

(** Zero (of either sign) or positive and finite. *)
Definition Fnonneg (x : float) : Prop := nonnegF (Prim2SF x).

(** Positive and finite. *)
Definition Fpos (x : float) : Prop :=
  exists m e, Prim2SF x = S754_finite false m e.

Lemma Prim2SF_bounded x s m e :
  Prim2SF x = S754_finite s m e -> bounded prec emax m e = true.
Proof.
  intros H. pose proof (Prim2SF_valid x) as Hv. now rewrite H in Hv.
Qed.

Lemma Fpos_nonneg x : Fpos x -> Fnonneg x.
Proof.
  intros (m & e & H). unfold Fnonneg. rewrite H. constructor.
  eapply Prim2SF_bounded; eassumption.
Qed.

Lemma Fpos_FR x : Fpos x -> (0 < FR x)%R.
Proof.
  intros (m & e & H). unfold FR. rewrite H. cbn. apply F2R_pos. lia.
Qed.

Lemma Fnonneg_FR x : Fnonneg x -> (0 <= FR x)%R.
Proof. apply SF2R_nonneg. Qed.

Lemma F_leb x y :
  Fnonneg x -> Fnonneg y -> ((x <=? y)%float = true <-> (FR x <= FR y)%R).
Proof. intros Hx Hy. rewrite leb_spec. now apply SFleb_nonneg. Qed.

Lemma F_ltb x y :
  Fnonneg x -> Fnonneg y -> ((x <? y)%float = true <-> (FR x < FR y)%R).
Proof. intros Hx Hy. rewrite ltb_spec. now apply SFltb_nonneg. Qed.

Lemma F_ltb_pos x : (0 <? x)%float = true -> Fpos x \/ Prim2SF x = S754_infinity false.
Proof.
  rewrite ltb_spec. change (Prim2SF 0) with (S754_zero false).
  unfold SFltb. destruct (Prim2SF x) as [s|[]| |[] m e] eqn:E; cbn; try discriminate.
  - now right.
  - intros _. left. now exists m, e.
Qed.

(** 0 / y = 0 for a positive y. *)
Lemma F_zero_div y : (0 <? y)%float = true -> (0 / y)%float = 0%float.
Proof.
  intros H. apply Prim2SF_inj. rewrite div_spec.
  change (Prim2SF 0) with (S754_zero false).
  destruct (F_ltb_pos y H) as [(m & e & ->)| ->]; reflexivity.
Qed.

(** x / x = 1 for a positive finite x. *)
Lemma F_div_self x : Fpos x -> (x / x)%float = 1%float.
Proof.
  intros (m & e & H). apply Prim2SF_inj. rewrite div_spec, H.
  unfold SF64div. rewrite SFdiv_self by (eapply Prim2SF_bounded; eassumption).
  reflexivity.
Qed.

(** A quotient does not exceed a float that bounds the exact quotient. *)
Lemma F_div_le x y b :
  Fnonneg x -> Fpos y -> Fpos b -> (FR x <= FR b * FR y)%R ->
  Fnonneg (x / y) /\ (FR (x / y) <= FR b)%R.
Proof.
  intros Hx (my & ey & Hy) (mB & eB & HB) Hle.
  pose proof (Prim2SF_bounded _ _ _ _ Hy) as Hyb.
  pose proof (Prim2SF_bounded _ _ _ _ HB) as HBb.
  unfold Fnonneg, FR in *. rewrite div_spec. rewrite Hy, HB in *.
  unfold SF64div. cbn [SF2R cond_Zopp] in *.
  pose proof (F2R_pos (Zpos mB) eB ltac:(lia)) as HBpos.
  assert (Hshape : forall r,
            r = S754_zero false \/
            (exists m e, r = S754_finite false m e /\
                         (F2R (Zpos m) e <= F2R (Zpos mB) eB)%R) ->
            valid_binary r = true ->
            nonnegF r /\ (SF2R r <= F2R (Zpos mB) eB)%R).
  { intros r [->|(m & e & -> & Hm)] Hv; cbn [SF2R cond_Zopp].
    - split; [constructor|lra].
    - split; [now constructor|exact Hm]. }
  assert (Hvalid : valid_binary (SFdiv prec emax (Prim2SF x) (S754_finite false my ey)) = true).
  { rewrite <- Hy. change (SFdiv prec emax) with SF64div. rewrite <- div_spec.
    apply Prim2SF_valid. }
  inversion Hx as [s Hs|mx ex Hxb Hs]; rewrite <- Hs in *.
  - cbn [SFdiv]. split; [constructor|]. cbn. lra.
  - apply Hshape; [|exact Hvalid]. apply SFdiv_le; assumption.
Qed.

(** A sum does not exceed a float that bounds the exact sum. *)
Lemma F_add_le x y b :
  Fnonneg x -> Fnonneg y -> Fpos b -> (FR x + FR y <= FR b)%R ->
  Fnonneg (x + y) /\ (FR (x + y) <= FR b)%R.
Proof.
  intros Hx Hy (mB & eB & HB) Hle.
  pose proof (Prim2SF_bounded _ _ _ _ HB) as HBb.
  pose proof (Prim2SF_valid (x + y)) as Hv.
  unfold Fnonneg, FR in *. rewrite add_spec in *. rewrite HB in *.
  cbn [SF2R cond_Zopp] in *.
  pose proof (F2R_pos (Zpos mB) eB ltac:(lia)) as HBpos.
  destruct (SFadd_le _ _ mB eB Hx Hy HBb Hle) as [(s & E)|(m & e & E & Hm)];
    unfold SF64add in *; rewrite E in *; cbn [SF2R cond_Zopp].
  - split; [constructor|lra].
  - split; [now constructor|exact Hm].
Qed.

(** Integers below 2^53 are binary64 numbers. *)
Lemma Z2F_pos n :
  0 < n < 2 ^ 53 -> Fpos (JS.Z2F n) /\ FR (JS.Z2F n) = IZR n.
Proof.
  intros Hn. destruct (Z2SF_pos n Hn) as (m & e & E & Hb & Hv).
  assert (Prim2SF (JS.Z2F n) = S754_finite false m e).
  { unfold JS.Z2F. fold (Z2SF n). rewrite E. now apply Prim2SF_SF2Prim. }
  split; [now exists m, e|]. unfold FR. now rewrite H.
Qed.

Lemma Z2F_nonneg n :
  0 <= n < 2 ^ 53 -> Fnonneg (JS.Z2F n) /\ FR (JS.Z2F n) = IZR n.
Proof.
  intros Hn. destruct (Z.eq_dec n 0) as [->|Hne].
  - split; [|unfold FR; cbn; lra].
    unfold Fnonneg. change (Prim2SF (JS.Z2F 0)) with (S754_zero false). constructor.
  - destruct (Z2F_pos n ltac:(lia)) as [Hp Hv]. split; [now apply Fpos_nonneg|exact Hv].
Qed.

(** Constants. *)
Lemma F2R_neg m k : 0 <= k -> F2R m (- k) = (IZR m / IZR (2 ^ k))%R.
Proof.
  intros Hk. unfold F2R. rewrite powerRZ_neg', pow2_IZR by exact Hk. reflexivity.
Qed.

Ltac float_const :=
  match goal with
  | |- Fpos ?c =>
      let sf := eval vm_compute in (Prim2SF c) in
      match sf with
      | S754_finite false ?m ?e => exists m, e; vm_compute; reflexivity
      end
  end.

Lemma Fpos_1 : Fpos 1. Proof. float_const. Qed.
Lemma Fpos_3 : Fpos 3. Proof. float_const. Qed.
Lemma Fpos_255 : Fpos 255. Proof. float_const. Qed.
Lemma Fpos_half : Fpos 0.5. Proof. float_const. Qed.

Lemma FR_1 : FR 1 = 1%R.
Proof.
  change (FR 1) with (F2R 4503599627370496 (- (52))).
  rewrite F2R_neg by lia. change (2 ^ 52) with 4503599627370496. lra.
Qed.

Lemma FR_3 : FR 3 = 3%R.
Proof.
  change (FR 3) with (F2R 6755399441055744 (- (51))).
  rewrite F2R_neg by lia. change (2 ^ 51) with 2251799813685248. lra.
Qed.

Lemma FR_255 : FR 255 = 255%R.
Proof.
  change (FR 255) with (F2R 8972014882652160 (- (45))).
  rewrite F2R_neg by lia. change (2 ^ 45) with 35184372088832. lra.
Qed.

Lemma Fpos_85 : Fpos 85. Proof. float_const. Qed.
Lemma Fpos_170 : Fpos 170. Proof. float_const. Qed.
Lemma Fpos_07 : Fpos 0.7. Proof. float_const. Qed.

Lemma FR_0 : FR 0 = 0%R.
Proof. reflexivity. Qed.

Lemma Fnonneg_0 : Fnonneg 0.
Proof. unfold Fnonneg. change (Prim2SF 0) with (S754_zero false). constructor. Qed.

Lemma FR_85 : FR 85 = 85%R.
Proof.
  change (FR 85) with (F2R 5981343255101440 (- (46))).
  rewrite F2R_neg by lia. change (2 ^ 46) with 70368744177664. lra.
Qed.

Lemma FR_170 : FR 170 = 170%R.
Proof.
  change (FR 170) with (F2R 5981343255101440 (- (45))).
  rewrite F2R_neg by lia. change (2 ^ 45) with 35184372088832. lra.
Qed.

Lemma FR_07 : (1 / 2 < FR 0.7)%R.
Proof.
  change (FR 0.7) with (F2R 6305039478318694 (- (53))).
  rewrite F2R_neg by lia. change (2 ^ 53) with 9007199254740992. lra.
Qed.

Lemma FR_half : FR 0.5 = (1 / 2)%R.
Proof.
  change (FR 0.5) with (F2R 4503599627370496 (- (53))).
  rewrite F2R_neg by lia. change (2 ^ 53) with 9007199254740992. lra.
Qed.

(** ** Rounding on the grid of 2^-53 *)

Lemma SFdiv_le_grid mx ex my ey z :
  bounded prec emax mx ex = true -> bounded prec emax my ey = true ->
  (F2R (Zpos mx) ex < F2R (Zpos my) ey)%R ->
  z <= 2 ^ 53 ->
  (F2R (Zpos mx) ex <= F2R z (-53) * F2R (Zpos my) ey)%R ->
  let r := SFdiv prec emax (S754_finite false mx ex) (S754_finite false my ey) in
  r = S754_zero false \/
  (exists m e, r = S754_finite false m e /\ (F2R (Zpos m) e <= F2R z (-53))%R).
Proof.
  intros Hx Hy Hlt1 Hz Hle r. subst r. cbn [SFdiv xorb].
  pose proof (bounded_inv mx ex Hx) as (_ & Hdx & _).
  pose proof (bounded_inv my ey Hy) as (_ & Hdy & _).
  destruct (SFdiv_core_spec mx ex my ey Hdx Hdy)
    as (q & e' & l & -> & Hq & He' & Hv & Hvs & _).
  pose proof (F2R_pos (Zpos my) ey ltac:(lia)) as HY.
  set (e1 := fexp prec emax (Zdigits2 q + e')) in *.
  assert (Hq1 : (F2R q e' < 1)%R).
  { apply Rmult_lt_reg_r with (F2R (Zpos my) ey); [exact HY|lra]. }
  assert (He1 : e1 <= -53).
  { unfold e1 in *. rewrite fexp64 in *.
    destruct (Z.eq_dec q 0) as [E0|Hne].
    - rewrite E0 in *. cbn [Zdigits2] in *. lia.
    - pose proof (F2R_digits_lower q e' ltac:(lia)) as Hlo.
      assert (Hp : (powerRZ 2 (Zdigits2 q - 1 + e') < powerRZ 2 0)%R)
        by (change (powerRZ 2 0) with 1%R; lra).
      apply pow2_lt_inv in Hp. lia. }
  assert (Hzq : (F2R q e' <= F2R z (-53))%R).
  { apply Rmult_le_reg_r with (F2R (Zpos my) ey); [exact HY|lra]. }
  assert (Hzq' : l <> loc_Exact -> (F2R q e' < F2R z (-53))%R).
  { intros Hl. specialize (Hvs Hl).
    apply Rmult_lt_reg_r with (F2R (Zpos my) ey); [exact HY|lra]. }
  rewrite (F2R_align z (-53) e1) in Hzq, Hzq' |- * by exact He1.
  destruct (binary_round_aux_upper q e' l (z * 2 ^ (-53 - e1)) Hq He' Hzq Hzq')
    as [H|[H|[_ H]]]; [now left|now right|exfalso].
  fold e1 in H. rewrite <- (F2R_align z (-53) e1) in H by exact He1.
  assert (F2R z (-53) <= 1)%R.
  { replace (-53) with (- (53)) by lia. rewrite F2R_neg by lia.
    apply IZR_le in Hz.
    assert (0 < IZR (2 ^ 53))%R by (apply IZR_lt; cbn; lia).
    apply Rmult_le_reg_r with (IZR (2 ^ 53)); [assumption|].
    unfold Rdiv. rewrite Rmult_assoc, Rinv_l by lra. lra. }
  pose proof (pow2_le 1 1024 ltac:(lia)) as Hp1.
  change (powerRZ 2 1) with (2 * 1)%R in Hp1. lra.
Qed.

(** ** The round and sticky bits, exactly *)

Lemma iter_shr_1_bits n m :
  0 <= m ->
  let mrs := Nat.iter n shr_1 (Build_shr_record m false false) in
  shr_m mrs = m / 2 ^ Z.of_nat n /\
  (shr_r mrs || shr_s mrs = true -> m mod 2 ^ Z.of_nat n <> 0) /\
  (shr_r mrs = true -> shr_s mrs = true ->
   2 ^ (Z.of_nat n - 1) < m mod 2 ^ Z.of_nat n).
Proof.
  intros Hm. induction n as [|n IH].
  - cbn. rewrite Z.div_1_r. repeat split; discriminate.
  - cbv zeta in IH |- *. rewrite Nat.iter_succ.
    destruct (Nat.iter n shr_1 (Build_shr_record m false false)) as [m' r s].
    cbn [shr_m shr_r shr_s] in IH. destruct IH as (Hm' & Hrs & _).
    assert (Hm'nn : 0 <= m') by (rewrite Hm'; apply Z.div_pos; [lia|apply Z.pow_pos_nonneg; lia]).
    rewrite shr_1_nonneg by exact Hm'nn. cbn [shr_m shr_r shr_s].
    rewrite Nat2Z.inj_succ, Z.pow_succ_r by lia.
    replace (Z.succ (Z.of_nat n) - 1) with (Z.of_nat n) by lia.
    set (P := 2 ^ Z.of_nat n) in *.
    assert (HP : 0 < P) by (apply Z.pow_pos_nonneg; lia).
    assert (Hsplit : m mod (2 * P) = m mod P + P * (m' mod 2)).
    { rewrite (Z.mul_comm 2 P), Z.rem_mul_r, Hm' by lia. reflexivity. }
    pose proof (Z.mod_pos_bound m P HP) as HmP.
    pose proof (Z.mod_pos_bound m' 2 ltac:(lia)) as Hm2.
    assert (Hodd : Z.odd m' = true -> m' mod 2 = 1).
    { intros Ho. rewrite Zmod_odd, Ho. reflexivity. }
    split; [|split].
    + rewrite Hm', Z.div_div by lia. f_equal. lia.
    + intros H. apply orb_true_iff in H as [H|H].
      * apply Hodd in H. nia.
      * specialize (Hrs H). nia.
    + intros Ho Hs. apply Hodd in Ho. specialize (Hrs Hs). nia.
Qed.

(** A sum in (1, 1 + 2^-53] rounds to 1. *)
Lemma SFadd_near_one mx ex my ey :
  bounded prec emax mx ex = true -> bounded prec emax my ey = true ->
  (1 < F2R (Zpos mx) ex + F2R (Zpos my) ey)%R ->
  (F2R (Zpos mx) ex + F2R (Zpos my) ey <= 1 + F2R 1 (-53))%R ->
  SFadd prec emax (S754_finite false mx ex) (S754_finite false my ey)
  = S754_finite false 4503599627370496 (-52).
Proof.
  intros Hx Hy Hlo Hhi. cbn [SFadd cond_Zopp].
  set (ez := Z.min ex ey).
  destruct (shl_align_spec mx ex ez) as (ax & e2x & -> & Hex & Hax).
  destruct (shl_align_spec my ey ez) as (ay & e2y & -> & Hey & Hay).
  cbn [fst binary_normalize Z.add].
  replace e2x with ez in * by (unfold ez in *; lia).
  replace e2y with ez in * by (unfold ez in *; lia).
  set (M := (ax + ay)%positive).
  assert (HM : F2R (Zpos M) ez = (F2R (Zpos mx) ex + F2R (Zpos my) ey)%R).
  { unfold M. rewrite Pos2Z.inj_add. unfold F2R at 1.
    rewrite plus_IZR, Rmult_plus_distr_r.
    fold (F2R (Zpos ax) ez) (F2R (Zpos ay) ez). rewrite Hax, Hay.
    rewrite <- (F2R_align (Zpos mx) ex ez), <- (F2R_align (Zpos my) ey ez)
      by (unfold ez; lia).
    reflexivity. }
  rewrite <- HM in Hlo, Hhi. clearbody M. clear HM Hax Hay Hex Hey.
  (* the sum lies in the binade of 1 *)
  assert (Hdig : Zdigits2 (Zpos M) + ez = 1).
  { pose proof (F2R_digits_lower (Zpos M) ez ltac:(lia)) as H1.
    pose proof (F2R_digits_upper (Zpos M) ez ltac:(lia)) as H2.
    assert (Hhi2 : (F2R (Zpos M) ez < powerRZ 2 1)%R).
    { assert (F2R 1 (-53) < 1)%R.
      { replace (-53) with (- (53)) by lia. rewrite F2R_neg by lia.
        change (2 ^ 53) with 9007199254740992. lra. }
      change (powerRZ 2 1) with (2 * 1)%R. lra. }
    assert (A : (powerRZ 2 (Zdigits2 (Zpos M) - 1 + ez) < powerRZ 2 1)%R) by lra.
    assert (B : (powerRZ 2 0 < powerRZ 2 (Zdigits2 (Zpos M) + ez))%R)
      by (change (powerRZ 2 0) with 1%R; lra).
    apply pow2_lt_inv in A, B. lia. }
  (* and is finer than the grid of that binade *)
  assert (Hez : ez <= -53).
  { destruct (Z.leb_spec ez (-53)) as [|Hgt]; [assumption|exfalso].
    assert (E : F2R (Zpos M) ez = F2R (Zpos M * 2 ^ (ez + 52)) (-52)).
    { rewrite (F2R_align (Zpos M) ez (-52)) by lia. reflexivity. }
    assert (E1 : 1%R = F2R (2 ^ 52) (-52)).
    { replace (-52) with (- (52)) by lia. rewrite F2R_neg by lia.
      change (2 ^ 52) with 4503599627370496. lra. }
    assert (Hhi2 : (F2R (Zpos M) ez < F2R (2 ^ 52 + 1) (-52))%R).
    { assert (F2R (2 ^ 52 + 1) (-52) = 1 + F2R 2 (-53))%R.
      { replace (-52) with (- (52)) by lia. replace (-53) with (- (53)) by lia.
        rewrite !F2R_neg by lia.
        change (2 ^ 52) with 4503599627370496. change (2 ^ 53) with 9007199254740992.
        change (4503599627370496 + 1) with 4503599627370497. lra. }
      assert (F2R 1 (-53) < F2R 2 (-53))%R by (apply F2R_lt; lia).
      lra. }
    rewrite E in Hlo, Hhi2. rewrite E1 in Hlo.
    apply F2R_lt in Hlo, Hhi2.
    change (2 ^ 52) with 4503599627370496 in *. lia. }
  unfold binary_round, shl_align. cbn [Zdigits2] in Hdig. rewrite Hdig.
  change (fexp prec emax 1) with (-52).
  destruct (-52 - ez) as [|k|k] eqn:Ek; try lia.
  unfold binary_round_aux, shr_fexp. cbn [Zdigits2]. rewrite Hdig.
  change (fexp prec emax 1) with (-52). rewrite Ek.
  cbn [shr shr_record_of_loc]. rewrite iter_pos_nat.
  pose proof (iter_shr_1_bits (Pos.to_nat k) (Zpos M) ltac:(lia)) as Hbits.
  cbv zeta in Hbits.
  destruct (Nat.iter (Pos.to_nat k) shr_1 (Build_shr_record (Zpos M) false false))
    as [m1 r s].
  cbn [shr_m shr_r shr_s] in Hbits. destruct Hbits as (Hm1 & _ & Hrs).
  rewrite positive_nat_Z in Hm1, Hrs.
  assert (HP : 0 < 2 ^ Zpos k) by (apply Z.pow_pos_nonneg; lia).
  (* M = 2^52 * 2^k + rem with rem at most half of 2^k *)
  assert (Hlo' : 2 ^ 52 * 2 ^ Zpos k < Zpos M).
  { apply (F2R_lt _ _ ez).
    replace (2 ^ 52 * 2 ^ Zpos k) with (1 * 2 ^ (0 - ez))
      by (rewrite <- Z.pow_add_r by lia; rewrite Z.mul_1_l; f_equal; lia).
    rewrite <- (F2R_align 1 0 ez) by lia.
    change (F2R 1 0) with (1 * 1)%R. lra. }
  assert (Hhi' : 2 * Zpos M <= 2 ^ 53 * 2 ^ Zpos k + 2 ^ Zpos k).
  { apply (F2R_le _ _ (ez - 1)).
    replace (2 * Zpos M) with (Zpos M * 2 ^ (ez - (ez - 1)))
      by (replace (ez - (ez - 1)) with 1 by lia; lia).
    rewrite <- (F2R_align (Zpos M) ez (ez - 1)) by lia.
    assert (E : F2R (2 ^ 53 * 2 ^ Zpos k + 2 ^ Zpos k) (ez - 1)
                = (1 + F2R 1 (-53))%R).
    { unfold F2R at 1. rewrite plus_IZR, Rmult_plus_distr_r.
      fold (F2R (2 ^ 53 * 2 ^ Zpos k) (ez - 1)) (F2R (2 ^ Zpos k) (ez - 1)).
      replace (2 ^ 53 * 2 ^ Zpos k) with (1 * 2 ^ (0 - (ez - 1)))
        by (rewrite <- Z.pow_add_r by lia; rewrite Z.mul_1_l; f_equal; lia).
      rewrite <- (F2R_align 1 0 (ez - 1)) by lia.
      replace (2 ^ Zpos k) with (1 * 2 ^ (-53 - (ez - 1)))
        by (rewrite Z.mul_1_l; f_equal; lia).
      rewrite <- (F2R_align 1 (-53) (ez - 1)) by lia.
      change (F2R 1 0) with (1 * 1)%R. lra. }
    rewrite E. exact Hhi. }
  assert (Em1 : m1 = 2 ^ 52).
  { rewrite Hm1. symmetry. apply Z.div_unique with (Zpos M - 2 ^ 52 * 2 ^ Zpos k); [|lia].
    left. change (2 ^ 53) with (2 * 2 ^ 52) in Hhi'. nia. }
  assert (Hmod : Zpos M mod 2 ^ Zpos k = Zpos M - 2 ^ 52 * 2 ^ Zpos k).
  { symmetry. apply Z.mod_unique with (2 ^ 52); [|lia].
    left. change (2 ^ 53) with (2 * 2 ^ 52) in Hhi'. nia. }
  assert (Hnot : ~ (r = true /\ s = true)).
  { intros [Hr Hs]. specialize (Hrs Hr Hs). rewrite Hmod in Hrs.
    assert (E : 2 ^ Zpos k = 2 * 2 ^ (Zpos k - 1)).
    { rewrite <- Z.pow_succ_r by lia. f_equal. lia. }
    change (2 ^ 53) with (2 * 2 ^ 52) in Hhi'. nia. }
  clear Hm1. subst m1.
  assert (Hround : round_nearest_even (2 ^ 52)
                     (loc_of_shr_record (Build_shr_record (2 ^ 52) r s)) = 2 ^ 52).
  { destruct r, s; try reflexivity. elim Hnot. now split. }
  cbn [shr_m]. rewrite Hround.
  replace (ez + Zpos k) with (-52) by lia. reflexivity.
Qed.

Lemma F_div_le_grid x y z :
  Fnonneg x -> Fpos y -> (FR x < FR y)%R -> 0 <= z <= 2 ^ 53 ->
  (FR x <= F2R z (-53) * FR y)%R ->
  Fnonneg (x / y) /\ (FR (x / y) <= F2R z (-53))%R.
Proof.
  intros Hx (my & ey & Hy) Hlt Hz Hle.
  pose proof (Prim2SF_bounded _ _ _ _ Hy) as Hyb.
  pose proof (Prim2SF_valid (x / y)) as Hv.
  unfold Fnonneg, FR in *. rewrite div_spec in *. rewrite Hy in *.
  unfold SF64div in *. cbn [SF2R cond_Zopp] in *.
  assert (Hz0 : (0 <= F2R z (-53))%R)
    by (rewrite <- (F2R_0 (-53)); apply F2R_le; lia).
  inversion Hx as [s Hs|mx ex Hxb Hs]; rewrite <- Hs in *.
  - cbn [SFdiv]. split; [constructor|]. cbn. lra.
  - cbn [SF2R cond_Zopp] in *.
    destruct (SFdiv_le_grid mx ex my ey z Hxb Hyb Hlt ltac:(lia) Hle)
      as [E|(m & e & E & Hm)]; rewrite E in *; cbn [SF2R cond_Zopp].
    + split; [constructor|lra].
    + split; [now constructor|exact Hm].
Qed.

Lemma F_add_near_one x y :
  Fnonneg x -> Fnonneg y -> (FR x <= 1)%R -> (FR y <= 1)%R ->
  (FR x + FR y <= 1 + F2R 1 (-53))%R ->
  (x + y <=? 1)%float = true.
Proof.
  intros Hx Hy Hx1 Hy1 Hsum.
  destruct (Rle_or_lt (FR x + FR y) 1) as [Hle|Hgt].
  - destruct (F_add_le x y 1%float Hx Hy Fpos_1) as [Hn Hv];
      [now rewrite FR_1|].
    apply F_leb; [exact Hn|apply Fpos_nonneg, Fpos_1|exact Hv].
  - assert (E : (x + y)%float = 1%float).
    { apply Prim2SF_inj. rewrite add_spec. unfold FR, Fnonneg in *.
      inversion Hx as [sx Hsx|mx ex Hxb Hsx]; rewrite <- Hsx in *;
        inversion Hy as [sy Hsy|my ey Hyb Hsy]; rewrite <- Hsy in *;
        cbn [SF2R cond_Zopp] in *; try lra.
      unfold SF64add. now rewrite SFadd_near_one. }
    rewrite E. reflexivity.
Qed.

End Binary64.

(** * Properties *)

(** ** Loops as counts *)

Definition countIf {A} (f : A -> bool) (l : list A) : Z :=
  Z.of_nat (List.length (filter f l)).

Lemma countIf_nil {A} (f : A -> bool) : countIf f [] = 0.
Proof. reflexivity. Qed.

Lemma countIf_cons {A} (f : A -> bool) x l :
  countIf f (x :: l) = (if f x then 1 else 0) + countIf f l.
Proof.
  unfold countIf; simpl. destruct (f x); simpl List.length; lia.
Qed.

Lemma countIf_app {A} (f : A -> bool) l1 l2 :
  countIf f (l1 ++ l2) = countIf f l1 + countIf f l2.
Proof.
  unfold countIf. rewrite filter_app, length_app. lia.
Qed.

Lemma countIf_nonneg {A} (f : A -> bool) l : 0 <= countIf f l.
Proof. unfold countIf; lia. Qed.

Lemma countIf_andb_le {A} (f g : A -> bool) l :
  countIf (fun x => f x && g x) l <= countIf f l /\
  countIf (fun x => f x && g x) l <= countIf g l.
Proof.
  induction l as [|x l [IH1 IH2]]; [split; reflexivity|].
  rewrite !countIf_cons. cbv beta. set (c := countIf _ l) in *.
  destruct (f x), (g x); cbn [andb]; lia.
Qed.

Lemma countIf_map {A B} (h : A -> B) (f : B -> bool) l :
  countIf f (map h l) = countIf (fun x => f (h x)) l.
Proof.
  induction l as [|x l IH]; [reflexivity|].
  simpl map. rewrite !countIf_cons, IH. reflexivity.
Qed.

Lemma countIf_ext {A} (f g : A -> bool) l :
  (forall x, f x = g x) -> countIf f l = countIf g l.
Proof.
  intros H. induction l as [|x l IH]; [reflexivity|].
  rewrite !countIf_cons, IH, H. reflexivity.
Qed.

Lemma countIf_all {A} (f : A -> bool) l :
  (forall x, In x l -> f x = true) -> countIf f l = Z.of_nat (List.length l).
Proof.
  induction l as [|x l IH]; intros H; [reflexivity|].
  rewrite countIf_cons, IH by (intros; apply H; now right).
  rewrite (H x) by now left. simpl List.length. lia.
Qed.

Lemma countIf_none {A} (f : A -> bool) l :
  (forall x, In x l -> f x = false) -> countIf f l = 0.
Proof.
  induction l as [|x l IH]; intros H; [reflexivity|].
  rewrite countIf_cons, IH by (intros; apply H; now right).
  rewrite (H x) by now left. reflexivity.
Qed.

(** ** Ranges *)

Lemma range_length lo hi : Z.of_nat (List.length (range lo hi)) = Z.max 0 (hi - lo).
Proof. unfold range. rewrite length_map, length_seq. lia. Qed.

Lemma range_In lo hi v : In v (range lo hi) <-> lo <= v < hi.
Proof.
  unfold range. rewrite in_map_iff. split.
  - intros (i & <- & Hi). apply in_seq in Hi. lia.
  - intros H. exists (Z.to_nat (v - lo)). split; [lia|].
    apply in_seq. lia.
Qed.

Lemma range_NoDup lo hi : NoDup (range lo hi).
Proof.
  unfold range. apply Injective_map_NoDup; [|apply seq_NoDup].
  intros a b H. lia.
Qed.

Lemma range_one v : range v (v + 1) = [v].
Proof.
  unfold range. replace (v + 1 - v) with 1 by lia.
  simpl. f_equal. lia.
Qed.

(** ** The edge scan *)

(** The pixels the two nested loops visit, in visiting order. *)
Definition visited (lo width height : Z) : list (Z * Z) :=
  flat_map (fun y => map (fun x => (x, y)) (range lo width)) (range lo height).

Lemma visited_In lo width height x y :
  In (x, y) (visited lo width height) <-> lo <= x < width /\ lo <= y < height.
Proof.
  unfold visited. rewrite in_flat_map. split.
  - intros (y' & Hy & Hx). apply in_map_iff in Hx as (x' & E & Hx).
    inversion E; subst. apply range_In in Hy, Hx. lia.
  - intros [Hx Hy]. exists y. split; [now apply range_In|].
    apply in_map_iff. exists x. split; [reflexivity|now apply range_In].
Qed.

Lemma visited_NoDup lo width height : NoDup (visited lo width height).
Proof.
  unfold visited.
  pose proof (range_NoDup lo height) as Hn.
  induction (range lo height) as [|y ys IH]; simpl; [constructor|].
  inversion Hn as [|? ? Hy Hys]; subst.
  apply NoDup_app; [| now apply IH |].
  - apply Injective_map_NoDup; [|apply range_NoDup].
    intros a b E. now inversion E.
  - intros [x y'] Hin Hin'.
    apply in_map_iff in Hin as (x' & E & _). inversion E; subst.
    apply in_flat_map in Hin' as (y2 & Hy2 & Hin').
    apply in_map_iff in Hin' as (x2 & E2 & _). inversion E2; subst.
    contradiction.
Qed.

Lemma visited_length lo width height :
  Z.of_nat (List.length (visited lo width height))
  = Z.max 0 (width - lo) * Z.max 0 (height - lo).
Proof.
  unfold visited. rewrite <- (range_length lo height).
  induction (range lo height) as [|y ys IH]; simpl; [lia|].
  rewrite length_app, length_map, Nat2Z.inj_add, IH.
  rewrite (range_length lo width). lia.
Qed.

(** What the scan leaves in its three counters, row by row. *)
Lemma edgeRow_counts ctx y xs st :
  let st' := fold_left (edgeStep ctx y) xs st in
  hEdges st' = hEdges st + countIf (fun x => JS.gt (horizontalDiff ctx x y) 50) xs /\
  vEdges st' = vEdges st + countIf (fun x => JS.gt (verticalDiff ctx x y) 50) xs /\
  rShapes st' = rShapes st
    + countIf (fun x => JS.gt (horizontalDiff ctx x y) 50
                        && JS.gt (verticalDiff ctx x y) 50) xs.
Proof.
  revert st. induction xs as [|x xs IH]; intros st; simpl.
  - rewrite !countIf_nil. lia.
  - destruct (IH (edgeStep ctx y st x)) as (Hh & Hv & Hr).
    rewrite Hh, Hv, Hr, !countIf_cons.
    unfold edgeStep; cbn [hEdges vEdges rShapes].
    destruct (JS.gt (horizontalDiff ctx x y) 50),
             (JS.gt (verticalDiff ctx x y) 50); cbn [andb]; lia.
Qed.

Definition isHEdge (ctx : Canvas) (p : Z * Z) : bool :=
  JS.gt (horizontalDiff ctx (fst p) (snd p)) 50.
Definition isVEdge (ctx : Canvas) (p : Z * Z) : bool :=
  JS.gt (verticalDiff ctx (fst p) (snd p)) 50.

Lemma edgeLoop_counts_from ctx width ys st :
  let st' := fold_left (edgeRow ctx width) ys st in
  let ps := flat_map (fun y => map (fun x => (x, y)) (range 1 width)) ys in
  hEdges st' = hEdges st + countIf (isHEdge ctx) ps /\
  vEdges st' = vEdges st + countIf (isVEdge ctx) ps /\
  rShapes st' = rShapes st
    + countIf (fun p => isHEdge ctx p && isVEdge ctx p) ps.
Proof.
  revert st. induction ys as [|y ys IH]; intros st; simpl.
  - rewrite !countIf_nil. lia.
  - destruct (IH (edgeRow ctx width st y)) as (Hh & Hv & Hr).
    destruct (edgeRow_counts ctx y (range 1 width) st) as (Hh1 & Hv1 & Hr1).
    fold (edgeRow ctx width st y) in Hh1, Hv1, Hr1.
    rewrite Hh, Hv, Hr, Hh1, Hv1, Hr1, !countIf_app, !countIf_map.
    unfold isHEdge, isVEdge; cbn [fst snd]. lia.
Qed.

Lemma edgeLoop_counts ctx width height :
  let st := edgeLoop ctx width height in
  let ps := visited 1 width height in
  hEdges st = countIf (isHEdge ctx) ps /\
  vEdges st = countIf (isVEdge ctx) ps /\
  rShapes st = countIf (fun p => isHEdge ctx p && isVEdge ctx p) ps.
Proof.
  destruct (edgeLoop_counts_from ctx width (range 1 height)
              {| hEdges := 0; vEdges := 0; rShapes := 0 |}) as (Hh & Hv & Hr).
  unfold edgeLoop, visited. simpl in *. rewrite Hh, Hv, Hr. auto.
Qed.

(** Brightness of the pixel at [(x, y)]: the mean of its R, G and B. *)
Definition brightnessAt (ctx : Canvas) (x y : Z) : JS.number :=
  let p := ctx x y in
  (JS.Z2F (chan (red p) + chan (green p) + chan (blue p)) / 3)%float.

Lemma getImageData_1x1 ctx x y :
  getImageData ctx x y 1 1
  = [red (ctx x y); green (ctx x y); blue (ctx x y); alpha (ctx x y)].
Proof.
  unfold getImageData. rewrite !range_one. reflexivity.
Qed.

Lemma brightnessOf_pixel ctx x y :
  brightnessOf (getImageData ctx x y 1 1) = brightnessAt ctx x y.
Proof. rewrite getImageData_1x1. reflexivity. Qed.

(** C4. analyzeEdges visits exactly the pixels with 1 <= x < width and
    1 <= y < height, each once; horizontalEdges counts the visited pixels
    whose brightness differs from the left neighbour's by more than 50,
    verticalEdges those differing from the top neighbour's by more than
    50, rectangularShapes those where both differences exceed 50; and
    normalizedEdges is (horizontalEdges + verticalEdges) divided by
    width*height, the full area, while (width-1)*(height-1) pixels are
    scanned. *)
Theorem analyzeEdges_spec (ctx : Canvas) (width height : Z) :
  let ps := visited 1 width height in
  let hDiff x y := abs (brightnessAt ctx x y - brightnessAt ctx (x - 1) y)%float in
  let vDiff x y := abs (brightnessAt ctx x y - brightnessAt ctx x (y - 1))%float in
  let ea := analyzeEdges ctx width height in
  (forall x y, In (x, y) ps <-> 1 <= x < width /\ 1 <= y < height) /\
  NoDup ps /\
  Z.of_nat (List.length ps) = Z.max 0 (width - 1) * Z.max 0 (height - 1) /\
  horizontalEdges ea
    = countIf (fun p => JS.gt (hDiff (fst p) (snd p)) 50) ps /\
  verticalEdges ea
    = countIf (fun p => JS.gt (vDiff (fst p) (snd p)) 50) ps /\
  rectangularShapes ea
    = countIf (fun p => JS.gt (hDiff (fst p) (snd p)) 50
                        && JS.gt (vDiff (fst p) (snd p)) 50) ps /\
  normalizedEdges ea
    = (JS.Z2F (horizontalEdges ea + verticalEdges ea) / JS.Z2F (width * height))%float.
Proof.
  intros ps hDiff vDiff ea.
  destruct (edgeLoop_counts ctx width height) as (Hh & Hv & Hr).
  assert (Eh : forall p, isHEdge ctx p = JS.gt (hDiff (fst p) (snd p)) 50).
  { intros p. unfold isHEdge, horizontalDiff, hDiff.
    now rewrite !brightnessOf_pixel. }
  assert (Ev : forall p, isVEdge ctx p = JS.gt (vDiff (fst p) (snd p)) 50).
  { intros p. unfold isVEdge, verticalDiff, vDiff.
    now rewrite !brightnessOf_pixel. }
  split; [intros x y; apply visited_In|].
  split; [apply visited_NoDup|].
  split; [apply visited_length|].
  split; [|split; [|split]].
  - etransitivity; [exact Hh|]. now apply countIf_ext.
  - etransitivity; [exact Hv|]. now apply countIf_ext.
  - etransitivity; [exact Hr|]. apply countIf_ext.
    intros p. now rewrite Eh, Ev.
  - reflexivity.
Qed.

(** C10. In the result of analyzeEdges, rectangularShapes is at most
    horizontalEdges and at most verticalEdges. *)
Theorem rectangularShapes_le_edges (ctx : Canvas) (width height : Z) :
  let ea := analyzeEdges ctx width height in
  rectangularShapes ea <= horizontalEdges ea /\
  rectangularShapes ea <= verticalEdges ea.
Proof.
  destruct (edgeLoop_counts ctx width height) as (Hh & Hv & Hr).
  simpl. rewrite Hh, Hv, Hr. apply countIf_andb_le.
Qed.

(** ** Colour keys *)

(** The values a quantized channel can take: round(c/32)*32 for a byte c
    is a multiple of 32 between 0 and 256; the byte 255 gives 256. *)
Definition quantLevels : list Z := [0; 32; 64; 96; 128; 160; 192; 224; 256].

Lemma quantize_levels (c : Byte.byte) : In (quantize c) quantLevels.
Proof.
  assert (H : existsb (Z.eqb (quantize c)) quantLevels = true)
    by (destruct c; vm_compute; reflexivity).
  apply existsb_exists in H as (q & Hq & E).
  apply Z.eqb_eq in E. now subst.
Qed.

Lemma quantize_nearest (c : Byte.byte) :
  quantize c = (chan c + 16) / 32 * 32.
Proof. destruct c; vm_compute; reflexivity. Qed.

Lemma colorKey_never_error (qr qg qb : Z) :
  In qr quantLevels -> In qg quantLevels -> In qb quantLevels ->
  isErrorColor (colorKey qr qg qb) = false.
Proof.
  assert (H : forallb (fun a => forallb (fun b => forallb (fun c =>
                negb (isErrorColor (colorKey a b c)))
                quantLevels) quantLevels) quantLevels = true)
    by (vm_compute; reflexivity).
  intros Hr Hg Hb.
  rewrite forallb_forall in H. specialize (H _ Hr).
  rewrite forallb_forall in H. specialize (H _ Hg).
  rewrite forallb_forall in H. specialize (H _ Hb).
  now apply negb_true_iff in H.
Qed.

Lemma quantizedColor_never_error (r g b : Byte.byte) :
  isErrorColor (quantizedColor r g b) = false.
Proof.
  apply colorKey_never_error; apply quantize_levels.
Qed.

(** Keys of the dictionary: every key the scan stores is the quantized
    colour of some pixel. *)
Definition keysFrom (P : string -> Prop) (o : JS.object) : Prop :=
  Forall (fun kv => P (fst kv)) o.

Lemma set_keysFrom (P : string -> Prop) o k v :
  keysFrom P o -> P k -> keysFrom P (JS.set o k v).
Proof.
  unfold keysFrom. intros Ho Hk.
  induction o as [|[k' v'] o IH]; simpl.
  - constructor; [exact Hk|constructor].
  - inversion Ho; subst. destruct (String.eqb k k').
    + constructor; assumption.
    + constructor; [assumption|now apply IH].
Qed.

Definition isQuantizedColor (k : string) : Prop :=
  exists r g b, k = quantizedColor r g b.

Lemma colorStep_keys r g b a st :
  keysFrom isQuantizedColor (colorCounts st) ->
  keysFrom isQuantizedColor (colorCounts (colorStep r g b a st)).
Proof.
  intros H. unfold colorStep. destruct (chan a <? 128); [exact H|].
  cbn [colorCounts]. apply set_keysFrom; [exact H|].
  now exists r, g, b.
Qed.

(** Induction over a buffer one RGBA quad at a time. *)
Lemma quad_ind {A} (P : list A -> Prop) :
  (forall l, (List.length l < 4)%nat -> P l) ->
  (forall r g b a rest, P rest -> P (r :: g :: b :: a :: rest)) ->
  forall l, P l.
Proof.
  intros Hs Hq.
  assert (H : forall n l, (List.length l <= n)%nat -> P l).
  { induction n as [|n IH]; intros l Hl.
    - apply Hs. lia.
    - destruct l as [|r [|g [|b [|a rest]]]]; try (apply Hs; simpl; lia).
      apply Hq, IH. simpl in Hl. lia. }
  intros l. apply (H (List.length l)). lia.
Qed.

Lemma colorLoop_short data st :
  (List.length data < 4)%nat -> colorLoop data st = st.
Proof.
  destruct data as [|r [|g [|b [|a rest]]]]; simpl; intros; try reflexivity; lia.
Qed.

Lemma colorLoop_keys data st :
  keysFrom isQuantizedColor (colorCounts st) ->
  keysFrom isQuantizedColor (colorCounts (colorLoop data st)).
Proof.
  revert st. induction data as [l Hl|r g b a rest IH] using quad_ind; intros st H.
  - now rewrite colorLoop_short.
  - cbn [colorLoop]. now apply IH, colorStep_keys.
Qed.

(** ** The sort *)

Lemma insert_perm {A} (cmp : A -> A -> Z) x l :
  Permutation (JS.insert cmp x l) (x :: l).
Proof.
  induction l as [|y l IH]; simpl; [reflexivity|].
  destruct (cmp x y <=? 0); [reflexivity|].
  rewrite IH. apply perm_swap.
Qed.

Lemma sort_perm {A} (cmp : A -> A -> Z) l : Permutation (JS.sort cmp l) l.
Proof.
  induction l as [|x l IH]; simpl; [reflexivity|].
  rewrite insert_perm. now constructor.
Qed.

Lemma sort_In {A} (cmp : A -> A -> Z) l x : In x (JS.sort cmp l) <-> In x l.
Proof.
  split; apply Permutation_in; [|symmetry]; apply sort_perm.
Qed.

Lemma firstn_In {A} n (l : list A) x : In x (firstn n l) -> In x l.
Proof.
  revert l. induction n as [|n IH]; intros [|y l]; simpl; try tauto.
  intros [->|H]; [now left|right; now apply IH].
Qed.

(** Descending by count: the order [byCountDesc] sorts into. *)
Definition countGe (x y : string * Z) : Prop := snd y <= snd x.

Lemma insert_sorted x l :
  StronglySorted countGe l -> StronglySorted countGe (JS.insert byCountDesc x l).
Proof.
  induction l as [|y l IH]; intros Hs; simpl.
  - repeat constructor.
  - apply StronglySorted_inv in Hs as [Hs Hy].
    unfold byCountDesc at 1. destruct (Z.leb_spec (snd y - snd x) 0) as [Hle|Hgt].
    + constructor; [now constructor|].
      constructor; [unfold countGe; lia|].
      eapply Forall_impl; [|exact Hy]. unfold countGe. intros; lia.
    + constructor; [now apply IH|].
      eapply Permutation_Forall; [symmetry; apply insert_perm|].
      constructor; [unfold countGe; lia|exact Hy].
Qed.

Lemma sort_sorted l : StronglySorted countGe (JS.sort byCountDesc l).
Proof.
  induction l as [|x l IH]; simpl; [constructor|now apply insert_sorted].
Qed.

Definition hasCount (c : Z) (e : string * Z) : bool := snd e =? c.

(** Stability: entries with the same count keep their relative order. *)
Lemma insert_stable c x l :
  filter (hasCount c) (JS.insert byCountDesc x l) = filter (hasCount c) (x :: l).
Proof.
  induction l as [|y l IH]; [reflexivity|].
  cbn [JS.insert]. unfold byCountDesc at 1.
  destruct (Z.leb_spec (snd y - snd x) 0) as [Hle|Hgt]; [reflexivity|].
  cbn [filter] in *. rewrite IH. unfold hasCount.
  destruct (Z.eqb_spec (snd x) c), (Z.eqb_spec (snd y) c); try reflexivity; lia.
Qed.

Lemma sort_stable c l :
  filter (hasCount c) (JS.sort byCountDesc l) = filter (hasCount c) l.
Proof.
  induction l as [|x l IH]; [reflexivity|].
  cbn [JS.sort]. rewrite insert_stable. cbn [filter]. now rewrite IH.
Qed.

(** ** The classifier *)

(** The flags and the decision as the specification words them, each
    computed from the input triple: isUIScreen is rectangularShapes >
    totalPixels * 0.01 and regularPatterns > totalPixels * 0.1; hasText
    is horizontalEdges > verticalEdges * 1.5 and normalizedEdges > 0.1;
    isDarkMode is darkRatio > 0.7 and isLightMode is lightRatio > 0.7. *)
Definition isUIScreen_spec (e : EdgeAnalysis) (p : PatternAnalysis) : bool :=
  JS.gt (JS.Z2F (rectangularShapes e)) (JS.Z2F (totalPixels p) * 0.01)%float
  && JS.gt (JS.Z2F (regularPatterns p)) (JS.Z2F (totalPixels p) * 0.1)%float.

Definition hasText_spec (e : EdgeAnalysis) : bool :=
  JS.gt (JS.Z2F (horizontalEdges e)) (JS.Z2F (verticalEdges e) * 1.5)%float
  && JS.gt (normalizedEdges e) 0.1.

Definition isDarkMode_spec (c : ColorAnalysis) : bool := JS.gt (darkRatio c) 0.7.
Definition isLightMode_spec (c : ColorAnalysis) : bool := JS.gt (lightRatio c) 0.7.

(** The decision, top to bottom, first match wins, on given flags. *)
Definition firstMatch (ui error dark light text : bool) (ne : JS.number) : string :=
  if ui then
    if error then "User Interface (Error Screen)"
    else if dark then "User Interface (Dark Theme)"
    else if light then "User Interface (Light Theme)"
    else "User Interface"
  else if text && JS.gt ne 0.2 then "Document or Text Content"
  else if JS.lt ne 0.05 then "Simple Graphic or Icon"
  else "Complex Image or Photo".

(** ** The error-screen flag *)

(** Ten opaque pixels: seven white, three pure red. *)
Definition redOnWhite : Uint8ClampedArray :=
  let white := [Byte.xff; Byte.xff; Byte.xff; Byte.xff] in
  let pureRed := [Byte.xff; Byte.x00; Byte.x00; Byte.xff] in
  white ++ white ++ pureRed ++ white ++ white ++ pureRed ++ white
        ++ white ++ pureRed ++ white.

Lemma analyzeColors_keys data total k :
  In k (dominantColors (analyzeColors data total)) -> isQuantizedColor k.
Proof.
  unfold analyzeColors; cbn [dominantColors]. intros H.
  apply in_map_iff in H as (kv & <- & H).
  apply firstn_In, sort_In in H.
  assert (Hk : keysFrom isQuantizedColor (colorCounts (colorLoop data colorInit)))
    by (apply colorLoop_keys; constructor).
  unfold keysFrom in Hk. rewrite Forall_forall in Hk. now apply Hk.
Qed.

(** What the specification asks of the flag: some dominant colour is
    the key that the colour scan gives pure red (255,0,0) or light pink
    (255,192,192). *)
Definition quantizedPureRed : string := quantizedColor Byte.xff Byte.x00 Byte.x00.
Definition quantizedLightPink : string := quantizedColor Byte.xff Byte.xc0 Byte.xc0.

Definition isErrorScreen_spec (c : ColorAnalysis) : bool :=
  JS.lt (darkRatio c) 0.2 && JS.gt (lightRatio c) 0.6
  && existsb (fun k => JS.includes quantizedPureRed k
                       || JS.includes quantizedLightPink k)
       (dominantColors c).

(** C1. The code computes isErrorScreen as darkRatio < 0.2 and
    lightRatio > 0.6 and some dominant colour containing the text
    rgb(255,0,0) or rgb(255,192,192); but the key that the colour scan
    gives pure red is rgb(256,0,0), since round(255/32)*32 = 256 (light
    pink: rgb(256,192,192)).  On ten opaque pixels, seven white and
    three pure red, darkRatio < 0.2, lightRatio > 0.6 and the quantized
    pure red is a dominant colour, so the flag should be true, yet
    isErrorScreen is false; and it is false on every output of
    analyzeColors. *)
Theorem isErrorScreen_misses_quantized_red :
  let ca := analyzeColors redOnWhite (JS.Z2F 10) in
  quantizedPureRed = "rgb(256,0,0)" /\
  quantizedLightPink = "rgb(256,192,192)" /\
  dominantColors ca = ["rgb(256,256,256)"; "rgb(256,0,0)"] /\
  JS.lt (darkRatio ca) 0.2 = true /\
  JS.gt (lightRatio ca) 0.6 = true /\
  isErrorScreen_spec ca = true /\
  (forall e p, isErrorScreen (analyzeContent ca e p) = false) /\
  (forall data total e p,
     isErrorScreen (analyzeContent (analyzeColors data total) e p) = false).
Proof.
  assert (G : forall data total e p,
     isErrorScreen (analyzeContent (analyzeColors data total) e p) = false).
  { intros data total e p. unfold analyzeContent; cbn [isErrorScreen].
    apply andb_false_intro2.
    apply not_true_is_false. intros H.
    apply existsb_exists in H as (k & Hk & Herr).
    apply analyzeColors_keys in Hk as (r & g & b & ->).
    now rewrite quantizedColor_never_error in Herr. }
  cbv zeta.
  split; [vm_compute; reflexivity|].
  split; [vm_compute; reflexivity|].
  split; [vm_compute; reflexivity|].
  split; [vm_compute; reflexivity|].
  split; [vm_compute; reflexivity|].
  split; [vm_compute; reflexivity|].
  split; [intros e p; apply G|exact G].
Qed.

(** ** The label of an error screen *)

(** The label the specification gives a triple: the first-match decision
    on the flags as it defines them, the error flag being the one that
    looks for the quantized keys. *)
Definition contentType_spec (c : ColorAnalysis) (e : EdgeAnalysis)
  (p : PatternAnalysis) : string :=
  firstMatch (isUIScreen_spec e p) (isErrorScreen_spec c) (isDarkMode_spec c)
    (isLightMode_spec c) (hasText_spec e) (normalizedEdges e).

(** A 10 x 10 white image with two pure red pixels, at (4,4) and (7,7). *)
Definition redDots : Canvas := fun x y =>
  if ((x =? 4) && (y =? 4)) || ((x =? 7) && (y =? 7)) then
    {| red := Byte.xff; green := Byte.x00; blue := Byte.x00; alpha := Byte.xff |}
  else
    {| red := Byte.xff; green := Byte.xff; blue := Byte.xff; alpha := Byte.xff |}.

Lemma analyzeColors_no_error_colour data total :
  existsb isErrorColor (dominantColors (analyzeColors data total)) = false.
Proof.
  apply not_true_is_false. intros H.
  apply existsb_exists in H as (k & Hk & Herr).
  apply analyzeColors_keys in Hk as (r & g & b & ->).
  now rewrite quantizedColor_never_error in Herr.
Qed.

(** C2. The code chooses contentType by the first-match rule on its
    flags, which are those of the specification computed from the input
    triple, except the error flag: wherever the code's error flag agrees
    with the specified one, the label is the specified one.  On the
    10 x 10 white image with two pure red pixels, analysed by the three
    analyzers, isUIScreen holds and the specified isErrorScreen holds
    (darkRatio 0, lightRatio 0.98, quantized pure red a dominant
    colour), so the label should be "User Interface (Error Screen)";
    the code looks for rgb(255,0,0) where the key is rgb(256,0,0), its
    error flag is false, and it returns "User Interface (Light Theme)".
    On no output of the colour analyzer does the label contain
    "(Error Screen)". *)
Theorem contentType_misses_error_suffix :
  let ca := analyzeColors (getImageData redDots 0 0 10 10) (JS.Z2F (10 * 10)) in
  let ea := analyzeEdges redDots 10 10 in
  let pa := analyzePatterns redDots 10 10 in
  (rectangularShapes ea = 2 /\ regularPatterns pa = 35 /\ totalPixels pa = 100 /\
   dominantColors ca = ["rgb(256,256,256)"; "rgb(256,0,0)"]) /\
  isUIScreen_spec ea pa = true /\
  isErrorScreen_spec ca = true /\
  contentType_spec ca ea pa = "User Interface (Error Screen)" /\
  isUIScreen (analyzeContent ca ea pa) = true /\
  isErrorScreen (analyzeContent ca ea pa) = false /\
  contentType (analyzeContent ca ea pa) = "User Interface (Light Theme)" /\
  (forall c e p,
     let a := analyzeContent c e p in
     isUIScreen a = isUIScreen_spec e p /\ hasText a = hasText_spec e /\
     isDarkMode a = isDarkMode_spec c /\ isLightMode a = isLightMode_spec c /\
     contentType a
     = firstMatch (isUIScreen_spec e p) (isErrorScreen a) (isDarkMode_spec c)
         (isLightMode_spec c) (hasText_spec e) (normalizedEdges e) /\
     (isErrorScreen a = isErrorScreen_spec c ->
      contentType a = contentType_spec c e p)) /\
  (forall data total e p,
     JS.includes "(Error Screen)"
       (contentType (analyzeContent (analyzeColors data total) e p)) = false).
Proof.
  cbv zeta.
  split; [repeat split; vm_compute; reflexivity|].
  split; [vm_compute; reflexivity|].
  split; [vm_compute; reflexivity|].
  split; [vm_compute; reflexivity|].
  split; [vm_compute; reflexivity|].
  split; [vm_compute; reflexivity|].
  split; [vm_compute; reflexivity|].
  assert (Hrule : forall c e p,
    contentType (analyzeContent c e p)
    = firstMatch (isUIScreen_spec e p) (isErrorScreen (analyzeContent c e p))
        (isDarkMode_spec c) (isLightMode_spec c) (hasText_spec e)
        (normalizedEdges e)).
  { intros c e p.
    unfold analyzeContent, firstMatch, isUIScreen_spec, hasText_spec,
      isDarkMode_spec, isLightMode_spec.
    cbn [contentType isErrorScreen].
    set (ui := JS.gt (JS.Z2F (rectangularShapes e)) _ && _).
    set (txt := JS.gt (JS.Z2F (horizontalEdges e)) _ && _).
    set (err := JS.lt (darkRatio c) _ && _ && _).
    set (dark := JS.gt (darkRatio c) _).
    set (light := JS.gt (lightRatio c) _).
    destruct ui, err, dark, light; reflexivity. }
  split.
  - intros c e p. do 4 (split; [reflexivity|]).
    split; [apply Hrule|].
    intros Herr. rewrite Hrule, Herr. reflexivity.
  - intros data total e p. rewrite Hrule.
    assert (Herr : isErrorScreen (analyzeContent (analyzeColors data total) e p)
                   = false).
    { unfold analyzeContent; cbn [isErrorScreen].
      rewrite analyzeColors_no_error_colour. apply andb_false_r. }
    rewrite Herr. unfold firstMatch.
    destruct (isUIScreen_spec e p), (isDarkMode_spec (analyzeColors data total)),
      (isLightMode_spec (analyzeColors data total)),
      (hasText_spec e && JS.gt (normalizedEdges e) 0.2),
      (JS.lt (normalizedEdges e) 0.05); vm_compute; reflexivity.
Qed.

(** ** The colour dictionary *)

(** Keys of the opaque pixels, in scan order. *)
Fixpoint opaqueKeys (data : Uint8ClampedArray) : list string :=
  match data with
  | r :: g :: b :: a :: rest =>
      if chan a <? 128 then opaqueKeys rest
      else quantizedColor r g b :: opaqueKeys rest
  | _ => []
  end.

(** The distinct elements of a list, each at its first occurrence. *)
Fixpoint firstSeen (ks : list string) : list string :=
  match ks with
  | [] => []
  | k :: ks' => k :: filter (fun k' => negb (String.eqb k k')) (firstSeen ks')
  end.

Definition occurrences (k : string) (ks : list string) : Z :=
  countIf (String.eqb k) ks.

Definition getOr0 (o : JS.object) (k : string) : Z :=
  match JS.get o k with Some c => c | None => 0 end.

(** [colorCounts[k] = (colorCounts[k] || 0) + 1]. *)
Definition bump (o : JS.object) (k : string) : JS.object :=
  JS.set o k (getOr0 o k + 1).

Definition addKey (l : list string) (k : string) : list string :=
  if existsb (String.eqb k) l then l else l ++ [k].

Lemma colorLoop_counts data st :
  colorCounts (colorLoop data st) = fold_left bump (opaqueKeys data) (colorCounts st).
Proof.
  revert st. induction data as [l Hl|r g b a rest IH] using quad_ind; intros st.
  - rewrite colorLoop_short by exact Hl.
    destruct l as [|? [|? [|? [|? ?]]]]; try reflexivity. simpl in Hl; lia.
  - cbn [colorLoop opaqueKeys]. rewrite IH. unfold colorStep.
    destruct (chan a <? 128); reflexivity.
Qed.

Lemma set_keys o k v : map fst (JS.set o k v) = addKey (map fst o) k.
Proof.
  unfold addKey. induction o as [|[k' v'] o IH]; [reflexivity|].
  cbn [JS.set map fst existsb]. destruct (String.eqb k k'); [reflexivity|].
  cbn [orb map fst]. rewrite IH. now destruct (existsb _ (map fst o)).
Qed.

Lemma get_set o k v k' :
  JS.get (JS.set o k v) k' = if String.eqb k' k then Some v else JS.get o k'.
Proof.
  induction o as [|[k0 v0] o IH]; cbn [JS.set JS.get].
  - reflexivity.
  - destruct (String.eqb_spec k k0) as [->|Hk]; cbn [JS.get].
    + now destruct (String.eqb k' k0).
    + rewrite IH. destruct (String.eqb_spec k' k0) as [->|Hk'];
        [|reflexivity].
      destruct (String.eqb_spec k0 k); [congruence|reflexivity].
Qed.

Lemma fold_bump_keys ks o :
  map fst (fold_left bump ks o) = fold_left addKey ks (map fst o).
Proof.
  revert o. induction ks as [|k ks IH]; intros o; [reflexivity|].
  cbn [fold_left]. rewrite IH. unfold bump. now rewrite set_keys.
Qed.

Lemma fold_bump_get ks o k :
  getOr0 (fold_left bump ks o) k = getOr0 o k + occurrences k ks.
Proof.
  unfold occurrences.
  revert o. induction ks as [|k0 ks IH]; intros o; cbn [fold_left].
  - rewrite countIf_nil. lia.
  - rewrite IH, countIf_cons. unfold bump, getOr0 at 1. rewrite get_set.
    destruct (String.eqb k k0) eqn:E.
    + apply String.eqb_eq in E. subst. lia.
    + fold (getOr0 o k). lia.
Qed.

Lemma filter_filter {A} (f g : A -> bool) l :
  filter f (filter g l) = filter (fun x => g x && f x) l.
Proof.
  induction l as [|x l IH]; [reflexivity|].
  cbn [filter]. destruct (g x); cbn [filter andb]; now rewrite IH.
Qed.

Lemma existsb_snoc {A} (f : A -> bool) l x :
  existsb f (l ++ [x]) = existsb f l || f x.
Proof. rewrite existsb_app. cbn. now rewrite orb_false_r. Qed.

Lemma fold_addKey ks acc :
  fold_left addKey ks acc
  = acc ++ filter (fun k => negb (existsb (String.eqb k) acc)) (firstSeen ks).
Proof.
  revert acc. induction ks as [|k ks IH]; intros acc; cbn [fold_left firstSeen filter].
  - now rewrite app_nil_r.
  - rewrite IH, filter_filter. unfold addKey.
    destruct (existsb (String.eqb k) acc) eqn:E; cbn [negb].
    + f_equal. apply filter_ext_in. intros k' _.
      destruct (String.eqb_spec k k') as [<-|Hk]; cbn [negb andb];
        [now rewrite E|reflexivity].
    + rewrite <- app_assoc. cbn [app]. do 2 f_equal.
      apply filter_ext_in. intros k' _. rewrite existsb_snoc, negb_orb.
      rewrite (String.eqb_sym k' k). apply andb_comm.
Qed.

Lemma In_get o k v :
  NoDup (map fst o) -> In (k, v) o -> JS.get o k = Some v.
Proof.
  induction o as [|[k0 v0] o IH]; cbn [map fst JS.get]; intros Hn Hin;
    [contradiction|].
  inversion Hn as [|? ? Hk0 Hn']; subst.
  destruct Hin as [[= -> ->]|Hin].
  - now rewrite String.eqb_refl.
  - destruct (String.eqb_spec k k0) as [->|Hk]; [|now apply IH].
    exfalso. apply Hk0. apply in_map_iff. now exists (k0, v).
Qed.

Lemma firstSeen_In ks k : In k (firstSeen ks) <-> In k ks.
Proof.
  induction ks as [|k0 ks IH]; cbn [firstSeen]; [tauto|].
  cbn [In]. rewrite filter_In, IH.
  destruct (String.eqb_spec k0 k) as [->|Hk]; cbn [negb]; intuition congruence.
Qed.

Lemma NoDup_filter {A} (f : A -> bool) l : NoDup l -> NoDup (filter f l).
Proof.
  induction 1 as [|x l Hx Hl IH]; cbn [filter]; [constructor|].
  destruct (f x); [|exact IH].
  constructor; [|exact IH]. rewrite filter_In. tauto.
Qed.

Lemma firstSeen_NoDup ks : NoDup (firstSeen ks).
Proof.
  induction ks as [|k ks IH]; cbn [firstSeen]; constructor.
  - rewrite filter_In, String.eqb_refl. cbn. intros [_ H]. discriminate.
  - now apply NoDup_filter.
Qed.

(** The dictionary after the scan: one entry per distinct colour key, in
    first-seen order, with the number of opaque pixels having that key. *)
Definition tally (ks : list string) : list (string * Z) :=
  map (fun k => (k, occurrences k ks)) (firstSeen ks).

Lemma colorCounts_tally data :
  colorCounts (colorLoop data colorInit) = tally (opaqueKeys data).
Proof.
  rewrite colorLoop_counts. cbn [colorCounts colorInit].
  set (ks := opaqueKeys data). set (o := fold_left bump ks []).
  assert (Hkeys : map fst o = firstSeen ks).
  { unfold o. rewrite fold_bump_keys, fold_addKey. cbn [map app existsb negb].
    clear. induction (firstSeen ks) as [|x l IH]; cbn; congruence. }
  assert (Hval : forall k v, In (k, v) o -> v = occurrences k ks).
  { intros k v Hin.
    pose proof (fold_bump_get ks [] k) as Hg. fold o in Hg.
    unfold getOr0 in Hg. rewrite (In_get o k v) in Hg; [cbn in Hg; lia| |exact Hin].
    rewrite Hkeys. apply firstSeen_NoDup. }
  unfold tally. rewrite <- Hkeys. clear Hkeys.
  induction o as [|[k v] o IH]; [reflexivity|].
  cbn [map fst]. rewrite <- IH by (intros; apply Hval; now right).
  now rewrite <- (Hval k v) by now left.
Qed.

(** C8. dominantColors lists the quantized colour keys of the opaque
    pixels (each distinct key once, with the number of opaque pixels
    that have it) by descending number of occurrences, keys with equal
    counts in the order in which they were first seen, cut to at most
    three. *)
Theorem dominantColors_spec (data : Uint8ClampedArray) (total : JS.number) :
  let entries := tally (opaqueKeys data) in
  NoDup (map fst entries) /\
  (forall k, In k (map fst entries) <-> In k (opaqueKeys data)) /\
  (forall k c, In (k, c) entries -> c = occurrences k (opaqueKeys data)) /\
  exists sorted,
    Permutation sorted entries /\
    StronglySorted (fun a b => snd a >= snd b) sorted /\
    (forall c, filter (fun e => snd e =? c) sorted
               = filter (fun e => snd e =? c) entries) /\
    dominantColors (analyzeColors data total) = map fst (firstn 3 sorted) /\
    (List.length (dominantColors (analyzeColors data total)) <= 3)%nat.
Proof.
  intros entries.
  assert (Hkeys : map fst entries = firstSeen (opaqueKeys data)).
  { unfold entries, tally. rewrite map_map. cbn [fst]. apply map_id. }
  split; [rewrite Hkeys; apply firstSeen_NoDup|].
  split; [intros k; rewrite Hkeys; apply firstSeen_In|].
  split.
  { intros k c Hin. unfold entries, tally in Hin.
    apply in_map_iff in Hin as (k' & [= <- <-] & _). reflexivity. }
  exists (JS.sort byCountDesc entries).
  split; [apply sort_perm|].
  split.
  { eapply StronglySorted_ind with (R := countGe).
    - constructor.
    - intros a l Hl IH Ha. constructor; [exact IH|].
      eapply Forall_impl; [|exact Ha]. unfold countGe. intros; lia.
    - apply sort_sorted. }
  split; [intros c; apply (sort_stable c)|].
  unfold analyzeColors, JS.slice0, JS.entries; cbn [dominantColors].
  rewrite colorCounts_tally. split; [reflexivity|].
  rewrite length_map. apply firstn_le_length.
Qed.

(** ** The orchestrator *)

Section ProcessImage.
Import Orchestrator.
Context {Image : Type} (env : Browser Image).

Lemma failureText_fields reason :
  failureText reason =
  JS.join nl
    [ "Image Analysis Error:";
      "- Status: Unable to process image";
      ("- Reason: " ++ reason)%string;
      "- Recommendation: Please ensure the image is valid and try again";
      "- Note: Continuing with text-only analysis";
      "- Supported Formats: JPEG, PNG, WebP, GIF";
      "- Maximum Size: 10MB" ].
Proof.
  unfold failureText, nl. cbn [JS.join String.append]. reflexivity.
Qed.

(** Everything the [try] block throws is an [Error]. *)
Lemma processBody_throws_Error image tr t tr' :
  processBody env image tr = (Throw t, tr') -> exists m, t = ErrorObj m.
Proof.
  unfold processBody. destruct image as [f|].
  2:{ intros [= <- <-]. eauto. }
  destruct (negb (JS.array_includes SUPPORTED_FORMATS (type f))).
  { intros [= <- <-]. eauto. }
  destruct (size f >? MAX_IMAGE_SIZE).
  { intros [= <- <-]. eauto. }
  unfold bind, readFile, bind, emit.
  destruct (readAsDataURL env f); cbn; try (intros [= <- <-]; eauto).
  unfold analyzeImageLocally, bind, emit.
  destruct (loadImage env dataUrl) as [img|]; cbn; [|intros [= <- <-]; eauto].
  unfold try_catch. destruct (hasContext env img); cbn;
    [|intros [= <- <-]; eauto].
  destruct (analysis env img); cbn; [discriminate|intros [= <- <-]; eauto].
Qed.

(** C3. A file whose type is not one of the four supported ones, or
    whose size exceeds 10 MiB, is turned down before the file is read
    or decoded; and whatever fails (validation, reading, decoding,
    analysis) processImage does not throw: it returns the failure text,
    whose lines are Status, Reason (the message of the error), the
    Recommendation, the Note on continuing text-only, the Supported
    Formats and the Maximum Size.  Case by case: no image; a reader
    that fails or delivers no string; an image that cannot be decoded;
    a canvas without 2d context; an analysis that throws - each gives
    the failure text with its own Reason. *)
Theorem processImage_failure_contract (image : option File) (tr : list event) :
  (exists text tr', processImage env image tr = (Return text, tr')) /\
  (forall f, image = Some f ->
     JS.array_includes SUPPORTED_FORMATS (type f) = false ->
     processImage env image tr
     = (Return (failureText unsupportedMessage), tr ++ [ConsoleError])) /\
  (forall f, image = Some f ->
     JS.array_includes SUPPORTED_FORMATS (type f) = true ->
     size f > 10 * 1024 * 1024 ->
     processImage env image tr
     = (Return (failureText tooLargeMessage), tr ++ [ConsoleError])) /\
  (forall t tr', processBody env image tr = (Throw t, tr') ->
     (exists m, t = ErrorObj m) /\
     processImage env image tr
     = (Return (failureText (messageOf t)), tr' ++ [ConsoleError])) /\
  (forall r tr', processBody env image tr = (Return r, tr') ->
     processImage env image tr = (Return r, tr')) /\
  (forall reason,
     failureText reason =
     JS.join nl
       [ "Image Analysis Error:";
         "- Status: Unable to process image";
         ("- Reason: " ++ reason)%string;
         "- Recommendation: Please ensure the image is valid and try again";
         "- Note: Continuing with text-only analysis";
         "- Supported Formats: JPEG, PNG, WebP, GIF";
         "- Maximum Size: 10MB" ]) /\
  (image = None ->
   processImage env image tr
   = (Return (failureText "No image provided"), tr ++ [ConsoleError])) /\
  (forall f, image = Some f ->
     JS.array_includes SUPPORTED_FORMATS (type f) = true ->
     size f <= 10 * 1024 * 1024 ->
     (readAsDataURL env f = ReadFailed ->
      processImage env image tr
      = (Return (failureText "Error reading image file"),
         tr ++ [ReadAsDataURL; ConsoleError])) /\
     (readAsDataURL env f = ReadOther ->
      processImage env image tr
      = (Return (failureText "Failed to read image file"),
         tr ++ [ReadAsDataURL; ConsoleError])) /\
     (forall url, readAsDataURL env f = ReadString url ->
        (loadImage env url = None ->
         processImage env image tr
         = (Return (failureText "Failed to load image"),
            tr ++ [ReadAsDataURL; DecodeImage; ConsoleError])) /\
        (forall img, loadImage env url = Some img ->
           (hasContext env img = false ->
            processImage env image tr
            = (Return (failureText
                         "Failed to analyze image: Failed to get canvas context"),
               tr ++ [ReadAsDataURL; DecodeImage; ConsoleError])) /\
           (forall t, hasContext env img = true ->
              analysis env img = Throw t ->
              processImage env image tr
              = (Return (failureText
                           ("Failed to analyze image: " ++ messageOf t)%string),
                 tr ++ [ReadAsDataURL; DecodeImage; ConsoleError])) /\
           (forall report, hasContext env img = true ->
              analysis env img = Return report ->
              processImage env image tr
              = (Return report, tr ++ [ReadAsDataURL; DecodeImage]))))).
Proof.
  split.
  { unfold processImage, try_catch.
    destruct (processBody env image tr) as [[r|t] tr'];
      [now exists r, tr'|].
    now exists (failureText (messageOf t)), (tr' ++ [ConsoleError]). }
  split.
  { intros f -> Hf. unfold processImage, try_catch, processBody.
    rewrite Hf. reflexivity. }
  split.
  { intros f -> Hf Hs. unfold processImage, try_catch, processBody.
    rewrite Hf. cbn [negb].
    assert (E : (size f >? MAX_IMAGE_SIZE) = true)
      by (apply Z.gtb_lt; unfold MAX_IMAGE_SIZE; lia).
    rewrite E. reflexivity. }
  split.
  { intros t tr' H. split; [now apply processBody_throws_Error in H|].
    unfold processImage, try_catch. rewrite H. reflexivity. }
  split.
  { intros r tr' H. unfold processImage, try_catch. now rewrite H. }
  split; [apply failureText_fields|].
  split; [intros ->; reflexivity|].
  intros f -> Hf Hs.
  assert (E : (size f >? MAX_IMAGE_SIZE) = false).
  { rewrite Z.gtb_ltb. apply Z.ltb_ge. unfold MAX_IMAGE_SIZE. lia. }
  unfold processImage, processBody, readFile, analyzeImageLocally,
    try_catch, bind, emit, ret, throw.
  rewrite Hf, E. cbv beta iota delta [negb].
  split; [intros ->; now rewrite <- app_assoc|].
  split; [intros ->; now rewrite <- app_assoc|].
  intros url ->. split; [intros ->; now rewrite <- !app_assoc|].
  intros img ->. split; [intros ->; now rewrite <- !app_assoc|].
  split.
  - intros t -> ->. now rewrite <- !app_assoc.
  - intros report -> ->. now rewrite <- !app_assoc.
Qed.

End ProcessImage.

(** ** The colour scan, pixel by pixel *)

(** The RGBA quads of a buffer. *)
Fixpoint quads (data : Uint8ClampedArray) : list Pixel :=
  match data with
  | r :: g :: b :: a :: rest =>
      {| red := r; green := g; blue := b; alpha := a |} :: quads rest
  | _ => []
  end.

Definition opaque (p : Pixel) : bool := negb (chan (alpha p) <? 128).
Definition brightnessOfPixel (p : Pixel) : JS.number :=
  pixelBrightness (red p) (green p) (blue p).
Definition isDark (p : Pixel) : bool :=
  opaque p && JS.lt (brightnessOfPixel p) 85.
Definition isLight (p : Pixel) : bool :=
  opaque p && JS.gt (brightnessOfPixel p) 170.

(** The running sum of the brightness of the opaque pixels. *)
Definition sumBrightness (ps : list Pixel) (s0 : JS.number) : JS.number :=
  fold_left (fun s p => if opaque p then (s + brightnessOfPixel p)%float else s) ps s0.

Lemma quads_length_exact data n :
  List.length data = (4 * n)%nat -> List.length (quads data) = n.
Proof.
  revert n. induction data as [l Hl|r g b a rest IH] using quad_ind; intros n Hn.
  - destruct l as [|? [|? [|? [|? ?]]]]; simpl in *; lia.
  - destruct n as [|n]; simpl in Hn; [lia|].
    simpl. f_equal. apply IH. lia.
Qed.

Lemma colorLoop_scan data st :
  let st' := colorLoop data st in
  darkPixels st' = darkPixels st + countIf isDark (quads data) /\
  lightPixels st' = lightPixels st + countIf isLight (quads data) /\
  brightnessSum st' = sumBrightness (quads data) (brightnessSum st).
Proof.
  revert st. induction data as [l Hl|r g b a rest IH] using quad_ind; intros st.
  - rewrite colorLoop_short by exact Hl.
    destruct l as [|? [|? [|? [|? ?]]]]; simpl in Hl; try lia;
      cbn [quads]; rewrite !countIf_nil; cbn; repeat split; lia.
  - cbn [colorLoop quads]. destruct (IH (colorStep r g b a st)) as (Hd & Hl & Hb).
    cbv zeta. rewrite Hd, Hl, Hb, !countIf_cons.
    unfold sumBrightness at 2. cbn [fold_left].
    fold (sumBrightness (quads rest)).
    unfold colorStep, isDark, isLight, opaque, brightnessOfPixel.
    cbn [red green blue alpha].
    destruct (chan a <? 128); cbn [negb andb darkPixels lightPixels brightnessSum].
    + repeat split; lia.
    + destruct (JS.lt (pixelBrightness r g b) 85),
               (JS.gt (pixelBrightness r g b) 170); repeat split; lia.
Qed.

Lemma colorLoop_transparent data :
  Forall (fun p => opaque p = false) (quads data) ->
  colorLoop data colorInit = colorInit.
Proof.
  generalize colorInit as st.
  induction data as [l Hl|r g b a rest IH] using quad_ind; intros st H.
  - now rewrite colorLoop_short.
  - cbn [colorLoop quads] in *. inversion H as [|? ? Hp Hrest]; subst.
    unfold opaque in Hp; cbn [alpha] in Hp. apply negb_false_iff in Hp.
    unfold colorStep. rewrite Hp. now apply IH.
Qed.

(** C6. On an image whose every pixel has alpha 0, with a positive
    pixel count, the scan skips every pixel, and darkRatio, lightRatio
    and brightness are 0. *)
Theorem fully_transparent_ratios (data : Uint8ClampedArray) (total : JS.number)
  (Htransparent : Forall (fun p => alpha p = Byte.x00) (quads data))
  (Htotal : JS.gt total 0 = true) :
  let ca := analyzeColors data total in
  colorLoop data colorInit = colorInit /\
  darkRatio ca = 0%float /\ lightRatio ca = 0%float /\ brightness ca = 0%float.
Proof.
  assert (Hskip : colorLoop data colorInit = colorInit).
  { apply colorLoop_transparent. eapply Forall_impl; [|exact Htransparent].
    intros p Hp. unfold opaque. now rewrite Hp. }
  cbv zeta. unfold analyzeColors. rewrite Hskip.
  cbn [darkRatio lightRatio brightness darkPixels lightPixels brightnessSum colorInit].
  change (JS.Z2F 0) with 0%float.
  rewrite (Binary64.F_zero_div total Htotal).
  repeat split; reflexivity.
Qed.

Lemma fully_transparent_ratios_witness :
  let data := [Byte.x0a; Byte.x14; Byte.x1e; Byte.x00;
               Byte.xff; Byte.xff; Byte.xff; Byte.x00] in
  let ca := analyzeColors data (JS.Z2F 2) in
  colorLoop data colorInit = colorInit /\
  darkRatio ca = 0%float /\ lightRatio ca = 0%float /\ brightness ca = 0%float.
Proof.
  apply fully_transparent_ratios.
  - repeat constructor.
  - vm_compute. reflexivity.
Defined.

(** ** Ranges of the colour statistics *)

Lemma chan_bounds c : 0 <= chan c <= 255.
Proof.
  unfold chan. pose proof (Byte.to_N_bounded c). lia.
Qed.

Lemma pixelBrightness_range r g b :
  Binary64.Fnonneg (pixelBrightness r g b) /\
  (Binary64.FR (pixelBrightness r g b) <= 255)%R.
Proof.
  unfold pixelBrightness.
  pose proof (chan_bounds r). pose proof (chan_bounds g). pose proof (chan_bounds b).
  destruct (Binary64.Z2F_nonneg (chan r + chan g + chan b)) as [Hn Hv];
    [change (2 ^ 53) with 9007199254740992; lia|].
  rewrite <- Binary64.FR_255.
  apply Binary64.F_div_le; auto using Binary64.Fpos_3, Binary64.Fpos_255.
  rewrite Hv, Binary64.FR_255, Binary64.FR_3.
  replace (255 * 3)%R with (IZR 765) by (simpl; lra). apply IZR_le. lia.
Qed.

(** A pixel is not both dark and light: brightness below 85 is not
    above 170. *)
Lemma dark_light_exclusive p : isDark p && isLight p = false.
Proof.
  unfold isDark, isLight, brightnessOfPixel.
  destruct (opaque p); [cbn [andb]|reflexivity].
  destruct (pixelBrightness_range (red p) (green p) (blue p)) as [Hn _].
  destruct (JS.lt _ 85) eqn:Hd; [cbn [andb]|reflexivity].
  apply not_true_is_false. intros Hl.
  apply Binary64.F_ltb in Hd; [|exact Hn|apply Binary64.Fpos_nonneg, Binary64.Fpos_85].
  apply Binary64.F_ltb in Hl; [|apply Binary64.Fpos_nonneg, Binary64.Fpos_170|exact Hn].
  rewrite Binary64.FR_85 in Hd. rewrite Binary64.FR_170 in Hl. lra.
Qed.

Lemma countIf_disjoint {A} (f g : A -> bool) l :
  (forall x, f x && g x = false) ->
  countIf f l + countIf g l <= Z.of_nat (List.length l).
Proof.
  intros H. induction l as [|x l IH]; [reflexivity|].
  rewrite !countIf_cons. simpl List.length. specialize (H x).
  destruct (f x), (g x); cbn [andb] in H; try discriminate; lia.
Qed.

Lemma sumBrightness_bound ps s0 k0 :
  Binary64.Fnonneg s0 -> (Binary64.FR s0 <= 255 * IZR k0)%R -> 0 <= k0 ->
  255 * (k0 + Z.of_nat (List.length ps)) < 2 ^ 53 ->
  Binary64.Fnonneg (sumBrightness ps s0) /\
  (Binary64.FR (sumBrightness ps s0) <= 255 * IZR (k0 + Z.of_nat (List.length ps)))%R.
Proof.
  revert s0 k0. induction ps as [|p ps IH]; intros s0 k0 Hn Hle Hk Hlim.
  - cbn. rewrite Z.add_0_r. auto.
  - cbn [List.length] in *. unfold sumBrightness. cbn [fold_left].
    fold (sumBrightness ps).
    replace (k0 + Z.of_nat (S (List.length ps)))
      with ((k0 + 1) + Z.of_nat (List.length ps)) in * by lia.
    assert (Hstep : (255 * IZR k0 <= 255 * IZR (k0 + 1))%R)
      by (apply Rmult_le_compat_l; [lra|apply IZR_le; lia]).
    destruct (opaque p).
    + destruct (pixelBrightness_range (red p) (green p) (blue p)) as [Hpn Hpv].
      fold (brightnessOfPixel p) in Hpn, Hpv.
      destruct (Binary64.Z2F_pos (255 * (k0 + 1))) as [Hbp Hbv]; [lia|].
      destruct (Binary64.F_add_le s0 (brightnessOfPixel p) (JS.Z2F (255 * (k0 + 1))))
        as [Hsn Hsv]; auto.
      * rewrite Hbv, mult_IZR, plus_IZR. lra.
      * apply IH; auto; [|lia].
        rewrite Hbv, mult_IZR in Hsv. exact Hsv.
    + apply IH; auto; [lra|lia].
Qed.

(** The quotient of two counts, as the code computes it. *)
Lemma ratio_range d n :
  0 <= d <= n -> 0 < n < 2 ^ 53 ->
  let r := (JS.Z2F d / JS.Z2F n)%float in
  Binary64.Fnonneg r /\ (Binary64.FR r <= 1)%R /\
  (2 * d <= n -> (Binary64.FR r <= 1 / 2)%R).
Proof.
  intros Hd Hn r.
  destruct (Binary64.Z2F_nonneg d ltac:(lia)) as [Hdn Hdv].
  destruct (Binary64.Z2F_pos n Hn) as [Hnp Hnv].
  split; [|split].
  - apply (Binary64.F_div_le _ _ 1%float); auto using Binary64.Fpos_1.
    rewrite Hdv, Hnv, Binary64.FR_1, Rmult_1_l. apply IZR_le. lia.
  - rewrite <- Binary64.FR_1.
    apply (Binary64.F_div_le _ _ 1%float); auto using Binary64.Fpos_1.
    rewrite Hdv, Hnv, Binary64.FR_1, Rmult_1_l. apply IZR_le. lia.
  - intros H2. rewrite <- Binary64.FR_half.
    apply (Binary64.F_div_le _ _ 0.5%float); auto using Binary64.Fpos_half.
    rewrite Hdv, Hnv, Binary64.FR_half.
    assert (IZR (2 * d) <= IZR n)%R by (apply IZR_le; lia).
    rewrite mult_IZR in H. lra.
Qed.

(** The sum of two ratios of counts that together do not exceed the
    denominator, as binary64 computes it, is at most 1. *)
Lemma ratio_sum d l n :
  0 <= d -> 0 <= l -> d + l <= n -> 0 < n < 2 ^ 53 ->
  JS.le (JS.Z2F d / JS.Z2F n + JS.Z2F l / JS.Z2F n)%float 1 = true.
Proof.
  intros Hd Hl Hdl Hn.
  destruct (ratio_range d n ltac:(lia) Hn) as (Hxn & Hx1 & _).
  destruct (ratio_range l n ltac:(lia) Hn) as (Hyn & Hy1 & _).
  cbv zeta in *.
  destruct (Binary64.Z2F_pos n Hn) as [Hnp Hnv].
  assert (Hgrid : forall c, 0 <= c < n ->
    let z := (c * 2 ^ 53 + n - 1) / n in
    (Binary64.FR (JS.Z2F c / JS.Z2F n) <= Binary64.F2R z (-53))%R /\
    z * n < c * 2 ^ 53 + n).
  { intros c Hc z.
    assert (Hp : 0 < 2 ^ 53) by (cbn; lia).
    pose proof (Z.mul_div_le (c * 2 ^ 53 + n - 1) n ltac:(lia)) as Hz1.
    pose proof (Z.mod_pos_bound (c * 2 ^ 53 + n - 1) n ltac:(lia)) as Hz2.
    pose proof (Z.div_mod (c * 2 ^ 53 + n - 1) n ltac:(lia)) as Hz3.
    fold z in Hz1, Hz3.
    assert (Hzlo : c * 2 ^ 53 <= z * n) by lia.
    assert (Hzhi : z * n < c * 2 ^ 53 + n) by lia.
    split; [|exact Hzhi].
    destruct (Binary64.Z2F_nonneg c ltac:(lia)) as [Hcn Hcv].
    apply Binary64.F_div_le_grid; auto.
    - rewrite Hcv, Hnv. apply IZR_lt. lia.
    - split; [apply Z.div_pos; nia|].
      apply Z.lt_succ_r. apply Z.div_lt_upper_bound; nia.
    - rewrite Hcv, Hnv. replace (-53) with (- (53)) by lia.
      rewrite Binary64.F2R_neg by lia.
      assert (0 < IZR (2 ^ 53))%R by (apply IZR_lt; lia).
      apply Rmult_le_reg_r with (IZR (2 ^ 53)); [assumption|].
      replace (IZR z / IZR (2 ^ 53) * IZR n * IZR (2 ^ 53))%R
        with (IZR z * IZR n)%R by (field; lra).
      rewrite <- !mult_IZR. apply IZR_le. lia. }
  apply Binary64.F_add_near_one; auto.
  destruct (Z.eq_dec d n) as [->|Hdn].
  { assert (l = 0) by lia. subst l. change (JS.Z2F 0) with 0%float.
    rewrite (Binary64.F_div_self _ Hnp).
    rewrite Binary64.F_zero_div.
    - rewrite Binary64.FR_1, Binary64.FR_0.
      pose proof (Binary64.F2R_pos 1 (-53) ltac:(lia)). lra.
    - apply Binary64.F_ltb;
        [apply Binary64.Fnonneg_0|now apply Binary64.Fpos_nonneg|].
      rewrite Binary64.FR_0. now apply Binary64.Fpos_FR. }
  destruct (Z.eq_dec l n) as [->|Hln].
  { assert (d = 0) by lia. subst d. change (JS.Z2F 0) with 0%float.
    rewrite (Binary64.F_div_self _ Hnp).
    rewrite Binary64.F_zero_div.
    - rewrite Binary64.FR_1, Binary64.FR_0.
      pose proof (Binary64.F2R_pos 1 (-53) ltac:(lia)). lra.
    - apply Binary64.F_ltb;
        [apply Binary64.Fnonneg_0|now apply Binary64.Fpos_nonneg|].
      rewrite Binary64.FR_0. now apply Binary64.Fpos_FR. }
  destruct (Hgrid d ltac:(lia)) as [Hgd Hzd].
  destruct (Hgrid l ltac:(lia)) as [Hgl Hzl].
  cbv zeta in *.
  set (zd := (d * 2 ^ 53 + n - 1) / n) in *.
  set (zl := (l * 2 ^ 53 + n - 1) / n) in *.
  assert (Hz : zd + zl <= 2 ^ 53 + 1).
  { assert (Hp : 0 < 2 ^ 53) by (cbn; lia).
    assert ((zd + zl) * n < (2 ^ 53 + 2) * n) by nia.
    assert (zd + zl < 2 ^ 53 + 2) by nia. lia. }
  assert (Hsum : (Binary64.F2R zd (-53) + Binary64.F2R zl (-53)
                  <= 1 + Binary64.F2R 1 (-53))%R).
  { assert (E1 : 1%R = Binary64.F2R (2 ^ 53) (-53)).
    { replace (-53) with (- (53)) by lia. rewrite Binary64.F2R_neg by lia.
      change (2 ^ 53) with 9007199254740992. lra. }
    rewrite E1. unfold Binary64.F2R. rewrite <- !Rmult_plus_distr_r, <- !plus_IZR.
    apply Rmult_le_compat_r; [apply Rlt_le, Binary64.pow2_pos|].
    apply IZR_le. exact Hz. }
  lra.
Qed.

(** ** The pattern scan *)

Definition isRegularAt (ctx : Canvas) (p : Z * Z) : bool :=
  let current := getImageData ctx (fst p) (snd p) 1 1 in
  isRegular (getImageData ctx (fst p - 3) (snd p - 3) 3 3)
    (idx current 0) (idx current 1) (idx current 2).

Lemma patternRow_count ctx y xs n :
  fold_left (patternStep ctx y) xs n
  = n + countIf (fun x => isRegularAt ctx (x, y)) xs.
Proof.
  revert n. induction xs as [|x xs IH]; intros n; cbn [fold_left].
  - rewrite countIf_nil. lia.
  - rewrite IH, countIf_cons. unfold patternStep, isRegularAt. cbn [fst snd].
    destruct (isRegular _ _ _ _); lia.
Qed.

Lemma analyzePatterns_count ctx width height :
  regularPatterns (analyzePatterns ctx width height)
  = countIf (isRegularAt ctx) (visited 3 width height).
Proof.
  unfold analyzePatterns, visited. cbn [regularPatterns].
  assert (H : forall ys n,
    fold_left (patternRow ctx width) ys n
    = n + countIf (isRegularAt ctx)
            (flat_map (fun y => map (fun x => (x, y)) (range 3 width)) ys)).
  { induction ys as [|y ys IH]; intros n; cbn [fold_left flat_map].
    - rewrite countIf_nil. lia.
    - rewrite IH, countIf_app, countIf_map. unfold patternRow.
      rewrite patternRow_count. lia. }
  rewrite H. lia.
Qed.

(** ** Well-formed inputs *)

Section WellFormed.
Variables (data : Uint8ClampedArray) (ctx : Canvas) (width height : Z).
Hypothesis Hlength : Z.of_nat (List.length data) = 4 * (width * height).
Hypothesis Hpositive : 0 < width * height.
(** The pixel count is a number that binary64 holds exactly (the length
    of a typed array is below 2^53). *)
Hypothesis Hsafe : width * height < 2 ^ 53.
(** Sums of up to [width * height] brightness values stay below 2^53,
    where adding a brightness to the running sum cannot round past the
    exact total. *)
Hypothesis Hexact : 255 * (width * height) < 2 ^ 53.

Let total := JS.Z2F (width * height).
Let st := colorLoop data colorInit.

Lemma quads_count : Z.of_nat (List.length (quads data)) = width * height.
Proof using Hlength Hpositive.
  rewrite (quads_length_exact data (Z.to_nat (width * height))); lia.
Qed.

Lemma pixel_counts :
  0 <= darkPixels st /\ 0 <= lightPixels st /\
  darkPixels st + lightPixels st <= width * height.
Proof using Hlength Hpositive.
  destruct (colorLoop_scan data colorInit) as (Hd & Hl & _). fold st in Hd, Hl.
  cbn [darkPixels lightPixels colorInit] in Hd, Hl. rewrite Hd, Hl.
  pose proof (countIf_nonneg isDark (quads data)).
  pose proof (countIf_nonneg isLight (quads data)).
  pose proof (countIf_disjoint isDark isLight (quads data) dark_light_exclusive).
  rewrite quads_count in *. lia.
Qed.

Lemma brightnessSum_range :
  Binary64.Fnonneg (brightnessSum st) /\
  (Binary64.FR (brightnessSum st) <= 255 * IZR (width * height))%R.
Proof using Hlength Hpositive Hexact.
  destruct (colorLoop_scan data colorInit) as (_ & _ & Hb). fold st in Hb.
  rewrite Hb. cbn [brightnessSum colorInit].
  destruct (sumBrightness_bound (quads data) 0%float 0) as [Hn Hv];
    try lia; try apply Binary64.Fnonneg_0.
  - rewrite Binary64.FR_0. lra.
  - rewrite quads_count. lia.
  - rewrite quads_count in Hv. cbn [Z.add] in Hv. auto.
Qed.

Lemma in_unit_interval x :
  Binary64.Fnonneg x -> (Binary64.FR x <= 1)%R ->
  JS.le 0 x = true /\ JS.le x 1 = true.
Proof.
  intros Hn Hv. split.
  - apply Binary64.F_leb; [apply Binary64.Fnonneg_0|exact Hn|].
    rewrite Binary64.FR_0. now apply Binary64.Fnonneg_FR.
  - apply Binary64.F_leb; [exact Hn|apply Binary64.Fpos_nonneg, Binary64.Fpos_1|].
    now rewrite Binary64.FR_1.
Qed.

(** C7. On a well-formed input (a buffer of 4 * width * height bytes
    with width * height > 0, every channel a byte; 255 * width * height
    below 2^53), darkRatio, lightRatio and brightness lie in [0,1], the
    four counts horizontalEdges, verticalEdges, rectangularShapes and
    regularPatterns are non-negative, and analyzePatterns reports
    totalPixels = width * height. *)
Theorem analyzer_ranges :
  let ca := analyzeColors data total in
  let ea := analyzeEdges ctx width height in
  let pa := analyzePatterns ctx width height in
  (JS.le 0 (darkRatio ca) = true /\ JS.le (darkRatio ca) 1 = true) /\
  (JS.le 0 (lightRatio ca) = true /\ JS.le (lightRatio ca) 1 = true) /\
  (JS.le 0 (brightness ca) = true /\ JS.le (brightness ca) 1 = true) /\
  0 <= horizontalEdges ea /\ 0 <= verticalEdges ea /\
  0 <= rectangularShapes ea /\ 0 <= regularPatterns pa /\
  totalPixels pa = width * height /\ 0 < totalPixels pa.
Proof using Hlength Hpositive Hexact.
  clear Hsafe.
  cbv zeta. unfold analyzeColors. fold st.
  cbn [darkRatio lightRatio brightness].
  destruct pixel_counts as (Hd & Hl & Hdl).
  assert (Hn : 0 < width * height < 2 ^ 53) by lia.
  destruct (Binary64.Z2F_pos _ Hn) as [Htp Htv]. fold total in Htp, Htv.
  split; [|split; [|split]].
  - destruct (ratio_range (darkPixels st) (width * height)) as (H1 & H2 & _);
      [lia|lia|]. now apply in_unit_interval.
  - destruct (ratio_range (lightPixels st) (width * height)) as (H1 & H2 & _);
      [lia|lia|]. now apply in_unit_interval.
  - destruct brightnessSum_range as [Hsn Hsv].
    destruct (Binary64.F_div_le (brightnessSum st) total 255%float) as [Hqn Hqv];
      auto using Binary64.Fpos_255.
    { rewrite Htv, Binary64.FR_255. exact Hsv. }
    destruct (Binary64.F_div_le (brightnessSum st / total)%float 255%float 1%float)
      as [Hbn Hbv]; auto using Binary64.Fpos_255, Binary64.Fpos_1.
    { rewrite Binary64.FR_1. lra. }
    rewrite Binary64.FR_1 in Hbv. now apply in_unit_interval.
  - destruct (edgeLoop_counts ctx width height) as (Hh & Hv & Hr).
    cbn [horizontalEdges verticalEdges rectangularShapes analyzeEdges].
    rewrite Hh, Hv, Hr, analyzePatterns_count.
    repeat split; try apply countIf_nonneg; cbn [totalPixels analyzePatterns]; lia.
Qed.

(** C9. On a buffer of 4 * width * height bytes (0 < width * height <
    2^53), the dark and the light pixels counted by analyzeColors are
    together at most the pixels of the image (no pixel is both), so
    darkRatio + lightRatio <= 1, and analyzeContent never reports
    isDarkMode and isLightMode together. *)
Theorem dark_light_not_both (e : EdgeAnalysis) (p : PatternAnalysis) :
  let ca := analyzeColors data total in
  darkPixels st + lightPixels st <= width * height /\
  JS.le (darkRatio ca + lightRatio ca)%float 1 = true /\
  isDarkMode (analyzeContent ca e p) && isLightMode (analyzeContent ca e p) = false.
Proof using Hlength Hpositive Hsafe.
  cbv zeta. destruct pixel_counts as (Hd & Hl & Hdl). split; [exact Hdl|].
  split.
  { unfold analyzeColors. fold st. cbn [darkRatio lightRatio].
    apply ratio_sum; lia. }
  unfold analyzeContent, analyzeColors. fold st.
  cbn [isDarkMode isLightMode darkRatio lightRatio].
  assert (Hn : 0 < width * height < 2 ^ 53) by lia. fold total.
  assert (Hlow : forall c, 0 <= c -> 2 * c <= width * height ->
                 JS.gt (JS.Z2F c / total)%float 0.7 = false).
  { intros c Hc H2. destruct (ratio_range c (width * height)) as (H1 & _ & H3);
      [lia|lia|]. specialize (H3 H2). fold total in H1, H3.
    apply not_true_is_false. intros Hgt.
    apply Binary64.F_ltb in Hgt;
      [|apply Binary64.Fpos_nonneg, Binary64.Fpos_07|exact H1].
    pose proof Binary64.FR_07. lra. }
  destruct (Z.leb_spec (2 * darkPixels st) (width * height)) as [H|H].
  - now rewrite (Hlow _ Hd H).
  - rewrite (Hlow _ Hl) by lia. apply andb_false_r.
Qed.

End WellFormed.

(** ** The buffer of a canvas *)

Lemma quads_row (f : Z -> Pixel) xs rest :
  quads (flat_map (fun x => [red (f x); green (f x); blue (f x); alpha (f x)]) xs
         ++ rest)
  = map f xs ++ quads rest.
Proof.
  induction xs as [|x xs IH]; [reflexivity|].
  cbn [flat_map map app quads]. rewrite IH. now destruct (f x).
Qed.

Lemma quads_getImageData ctx sx sy sw sh :
  quads (getImageData ctx sx sy sw sh)
  = flat_map (fun y => map (fun x => ctx x y) (range sx (sx + sw)))
      (range sy (sy + sh)).
Proof.
  unfold getImageData.
  induction (range sy (sy + sh)) as [|y ys IH]; [reflexivity|].
  cbn [flat_map]. rewrite (quads_row (fun x => ctx x y)), IH. reflexivity.
Qed.

Lemma range_three a : range a (a + 3) = [a; a + 1; a + 2].
Proof.
  unfold range. replace (a + 3 - a) with 3 by lia.
  change (Z.to_nat 3) with 3%nat. cbn [seq map].
  change (Z.of_nat 0) with 0. change (Z.of_nat 1) with 1. change (Z.of_nat 2) with 2.
  now rewrite Z.add_0_r.
Qed.

(** ** The all-black image *)

Definition black : Pixel :=
  {| red := Byte.x00; green := Byte.x00; blue := Byte.x00; alpha := Byte.xff |}.

Section AllBlack.
Variables (ctx : Canvas) (width height : Z).
Hypothesis Hwidth : 3 <= width.
Hypothesis Hheight : 3 <= height.
(** The pixel count is a number that binary64 holds exactly. *)
Hypothesis Hsize : width * height < 2 ^ 53.
Hypothesis Hblack :
  forall x y, 0 <= x < width -> 0 <= y < height -> ctx x y = black.

Let data := getImageData ctx 0 0 width height.

Lemma black_quads : Forall (fun p => p = black) (quads data).
Proof using Hblack.
  unfold data. rewrite quads_getImageData. apply Forall_forall.
  intros p Hp. apply in_flat_map in Hp as (y & Hy & Hp).
  apply in_map_iff in Hp as (x & <- & Hx).
  apply range_In in Hy, Hx. apply Hblack; lia.
Qed.

Lemma black_quads_length : Z.of_nat (List.length (quads data)) = width * height.
Proof using Hwidth Hheight.
  unfold data. rewrite quads_getImageData.
  change (0 + width) with width. change (0 + height) with height.
  assert (H : forall ys,
    Z.of_nat (List.length
      (flat_map (fun y => map (fun x => ctx x y) (range 0 width)) ys))
    = Z.of_nat (List.length ys) * width).
  { induction ys as [|y ys IH]; cbn [flat_map List.length]; [lia|].
    rewrite length_app, length_map, Nat2Z.inj_add, IH, Nat2Z.inj_succ.
    rewrite (range_length 0 width). lia. }
  rewrite H, (range_length 0 height). lia.
Qed.

Lemma black_sum ps :
  Forall (fun p => p = black) ps -> sumBrightness ps 0%float = 0%float.
Proof.
  induction 1 as [|p ps -> _ IH]; [reflexivity|].
  unfold sumBrightness. cbn [fold_left].
  change (if opaque black then (0 + brightnessOfPixel black)%float else 0%float)
    with 0%float.
  exact IH.
Qed.

Lemma black_edges p :
  In p (visited 1 width height) -> isHEdge ctx p = false /\ isVEdge ctx p = false.
Proof using Hblack.
  destruct p as [x y]. intros Hp. apply visited_In in Hp.
  unfold isHEdge, isVEdge, horizontalDiff, verticalDiff. cbn [fst snd].
  rewrite !brightnessOf_pixel. unfold brightnessAt.
  rewrite !Hblack by lia. split; vm_compute; reflexivity.
Qed.

Lemma black_regular p :
  In p (visited 3 width height) -> isRegularAt ctx p = true.
Proof using Hblack.
  destruct p as [x y]. intros Hp. apply visited_In in Hp.
  unfold isRegularAt. cbn [fst snd].
  rewrite getImageData_1x1. unfold getImageData. rewrite !range_three.
  cbn [flat_map app].
  rewrite !Hblack by lia. vm_compute. reflexivity.
Qed.

(** C5. An all-black opaque image of width and height at least 3
    (and fewer than 2^53 pixels) has darkRatio 1, lightRatio 0,
    brightness 0, no horizontal or vertical edge, no rectangular shape,
    and (width-3)*(height-3) regular patterns. *)
Theorem all_black_image :
  let ca := analyzeColors data (JS.Z2F (width * height)) in
  let ea := analyzeEdges ctx width height in
  let pa := analyzePatterns ctx width height in
  darkRatio ca = 1%float /\ lightRatio ca = 0%float /\ brightness ca = 0%float /\
  horizontalEdges ea = 0 /\ verticalEdges ea = 0 /\ rectangularShapes ea = 0 /\
  regularPatterns pa = (width - 3) * (height - 3).
Proof using Hwidth Hheight Hsize Hblack.
  cbv zeta.
  destruct (colorLoop_scan data colorInit) as (Hd & Hl & Hb).
  cbn [darkPixels lightPixels brightnessSum colorInit] in Hd, Hl, Hb.
  pose proof black_quads as Hq. pose proof black_quads_length as Hlen.
  rewrite (countIf_all isDark) in Hd
    by (intros p Hp; rewrite Forall_forall in Hq; now rewrite (Hq p Hp)).
  rewrite (countIf_none isLight) in Hl
    by (intros p Hp; rewrite Forall_forall in Hq; now rewrite (Hq p Hp)).
  rewrite (black_sum _ Hq) in Hb. rewrite Hlen in Hd.
  destruct (Binary64.Z2F_pos (width * height)) as [Htp _]; [nia|].
  assert (Hgt : JS.gt (JS.Z2F (width * height)) 0 = true).
  { apply Binary64.F_ltb;
      [apply Binary64.Fnonneg_0|now apply Binary64.Fpos_nonneg|].
    rewrite Binary64.FR_0. now apply Binary64.Fpos_FR. }
  unfold analyzeColors. cbn [darkRatio lightRatio brightness].
  rewrite Hd, Hl, Hb. cbn [Z.add].
  change (JS.Z2F 0) with 0%float.
  rewrite (Binary64.F_div_self _ Htp), (Binary64.F_zero_div _ Hgt).
  split; [reflexivity|]. split; [reflexivity|]. split; [reflexivity|].
  destruct (edgeLoop_counts ctx width height) as (Hh & Hv & Hr).
  cbn [horizontalEdges verticalEdges rectangularShapes analyzeEdges].
  rewrite Hh, Hv, Hr, analyzePatterns_count.
  rewrite (countIf_none (isHEdge ctx))
    by (intros p Hp; now destruct (black_edges p Hp)).
  rewrite (countIf_none (isVEdge ctx))
    by (intros p Hp; now destruct (black_edges p Hp)).
  rewrite (countIf_none (fun p => isHEdge ctx p && isVEdge ctx p))
    by (intros p Hp; destruct (black_edges p Hp) as [E1 E2];
        now rewrite E1, E2).
  rewrite (countIf_all (isRegularAt ctx)) by apply black_regular.
  rewrite visited_length. rewrite !Z.max_r by lia. repeat split; reflexivity.
Qed.

End AllBlack.

(** ** Instances *)

Lemma all_black_image_witness :
  let ctx : Canvas := fun _ _ => black in
  let ca := analyzeColors (getImageData ctx 0 0 4 3) (JS.Z2F (4 * 3)) in
  let ea := analyzeEdges ctx 4 3 in
  let pa := analyzePatterns ctx 4 3 in
  darkRatio ca = 1%float /\ lightRatio ca = 0%float /\ brightness ca = 0%float /\
  horizontalEdges ea = 0 /\ verticalEdges ea = 0 /\ rectangularShapes ea = 0 /\
  regularPatterns pa = (4 - 3) * (3 - 3).
Proof.
  apply (all_black_image (fun _ _ => black) 4 3).
  - lia.
  - lia.
  - reflexivity.
  - intros; reflexivity.
Defined.

(** A 2 x 2 image: a dark, a light, a mid-grey and a transparent pixel. *)
Definition sample2x2 : Canvas := fun x y =>
  if (x =? 0) && (y =? 0) then
    {| red := Byte.x0a; green := Byte.x14; blue := Byte.x1e; alpha := Byte.xff |}
  else if (x =? 1) && (y =? 0) then
    {| red := Byte.xff; green := Byte.xf0; blue := Byte.xe6; alpha := Byte.xff |}
  else if (x =? 0) && (y =? 1) then
    {| red := Byte.x80; green := Byte.x80; blue := Byte.x80; alpha := Byte.xc8 |}
  else
    {| red := Byte.xff; green := Byte.xff; blue := Byte.xff; alpha := Byte.x00 |}.

Lemma analyzer_ranges_witness :
  let data := getImageData sample2x2 0 0 2 2 in
  let ca := analyzeColors data (JS.Z2F (2 * 2)) in
  let ea := analyzeEdges sample2x2 2 2 in
  let pa := analyzePatterns sample2x2 2 2 in
  (JS.le 0 (darkRatio ca) = true /\ JS.le (darkRatio ca) 1 = true) /\
  (JS.le 0 (lightRatio ca) = true /\ JS.le (lightRatio ca) 1 = true) /\
  (JS.le 0 (brightness ca) = true /\ JS.le (brightness ca) 1 = true) /\
  0 <= horizontalEdges ea /\ 0 <= verticalEdges ea /\
  0 <= rectangularShapes ea /\ 0 <= regularPatterns pa /\
  totalPixels pa = 2 * 2 /\ 0 < totalPixels pa.
Proof.
  apply (analyzer_ranges (getImageData sample2x2 0 0 2 2) sample2x2 2 2).
  - reflexivity.
  - lia.
  - reflexivity.
Defined.

Lemma dark_light_not_both_witness :
  let data := getImageData sample2x2 0 0 2 2 in
  let ca := analyzeColors data (JS.Z2F (2 * 2)) in
  let ea := analyzeEdges sample2x2 2 2 in
  let pa := analyzePatterns sample2x2 2 2 in
  darkPixels (colorLoop data colorInit) + lightPixels (colorLoop data colorInit)
    <= 2 * 2 /\
  JS.le (darkRatio ca + lightRatio ca)%float 1 = true /\
  isDarkMode (analyzeContent ca ea pa) && isLightMode (analyzeContent ca ea pa)
    = false.
Proof.
  apply (dark_light_not_both (getImageData sample2x2 0 0 2 2) 2 2).
  - reflexivity.
  - lia.
  - reflexivity.
Defined.

(** ** Worked values *)

(** The byte 255 is quantized to 256, not to 255. *)
Example quantize_255 : quantize Byte.xff = 256.
Proof. vm_compute. reflexivity. Qed.

(** Channel sums 400 and 250 have means exactly 50 apart, but the
    binary64 means differ by a little more, and the pair counts as an
    edge. *)
Example edge_threshold_binary64 :
  JS.gt (abs (JS.Z2F 400 / 3 - JS.Z2F 250 / 3))%float 50 = true.
Proof. vm_compute. reflexivity. Qed.

(** One dark and four light pixels out of five: the binary64 ratios are
    the floats nearest to 1/5 and 4/5, and their binary64 sum is 1. *)
Example ratio_sum_fifths :
  (JS.Z2F 1 / JS.Z2F 5 + JS.Z2F 4 / JS.Z2F 5)%float = 1%float.
Proof. vm_compute. reflexivity. Qed.

(** Two colours seen twice each and one seen once: the tie keeps the
    order of first appearance. *)
Example dominantColors_tie :
  let red4 := [Byte.xff; Byte.x00; Byte.x00; Byte.xff] in
  let blue4 := [Byte.x00; Byte.x00; Byte.xff; Byte.xff] in
  let green4 := [Byte.x00; Byte.xff; Byte.x00; Byte.xff] in
  dominantColors
    (analyzeColors (green4 ++ blue4 ++ red4 ++ blue4 ++ red4) (JS.Z2F 5))
  = ["rgb(0,0,256)"; "rgb(256,0,0)"; "rgb(0,256,0)"].
Proof. vm_compute. reflexivity. Qed.

(** A triple on which both isUIScreen and isErrorScreen hold: the label
    carries the error suffix although lightRatio > 0.7 as well. *)
Example error_suffix_wins :
  let c := {| dominantColors := ["rgb(255,0,0)"]; darkRatio := 0.1%float;
              lightRatio := 0.8%float; brightness := 0.9%float |} in
  let e := {| horizontalEdges := 40; verticalEdges := 40;
              normalizedEdges := 0.8%float; rectangularShapes := 20 |} in
  let p := {| regularPatterns := 50; totalPixels := 100 |} in
  analyzeContent c e p
  = {| isUIScreen := true; hasText := false; isErrorScreen := true;
       isDarkMode := false; isLightMode := true;
       contentType := "User Interface (Error Screen)" |}.
Proof. vm_compute. reflexivity. Qed.

(** * Exact binary64 results

    When the exact sum or quotient of two binary64 numbers is itself a
    binary64 number, the operation returns it. *)

Module Binary64Exact.
Import Binary64.

Lemma F2R_inj m1 m2 e : F2R m1 e = F2R m2 e -> m1 = m2.
Proof.
  intros H. apply Z.le_antisymm; apply (F2R_le _ _ e); lra.
Qed.

(** Rounding a value that is a binary64 number. *)
Lemma binary_round_aux_exact mx ex m' e' :
  0 < mx -> bounded prec emax m' e' = true -> ex <= e' ->
  F2R mx ex = F2R (Zpos m') e' ->
  binary_round_aux prec emax false mx ex loc_Exact = S754_finite false m' e'.
Proof.
  intros Hmx Hb Hle Hv.
  pose proof (bounded_inv m' e' Hb) as (Hc & _ & He & _).
  assert (Hm : mx = Zpos m' * 2 ^ (e' - ex)).
  { rewrite (F2R_align (Zpos m') e' ex) in Hv by lia. now apply F2R_inj in Hv. }
  assert (Hp : 0 < 2 ^ (e' - ex)) by (apply Z.pow_pos_nonneg; lia).
  assert (Hd : Zdigits2 mx + ex = Zpos (digits2_pos m') + e').
  { rewrite Hm, Zdigits2_shift by lia. cbn [Zdigits2]. lia. }
  unfold binary_round_aux, shr_fexp. rewrite Hd, Hc.
  destruct (shr_spec mx ex loc_Exact (e' - ex)) as (mrs & Hs & Hsm & Hsl);
    [lia|lia|].
  rewrite Hs. replace (ex + (e' - ex)) with e' by lia.
  rewrite Hsm, Hsl; [|reflexivity|rewrite Hm; apply Z.mod_mul; lia].
  rewrite Hm, Z.div_mul by lia.
  cbn [round_nearest_even Zdigits2]. rewrite Hc, Z.sub_diag.
  cbn [shr shr_record_of_loc shr_m].
  change (emax - prec) with 971. destruct (Z.leb_spec e' 971); [reflexivity|lia].
Qed.

Lemma binary_round_exact m e m' e' :
  bounded prec emax m' e' = true ->
  F2R (Zpos m) e = F2R (Zpos m') e' ->
  binary_round prec emax false m e = S754_finite false m' e'.
Proof.
  intros Hb Hv. pose proof (bounded_inv m' e' Hb) as (Hc & _).
  assert (Hd : Zpos (digits2_pos m) + e = Zpos (digits2_pos m') + e').
  { apply Z.le_antisymm.
    - apply (F2R_le_digits (Zpos m) e (Zpos m') e'); [lia|lia|lra].
    - apply (F2R_le_digits (Zpos m') e' (Zpos m) e); [lia|lia|lra]. }
  unfold binary_round.
  destruct (shl_align_spec m e (fexp prec emax (Zpos (digits2_pos m) + e)))
    as (mz & ez & -> & Hez & Hmz).
  rewrite Hd, Hc in Hez.
  apply binary_round_aux_exact; [lia|exact Hb|lia|].
  rewrite Hmz, <- (F2R_align (Zpos m) e ez) by lia. exact Hv.
Qed.

(** Two binary64 numbers with the same value are the same. *)
Lemma bounded_unique m1 e1 m2 e2 :
  bounded prec emax m1 e1 = true -> bounded prec emax m2 e2 = true ->
  F2R (Zpos m1) e1 = F2R (Zpos m2) e2 -> m1 = m2 /\ e1 = e2.
Proof.
  intros H1 H2 Hv.
  pose proof (binary_round_aux_canonical m1 e1 H1) as Hc.
  pose proof (bounded_inv m1 e1 H1) as (Hc1 & _).
  pose proof (bounded_inv m2 e2 H2) as (Hc2 & _).
  assert (Hd : Zpos (digits2_pos m1) + e1 = Zpos (digits2_pos m2) + e2).
  { apply Z.le_antisymm.
    - apply (F2R_le_digits (Zpos m1) e1 (Zpos m2) e2); [lia|lia|lra].
    - apply (F2R_le_digits (Zpos m2) e2 (Zpos m1) e1); [lia|lia|lra]. }
  assert (He : e1 = e2) by (rewrite <- Hc1, <- Hc2, Hd; reflexivity).
  subst e2. apply F2R_inj in Hv. split; [congruence|reflexivity].
Qed.

Lemma SFadd_exact x y m' e' :
  nonnegF x -> nonnegF y -> bounded prec emax m' e' = true ->
  (SF2R x + SF2R y = F2R (Zpos m') e')%R ->
  SFadd prec emax x y = S754_finite false m' e'.
Proof.
  intros [sx|mx ex Hx] [sy|my ey Hy] Hb Hv; cbn [SFadd SF2R cond_Zopp] in *.
  - pose proof (F2R_pos (Zpos m') e' ltac:(lia)). lra.
  - rewrite Rplus_0_l in Hv.
    destruct (bounded_unique _ _ _ _ Hy Hb Hv) as [-> ->]. reflexivity.
  - rewrite Rplus_0_r in Hv.
    destruct (bounded_unique _ _ _ _ Hx Hb Hv) as [-> ->]. reflexivity.
  - set (ez := Z.min ex ey).
    destruct (shl_align_spec mx ex ez) as (ax & e2x & -> & Hex & Hax).
    destruct (shl_align_spec my ey ez) as (ay & e2y & -> & Hey & Hay).
    cbn [fst binary_normalize Z.add].
    apply binary_round_exact; [exact Hb|].
    rewrite Pos2Z.inj_add. unfold F2R at 1. rewrite plus_IZR, Rmult_plus_distr_r.
    fold (F2R (Zpos ax) ez) (F2R (Zpos ay) ez).
    rewrite Hax, Hay.
    replace e2x with ez in * by (unfold ez in *; lia).
    replace e2y with ez in * by (unfold ez in *; lia).
    rewrite <- (F2R_align (Zpos mx) ex ez), <- (F2R_align (Zpos my) ey ez)
      by (unfold ez; lia).
    exact Hv.
Qed.

(** A sum whose exact value is the binary64 number [z] is [z]. *)
Lemma F_add_exact x y z :
  Fnonneg x -> Fnonneg y -> Fpos z -> (FR x + FR y = FR z)%R ->
  (x + y)%float = z.
Proof.
  intros Hx Hy (mz & ez & Hz) Hv. apply Prim2SF_inj.
  rewrite add_spec, Hz. unfold SF64add.
  apply SFadd_exact; [exact Hx|exact Hy|eapply Prim2SF_bounded; eassumption|].
  unfold FR in Hv. now rewrite Hz in Hv.
Qed.

Lemma SFdiv_exact mx ex my ey mB eB :
  bounded prec emax mx ex = true -> bounded prec emax my ey = true ->
  bounded prec emax mB eB = true ->
  (F2R (Zpos mx) ex = F2R (Zpos mB) eB * F2R (Zpos my) ey)%R ->
  SFdiv prec emax (S754_finite false mx ex) (S754_finite false my ey)
  = S754_finite false mB eB.
Proof.
  intros Hx Hy HB Hv. cbn [SFdiv xorb]. unfold SFdiv_core_binary. cbn [Zdigits2].
  pose proof (bounded_inv mB eB HB) as (HcB & _).
  set (d1 := Zpos (digits2_pos mx)) in *. set (d2 := Zpos (digits2_pos my)) in *.
  set (dB := Zpos (digits2_pos mB)) in *.
  set (e' := Z.min (fexp prec emax (d1 + ex - (d2 + ey))) (ex - ey)).
  set (s := ex - ey - e').
  assert (Hs : 0 <= s) by (unfold s, e'; lia).
  set (m' := match s with Zpos _ => Z.shiftl (Zpos mx) s | 0 => Zpos mx | Zneg _ => 0 end).
  assert (Hm' : m' = Zpos mx * 2 ^ s).
  { unfold m'. destruct s as [|p|p] eqn:Es; [cbn; lia| |lia].
    apply Z.shiftl_mul_pow2. lia. }
  assert (HeB : e' <= eB).
  { pose proof (F2R_digits_lower (Zpos mx) ex ltac:(lia)) as Hlo.
    pose proof (F2R_digits_upper (Zpos mB) eB ltac:(lia)) as HuB.
    pose proof (F2R_digits_upper (Zpos my) ey ltac:(lia)) as Huy.
    pose proof (F2R_pos (Zpos mB) eB ltac:(lia)) as HpB.
    pose proof (F2R_pos (Zpos my) ey ltac:(lia)) as Hpy.
    cbn [Zdigits2] in Hlo, HuB, Huy. fold d1 in Hlo. fold dB in HuB. fold d2 in Huy.
    assert (Hlt : (powerRZ 2 (d1 - 1 + ex) < powerRZ 2 ((dB + eB) + (d2 + ey)))%R).
    { rewrite (pow2_add (dB + eB)). nra. }
    apply pow2_lt_inv in Hlt.
    rewrite <- HcB. fold dB. unfold e'.
    pose proof (fexp64_mono (d1 + ex - (d2 + ey)) (dB + eB) ltac:(lia)). lia. }
  set (K := Zpos mB * 2 ^ (eB - e')).
  assert (Hp : 0 < 2 ^ (eB - e')) by (apply Z.pow_pos_nonneg; lia).
  assert (HK : F2R K e' = F2R (Zpos mB) eB).
  { unfold K. now rewrite <- (F2R_align (Zpos mB) eB e') by lia. }
  assert (Hmul : m' = K * Zpos my).
  { apply (F2R_inj _ _ (e' + ey)).
    transitivity (F2R (Zpos mx) ex).
    - rewrite Hm'. rewrite (F2R_align (Zpos mx) ex (e' + ey)) by lia.
      do 3 f_equal. unfold s. lia.
    - rewrite Hv, <- HK. unfold F2R. rewrite mult_IZR, pow2_add. ring. }
  assert (Hq : m' / Zpos my = K) by (rewrite Hmul; apply Z.div_mul; lia).
  assert (Hr : m' mod Zpos my = 0) by (rewrite Hmul; apply Z.mod_mul; lia).
  unfold Z.div, Z.modulo in Hq, Hr.
  destruct (Z.div_eucl m' (Zpos my)) as [q r]. subst q r.
  assert (El : new_location (Zpos my) 0 = loc_Exact) by now apply new_location_exact.
  rewrite El. apply binary_round_aux_exact; [unfold K; nia|exact HB|exact HeB|exact HK].
Qed.

(** A quotient whose exact value is the binary64 number [z] is [z]. *)
Lemma F_div_exact x y z :
  Fpos x -> Fpos y -> Fpos z -> (FR x = FR z * FR y)%R -> (x / y)%float = z.
Proof.
  intros (mx & ex & Hx) (my & ey & Hy) (mz & ez & Hz) Hv. apply Prim2SF_inj.
  rewrite div_spec, Hx, Hy, Hz. unfold SF64div.
  unfold FR in Hv. rewrite Hx, Hy, Hz in Hv. cbn [SF2R cond_Zopp] in Hv.
  apply SFdiv_exact; try (eapply Prim2SF_bounded; eassumption). exact Hv.
Qed.

(** Sums and quotients of integers below 2^53. *)
Lemma Z2F_add a b :
  0 <= a -> 0 <= b -> a + b < 2 ^ 53 ->
  (JS.Z2F a + JS.Z2F b)%float = JS.Z2F (a + b).
Proof.
  intros Ha Hb Hab.
  destruct (Z.eq_dec (a + b) 0) as [E|E].
  - assert (a = 0) by lia. assert (b = 0) by lia. subst. reflexivity.
  - destruct (Z2F_nonneg a ltac:(lia)) as [Hna Hva].
    destruct (Z2F_nonneg b ltac:(lia)) as [Hnb Hvb].
    destruct (Z2F_pos (a + b) ltac:(lia)) as [Hp Hv].
    apply F_add_exact; try assumption.
    rewrite Hva, Hvb, Hv, plus_IZR. reflexivity.
Qed.

Lemma Z2F_div k n :
  0 < k -> 0 < n -> k * n < 2 ^ 53 ->
  (JS.Z2F (k * n) / JS.Z2F n)%float = JS.Z2F k.
Proof.
  intros Hk Hn Hkn.
  destruct (Z2F_pos (k * n) ltac:(nia)) as [Hp Hv].
  destruct (Z2F_pos n ltac:(nia)) as [Hpn Hvn].
  destruct (Z2F_pos k ltac:(nia)) as [Hpk Hvk].
  apply F_div_exact; try assumption.
  rewrite Hv, Hvn, Hvk, mult_IZR. reflexivity.
Qed.

End Binary64Exact.
(** * Further properties of the analyzers *)

(** ** Quantization *)

(** X1. A channel is quantized to the multiple of 32 nearest to it (the
    upper one when the channel is half-way): the result is a multiple of
    32 between 0 and 256, at most 16 away from the channel, and exactly
    16 above it when the channel is 16 more than a multiple of 32. *)
Theorem quantize_nearest_multiple (c : Byte.byte) :
  quantize c mod 32 = 0 /\
  0 <= quantize c <= 256 /\
  Z.abs (quantize c - chan c) <= 16 /\
  (chan c mod 32 = 16 -> quantize c = chan c + 16).
Proof.
  rewrite quantize_nearest. pose proof (chan_bounds c) as Hc.
  pose proof (Z.div_mod (chan c + 16) 32 ltac:(lia)) as Hd.
  pose proof (Z.mod_pos_bound (chan c + 16) 32 ltac:(lia)) as Hm.
  split; [apply Z.mod_mul; lia|].
  split; [lia|]. split; [lia|].
  intros H16.
  assert (E : (chan c + 16) mod 32 = 0).
  { rewrite Z.add_mod, H16 by lia. reflexivity. }
  lia.
Qed.

(** ** Dark and light pixels *)

(** The mean (s / 3) of a channel sum against the two thresholds of the
    colour scan, for every sum three bytes can have. *)
Definition thresholdsExact (s : Z) : bool :=
  Bool.eqb (JS.lt (JS.Z2F s / 3)%float 85) (s <? 255)
  && Bool.eqb (JS.gt (JS.Z2F s / 3)%float 170) (510 <? s).

Lemma thresholds_table : forallb thresholdsExact (range 0 766) = true.
Proof. vm_compute. reflexivity. Qed.

Definition channelSum (p : Pixel) : Z :=
  chan (red p) + chan (green p) + chan (blue p).

Lemma channelSum_bounds p : 0 <= channelSum p <= 765.
Proof.
  unfold channelSum.
  pose proof (chan_bounds (red p)). pose proof (chan_bounds (green p)).
  pose proof (chan_bounds (blue p)). lia.
Qed.

Lemma isDark_sum p : isDark p = opaque p && (channelSum p <? 255).
Proof.
  unfold isDark, brightnessOfPixel, pixelBrightness. f_equal.
  pose proof thresholds_table as H. rewrite forallb_forall in H.
  specialize (H (channelSum p)). unfold thresholdsExact in H.
  rewrite andb_true_iff in H. destruct H as [H _].
  - apply range_In. pose proof (channelSum_bounds p). lia.
  - now apply eqb_prop in H.
Qed.

Lemma isLight_sum p : isLight p = opaque p && (510 <? channelSum p).
Proof.
  unfold isLight, brightnessOfPixel, pixelBrightness. f_equal.
  pose proof thresholds_table as H. rewrite forallb_forall in H.
  specialize (H (channelSum p)). unfold thresholdsExact in H.
  rewrite andb_true_iff in H. destruct H as [_ H].
  - apply range_In. pose proof (channelSum_bounds p). lia.
  - now apply eqb_prop in H.
Qed.

(** X2. The binary64 tests [brightness < 85] and [brightness > 170] of
    the colour scan are exact on channel sums: darkPixels is the number
    of opaque pixels with R + G + B at most 254, lightPixels the number
    of opaque pixels with R + G + B at least 511. *)
Theorem dark_light_by_channel_sum (data : Uint8ClampedArray) :
  let st := colorLoop data colorInit in
  darkPixels st
  = countIf (fun p => opaque p && (channelSum p <=? 254)) (quads data) /\
  lightPixels st
  = countIf (fun p => opaque p && (511 <=? channelSum p)) (quads data).
Proof.
  destruct (colorLoop_scan data colorInit) as (Hd & Hl & _).
  cbv zeta in *. rewrite Hd, Hl. cbn [darkPixels lightPixels colorInit].
  split.
  - rewrite Z.add_0_l. apply countIf_ext. intros p. rewrite isDark_sum.
    f_equal. destruct (Z.ltb_spec (channelSum p) 255), (Z.leb_spec (channelSum p) 254);
      try reflexivity; lia.
  - rewrite Z.add_0_l. apply countIf_ext. intros p. rewrite isLight_sum.
    f_equal. destruct (Z.ltb_spec 510 (channelSum p)), (Z.leb_spec 511 (channelSum p));
      try reflexivity; lia.
Qed.

(** ** Transparent pixels *)

(** The buffer that holds the given pixels. *)
Definition bufferOf (ps : list Pixel) : Uint8ClampedArray :=
  flat_map (fun p => [red p; green p; blue p; alpha p]) ps.

Lemma colorLoop_opaque_only data st :
  colorLoop data st = colorLoop (bufferOf (filter opaque (quads data))) st.
Proof.
  revert st. induction data as [l Hl|r g b a rest IH] using quad_ind; intros st.
  - rewrite colorLoop_short by exact Hl.
    destruct l as [|? [|? [|? [|? ?]]]]; try reflexivity. simpl in Hl; lia.
  - cbn [colorLoop quads filter]. unfold opaque at 1. cbn [alpha].
    destruct (chan a <? 128) eqn:Ha; cbn [negb].
    + unfold colorStep. rewrite Ha. apply IH.
    + cbn [bufferOf flat_map app red green blue alpha colorLoop]. apply IH.
Qed.

(** X3. Pixels with alpha below 128 take no part in the colour
    analysis: for the same totalPixels, a buffer and the buffer left
    when its transparent pixels are removed have the same analysis. *)
Theorem transparent_pixels_ignored (data : Uint8ClampedArray) (total : JS.number) :
  analyzeColors data total
  = analyzeColors (bufferOf (filter opaque (quads data))) total.
Proof.
  unfold analyzeColors. now rewrite <- colorLoop_opaque_only.
Qed.

(** ** The dominant colours *)

Lemma sorted_app_le {A} (R : A -> A -> Prop) l1 l2 :
  StronglySorted R (l1 ++ l2) ->
  forall x y, In x l1 -> In y l2 -> R x y.
Proof.
  induction l1 as [|a l1 IH]; intros Hs x y Hx Hy; [contradiction|].
  cbn [app] in Hs. inversion Hs as [|? ? Hs' Ha]; subst.
  destruct Hx as [<-|Hx].
  - rewrite Forall_forall in Ha. apply Ha, in_or_app. now right.
  - now apply IH.
Qed.

Lemma NoDup_firstn {A} n (l : list A) : NoDup l -> NoDup (firstn n l).
Proof.
  revert n. induction l as [|x l IH]; intros [|n] H; cbn [firstn];
    try constructor.
  - inversion H; subst. intros Hin. now apply firstn_In in Hin.
  - inversion H; subst. now apply IH.
Qed.

Lemma opaqueKeys_nil data :
  opaqueKeys data = [] <-> Forall (fun p => opaque p = false) (quads data).
Proof.
  induction data as [l Hl|r g b a rest IH] using quad_ind.
  - destruct l as [|? [|? [|? [|? ?]]]]; cbn; try (split; auto; fail).
    simpl in Hl; lia.
  - cbn [opaqueKeys quads]. unfold opaque at 1. cbn [alpha].
    destruct (chan a <? 128) eqn:Ha; cbn [negb]; split.
    + intros H. constructor; [cbn; now rewrite Ha|now apply IH].
    + intros H. inversion H; subst. now apply IH.
    + discriminate.
    + intros H. inversion H as [|? ? Hp _]; subst.
      unfold opaque in Hp; cbn [alpha] in Hp. rewrite Ha in Hp. discriminate.
Qed.

Lemma occurrences_nonneg k ks : 0 <= occurrences k ks.
Proof. apply countIf_nonneg. Qed.

Lemma occurrences_absent k ks : ~ In k ks -> occurrences k ks = 0.
Proof.
  intros H. apply countIf_none. intros x Hx.
  destruct (String.eqb_spec k x); [subst; contradiction|reflexivity].
Qed.

(** X4. The dominant colours are distinct; there are min(3, number of
    distinct keys) of them, none exactly when no pixel is opaque; and
    every listed colour is the key of at least as many opaque pixels as
    any colour that is not listed. *)
Theorem dominantColors_top_three (data : Uint8ClampedArray) (total : JS.number) :
  let keys := opaqueKeys data in
  let dc := dominantColors (analyzeColors data total) in
  NoDup dc /\
  List.length dc = Nat.min 3 (List.length (firstSeen keys)) /\
  (dc = [] <-> Forall (fun p => opaque p = false) (quads data)) /\
  (forall k k', In k dc -> ~ In k' dc ->
     occurrences k' keys <= occurrences k keys).
Proof.
  intros keys dc.
  set (entries := tally keys).
  set (sorted := JS.sort byCountDesc entries).
  assert (Hdc : dc = map fst (firstn 3 sorted)).
  { unfold dc, analyzeColors, JS.slice0, JS.entries; cbn [dominantColors].
    now rewrite colorCounts_tally. }
  assert (Hkeys : map fst entries = firstSeen keys).
  { unfold entries, tally. rewrite map_map. cbn [fst]. apply map_id. }
  assert (Hperm : Permutation sorted entries) by apply sort_perm.
  assert (Hnd : NoDup (map fst sorted)).
  { eapply Permutation_NoDup; [apply Permutation_map, Permutation_sym, Hperm|].
    rewrite Hkeys. apply firstSeen_NoDup. }
  assert (Hlen : List.length sorted = List.length (firstSeen keys)).
  { rewrite (Permutation_length Hperm), <- Hkeys. now rewrite length_map. }
  assert (Hval : forall k c, In (k, c) sorted -> c = occurrences k keys).
  { intros k c Hin. apply (Permutation_in _ Hperm) in Hin.
    unfold entries, tally in Hin.
    apply in_map_iff in Hin as (k0 & [= <- <-] & _). reflexivity. }
  split; [|split; [|split]].
  - rewrite Hdc, <- firstn_map. now apply NoDup_firstn.
  - rewrite Hdc, length_map, length_firstn, Hlen. reflexivity.
  - rewrite <- opaqueKeys_nil. fold keys. split.
    + intros E. assert (Hz : List.length dc = 0%nat) by now rewrite E.
      rewrite Hdc, length_map, length_firstn, Hlen in Hz.
      destruct keys as [|k ks]; [reflexivity|]. cbn in Hz. lia.
    + intros E. rewrite Hdc. unfold sorted, entries. now rewrite E.
  - intros k k' Hk Hk'. rewrite Hdc in Hk, Hk'.
    apply in_map_iff in Hk as ([k0 c] & E & Hin). cbn in E. subst k0.
    destruct (in_dec string_dec k' keys) as [Hin'|Hout].
    2:{ rewrite (occurrences_absent k' keys Hout). apply occurrences_nonneg. }
    assert (Hs : In (k', occurrences k' keys) sorted).
    { apply (Permutation_in _ (Permutation_sym Hperm)).
      unfold entries, tally. apply in_map_iff. exists k'. split; [reflexivity|].
      now apply firstSeen_In. }
    rewrite <- (firstn_skipn 3 sorted) in Hs. apply in_app_or in Hs as [Hs|Hs].
    { exfalso. apply Hk'. apply in_map_iff. now exists (k', occurrences k' keys). }
    pose proof (sort_sorted entries) as Hsorted. fold sorted in Hsorted.
    rewrite <- (firstn_skipn 3 sorted) in Hsorted.
    pose proof (sorted_app_le _ _ _ Hsorted _ _ Hin Hs) as Hge.
    unfold countGe in Hge. cbn [snd] in Hge.
    rewrite <- (Hval k c) by (eapply firstn_In; exact Hin). exact Hge.
Qed.

(** ** The pattern scan, neighbour by neighbour *)

(** Every colour channel of [p] is at most 20 away from that of [c]. *)
Definition within20 (p c : Pixel) : bool :=
  (Z.abs (chan (red p) - chan (red c)) <=? 20)
  && (Z.abs (chan (green p) - chan (green c)) <=? 20)
  && (Z.abs (chan (blue p) - chan (blue c)) <=? 20).

(** The 3 x 3 block read for the pixel [(x, y)]: its corner is
    [(x - 3, y - 3)], so it lies up and to the left of the pixel and
    holds neither the pixel nor any pixel of its row or column. *)
Definition block (p : Z * Z) : list (Z * Z) :=
  flat_map (fun v => map (fun u => (u, v)) (range (fst p - 3) (fst p - 3 + 3)))
    (range (snd p - 3) (snd p - 3 + 3)).

Definition regularAt (ctx : Canvas) (p : Z * Z) : bool :=
  forallb (fun q => within20 (ctx (fst q) (snd q)) (ctx (fst p) (snd p))) (block p).

Lemma block_In p u v :
  In (u, v) (block p) <-> fst p - 3 <= u < fst p /\ snd p - 3 <= v < snd p.
Proof.
  unfold block. rewrite in_flat_map. split.
  - intros (v' & Hv & Hu). apply in_map_iff in Hu as (u' & E & Hu).
    inversion E; subst. apply range_In in Hv, Hu. lia.
  - intros [Hu Hv]. exists v. split; [apply range_In; lia|].
    apply in_map_iff. exists u. split; [reflexivity|apply range_In; lia].
Qed.

Lemma isRegular_step p0 p1 p2 p3 rest c :
  isRegular (p0 :: p1 :: p2 :: p3 :: rest)
    (chan (red c)) (chan (green c)) (chan (blue c))
  = within20 {| red := p0; green := p1; blue := p2; alpha := p3 |} c
    && isRegular rest (chan (red c)) (chan (green c)) (chan (blue c)).
Proof.
  cbn [isRegular]. unfold within20. cbn [red green blue].
  rewrite !Z.gtb_ltb, !Z.ltb_antisym.
  destruct (_ <=? 20), (_ <=? 20), (_ <=? 20); reflexivity.
Qed.

Lemma isRegular_pixels ps c :
  isRegular (bufferOf ps) (chan (red c)) (chan (green c)) (chan (blue c))
  = forallb (fun p => within20 p c) ps.
Proof.
  induction ps as [|p ps IH]; [reflexivity|].
  cbn [bufferOf flat_map app forallb]. fold (bufferOf ps).
  rewrite isRegular_step, IH. now destruct p.
Qed.

Lemma bufferOf_quads ctx sx sy sw sh :
  getImageData ctx sx sy sw sh = bufferOf (quads (getImageData ctx sx sy sw sh)).
Proof.
  rewrite quads_getImageData. unfold getImageData, bufferOf.
  induction (range sy (sy + sh)) as [|y ys IH]; [reflexivity|].
  cbn [flat_map]. rewrite flat_map_app, <- IH. f_equal.
  clear IH. generalize (range sx (sx + sw)). intros xs.
  induction xs as [|x xs IHx]; [reflexivity|].
  cbn [flat_map map app]. now rewrite IHx.
Qed.

Lemma isRegularAt_regularAt ctx p : isRegularAt ctx p = regularAt ctx p.
Proof.
  unfold isRegularAt, regularAt. rewrite getImageData_1x1.
  unfold idx. cbn [nth].
  rewrite bufferOf_quads, quads_getImageData.
  rewrite (isRegular_pixels _ (ctx (fst p) (snd p))).
  unfold block.
  induction (range (snd p - 3) (snd p - 3 + 3)) as [|v vs IH]; [reflexivity|].
  cbn [flat_map]. rewrite !forallb_app, IH. f_equal.
  generalize (range (fst p - 3) (fst p - 3 + 3)). intros us.
  induction us as [|u us IHu]; [reflexivity|].
  cbn [map forallb fst snd]. now rewrite IHu.
Qed.

Lemma countIf_le_length {A} (f : A -> bool) l :
  countIf f l <= Z.of_nat (List.length l).
Proof.
  unfold countIf. pose proof (filter_length_le f l). lia.
Qed.

Lemma countIf_ext_in {A} (f g : A -> bool) l :
  (forall x, In x l -> f x = g x) -> countIf f l = countIf g l.
Proof.
  intros H. induction l as [|x l IH]; [reflexivity|].
  rewrite !countIf_cons, IH, (H x); auto using in_eq, in_cons.
Qed.

(** X5. analyzePatterns counts the pixels (x, y), 3 <= x < width and
    3 <= y < height, such that each of the nine pixels (u, v) with
    x-3 <= u < x and y-3 <= v < y is within 20 of the pixel (x, y) on
    each of the channels R, G and B (the block lies up-left of the
    pixel; alpha is not compared).  The count is between 0 and
    (width-3)*(height-3), hence 0 when the image is narrower or lower
    than 4 pixels, and totalPixels is width*height. *)
Theorem analyzePatterns_spec (ctx : Canvas) (width height : Z) :
  let pa := analyzePatterns ctx width height in
  (forall x y,
     regularAt ctx (x, y) = true <->
     forall u v, x - 3 <= u < x -> y - 3 <= v < y ->
       Z.abs (chan (red (ctx u v)) - chan (red (ctx x y))) <= 20 /\
       Z.abs (chan (green (ctx u v)) - chan (green (ctx x y))) <= 20 /\
       Z.abs (chan (blue (ctx u v)) - chan (blue (ctx x y))) <= 20) /\
  regularPatterns pa = countIf (regularAt ctx) (visited 3 width height) /\
  0 <= regularPatterns pa <= Z.max 0 (width - 3) * Z.max 0 (height - 3) /\
  totalPixels pa = width * height.
Proof.
  cbv zeta. rewrite analyzePatterns_count. split; [|split; [|split]].
  - intros x y. unfold regularAt. rewrite forallb_forall. cbn [fst snd]. split.
    + intros H u v Hu Hv. specialize (H (u, v)). cbn [fst snd] in H.
      unfold within20 in H. rewrite !andb_true_iff, !Z.leb_le in H.
      assert (Hin : In (u, v) (block (x, y))) by (apply block_In; cbn; lia).
      specialize (H Hin). tauto.
    + intros H [u v] Hin. apply block_In in Hin. cbn [fst snd] in *.
      unfold within20. rewrite !andb_true_iff, !Z.leb_le.
      specialize (H u v ltac:(lia) ltac:(lia)). tauto.
  - apply countIf_ext. apply isRegularAt_regularAt.
  - split; [apply countIf_nonneg|].
    rewrite <- visited_length. apply countIf_le_length.
  - reflexivity.
Qed.

(** ** What the edge and pattern scans read *)

Definition sameColour (p q : Pixel) : Prop :=
  red p = red q /\ green p = green q /\ blue p = blue q.

Lemma brightnessAt_channelSum ctx x y :
  brightnessAt ctx x y = (JS.Z2F (channelSum (ctx x y)) / 3)%float.
Proof. reflexivity. Qed.

Lemma sameColour_sum p q : sameColour p q -> channelSum p = channelSum q.
Proof. intros (Hr & Hg & Hb). unfold channelSum. now rewrite Hr, Hg, Hb. Qed.

Lemma sameColour_within20 p p' c c' :
  sameColour p p' -> sameColour c c' -> within20 p c = within20 p' c'.
Proof.
  intros (Hr & Hg & Hb) (Hr' & Hg' & Hb'). unfold within20.
  now rewrite Hr, Hg, Hb, Hr', Hg', Hb'.
Qed.

Lemma forallb_agree {A} (f g : A -> bool) l :
  (forall x, In x l -> f x = g x) -> forallb f l = forallb g l.
Proof.
  intros H. induction l as [|x l IH]; [reflexivity|].
  cbn [forallb]. rewrite IH, (H x); auto using in_eq, in_cons.
Qed.

(** X6. The edge scan and the pattern scan read only the R, G and B
    channels of pixels inside the image: two canvases whose pixels have
    the same colour at every (x, y) with 0 <= x < width and
    0 <= y < height - whatever their alpha, and whatever lies outside -
    get the same EdgeAnalysis and the same PatternAnalysis. *)
Theorem scans_read_rgb_inside (ctx1 ctx2 : Canvas) (width height : Z)
  (Hsame : forall x y, 0 <= x < width -> 0 <= y < height ->
                       sameColour (ctx1 x y) (ctx2 x y)) :
  analyzeEdges ctx1 width height = analyzeEdges ctx2 width height /\
  analyzePatterns ctx1 width height = analyzePatterns ctx2 width height.
Proof.
  assert (Hb : forall x y, 0 <= x < width -> 0 <= y < height ->
                 brightnessAt ctx1 x y = brightnessAt ctx2 x y).
  { intros x y Hx Hy. rewrite !brightnessAt_channelSum.
    now rewrite (sameColour_sum _ _ (Hsame x y Hx Hy)). }
  assert (Hh : forall p, In p (visited 1 width height) ->
                 isHEdge ctx1 p = isHEdge ctx2 p).
  { intros [x y] Hin. apply visited_In in Hin.
    unfold isHEdge, horizontalDiff. cbn [fst snd].
    rewrite !brightnessOf_pixel, !Hb by lia. reflexivity. }
  assert (Hv : forall p, In p (visited 1 width height) ->
                 isVEdge ctx1 p = isVEdge ctx2 p).
  { intros [x y] Hin. apply visited_In in Hin.
    unfold isVEdge, verticalDiff. cbn [fst snd].
    rewrite !brightnessOf_pixel, !Hb by lia. reflexivity. }
  split.
  - destruct (edgeLoop_counts ctx1 width height) as (H1 & V1 & R1).
    destruct (edgeLoop_counts ctx2 width height) as (H2 & V2 & R2).
    cbv zeta in *. unfold analyzeEdges. cbv zeta.
    rewrite H1, V1, R1, H2, V2, R2.
    rewrite (countIf_ext_in _ _ _ Hh), (countIf_ext_in _ _ _ Hv).
    rewrite (countIf_ext_in (fun p => isHEdge ctx1 p && isVEdge ctx1 p)
               (fun p => isHEdge ctx2 p && isVEdge ctx2 p)).
    + reflexivity.
    + intros p Hin. now rewrite Hh, Hv.
  - unfold analyzePatterns. f_equal.
    change (regularPatterns (analyzePatterns ctx1 width height)
            = regularPatterns (analyzePatterns ctx2 width height)).
    rewrite !analyzePatterns_count. apply countIf_ext_in.
    intros [x y] Hin. apply visited_In in Hin.
    rewrite !isRegularAt_regularAt. unfold regularAt.
    apply forallb_agree. intros [u v] Hq. apply block_In in Hq.
    cbn [fst snd] in *. apply sameColour_within20; apply Hsame; lia.
Qed.

(** ** The edge threshold on channel sums *)

(** The test [|s1/3 - s2/3| > 50] on two channel sums. *)
Definition edgeBetween (s1 s2 : Z) : bool :=
  JS.gt (abs (JS.Z2F s1 / 3 - JS.Z2F s2 / 3))%float 50.

(** The mean of every sum three bytes can have. *)
Definition sumMeans : list (Z * JS.number) :=
  map (fun s => (s, (JS.Z2F s / 3)%float)) (range 0 766).

(** The test holds when the sums differ by more than 150 and fails when
    they differ by less. *)
Definition edgeCheck (a b : Z * JS.number) : bool :=
  let e := JS.gt (abs (snd a - snd b))%float 50 in
  let d := Z.abs (fst a - fst b) in
  if 150 <? d then e else if d <? 150 then negb e else true.

Lemma edgeTable_ok :
  forallb (fun a => forallb (edgeCheck a) sumMeans) sumMeans = true.
Proof. vm_compute. reflexivity. Qed.

Lemma sumMeans_In s :
  0 <= s <= 765 -> In (s, (JS.Z2F s / 3)%float) sumMeans.
Proof.
  intros Hs. apply in_map_iff. exists s.
  split; [reflexivity|apply range_In; lia].
Qed.

Lemma edgeBetween_spec s1 s2 :
  0 <= s1 <= 765 -> 0 <= s2 <= 765 ->
  (150 < Z.abs (s1 - s2) -> edgeBetween s1 s2 = true) /\
  (Z.abs (s1 - s2) < 150 -> edgeBetween s1 s2 = false).
Proof.
  intros H1 H2. pose proof edgeTable_ok as H.
  rewrite forallb_forall in H.
  specialize (H _ (sumMeans_In s1 H1)). rewrite forallb_forall in H.
  specialize (H _ (sumMeans_In s2 H2)).
  unfold edgeCheck in H. cbn [fst snd] in H.
  fold (edgeBetween s1 s2) in H.
  split; intros Hd.
  - apply Z.ltb_lt in Hd. now rewrite Hd in H.
  - destruct (Z.ltb_spec 150 (Z.abs (s1 - s2))); [lia|].
    apply Z.ltb_lt in Hd. rewrite Hd in H. now apply negb_true_iff in H.
Qed.

Lemma isHEdge_sum ctx x y :
  isHEdge ctx (x, y)
  = edgeBetween (channelSum (ctx x y)) (channelSum (ctx (x - 1) y)).
Proof.
  unfold isHEdge, horizontalDiff. cbn [fst snd].
  now rewrite !brightnessOf_pixel, !brightnessAt_channelSum.
Qed.

Lemma isVEdge_sum ctx x y :
  isVEdge ctx (x, y)
  = edgeBetween (channelSum (ctx x y)) (channelSum (ctx x (y - 1))).
Proof.
  unfold isVEdge, verticalDiff. cbn [fst snd].
  now rewrite !brightnessOf_pixel, !brightnessAt_channelSum.
Qed.

(** X7. In terms of the channel sums s = R + G + B of a pixel and s' of
    its left (respectively upper) neighbour: the pixel is a horizontal
    (vertical) edge whenever |s - s'| > 150 and never when
    |s - s'| < 150.  At |s - s'| = 150 the binary64 rounding of the two
    means decides: 400 against 250 is an edge, 150 against 0 is not. *)
Theorem edge_by_channel_sum (ctx : Canvas) (x y : Z) :
  let s := channelSum (ctx x y) in
  let left := channelSum (ctx (x - 1) y) in
  let up := channelSum (ctx x (y - 1)) in
  (150 < Z.abs (s - left) -> isHEdge ctx (x, y) = true) /\
  (Z.abs (s - left) < 150 -> isHEdge ctx (x, y) = false) /\
  (150 < Z.abs (s - up) -> isVEdge ctx (x, y) = true) /\
  (Z.abs (s - up) < 150 -> isVEdge ctx (x, y) = false) /\
  edgeBetween 400 250 = true /\ edgeBetween 150 0 = false.
Proof.
  cbv zeta. rewrite isHEdge_sum, isVEdge_sum.
  destruct (edgeBetween_spec _ _ (channelSum_bounds (ctx x y))
              (channelSum_bounds (ctx (x - 1) y))) as [A B].
  destruct (edgeBetween_spec _ _ (channelSum_bounds (ctx x y))
              (channelSum_bounds (ctx x (y - 1)))) as [C D].
  repeat (split; [assumption|]). split; vm_compute; reflexivity.
Qed.

(** ** Bounds of the edge counts *)

Lemma countIf_union {A} (f g : A -> bool) l :
  countIf f l + countIf g l - countIf (fun x => f x && g x) l
  <= Z.of_nat (List.length l).
Proof.
  induction l as [|x l IH]; [reflexivity|].
  rewrite !countIf_cons. simpl List.length.
  destruct (f x), (g x); cbn [andb]; lia.
Qed.

(** X8. Each of horizontalEdges and verticalEdges is between 0 and the
    number (width-1)*(height-1) of scanned pixels, and so is the number
    of pixels that are an edge of either kind,
    horizontalEdges + verticalEdges - rectangularShapes; an image with
    a single row or column (or none) has no edge at all. *)
Theorem analyzeEdges_counts_bounded (ctx : Canvas) (width height : Z) :
  let e := analyzeEdges ctx width height in
  let scanned := Z.max 0 (width - 1) * Z.max 0 (height - 1) in
  0 <= horizontalEdges e <= scanned /\
  0 <= verticalEdges e <= scanned /\
  horizontalEdges e + verticalEdges e - rectangularShapes e <= scanned /\
  (width <= 1 \/ height <= 1 ->
   horizontalEdges e = 0 /\ verticalEdges e = 0 /\ rectangularShapes e = 0).
Proof.
  cbv zeta. destruct (edgeLoop_counts ctx width height) as (Hh & Hv & Hr).
  cbv zeta in *. cbn [analyzeEdges horizontalEdges verticalEdges rectangularShapes].
  rewrite Hh, Hv, Hr, <- visited_length.
  set (ps := visited 1 width height).
  pose proof (countIf_nonneg (isHEdge ctx) ps).
  pose proof (countIf_nonneg (isVEdge ctx) ps).
  pose proof (countIf_le_length (isHEdge ctx) ps).
  pose proof (countIf_le_length (isVEdge ctx) ps).
  pose proof (countIf_union (isHEdge ctx) (isVEdge ctx) ps).
  pose proof (countIf_nonneg (fun p => isHEdge ctx p && isVEdge ctx p) ps).
  pose proof (countIf_andb_le (isHEdge ctx) (isVEdge ctx) ps) as [? ?].
  repeat (split; [lia|]).
  intros Hd.
  assert (Z.of_nat (List.length ps) = 0).
  { unfold ps. rewrite visited_length. destruct Hd; nia. }
  lia.
Qed.

Lemma Fpos_2 : Binary64.Fpos 2.
Proof. Binary64.float_const. Qed.

Lemma FR_2 : Binary64.FR 2 = 2%R.
Proof.
  change (Binary64.FR 2) with (Binary64.F2R 4503599627370496 (- (51))).
  rewrite Binary64.F2R_neg by lia. change (2 ^ 51) with 2251799813685248. lra.
Qed.

(** X9. On an image with at least one pixel (2 * width * height below
    2^53), normalizedEdges lies between 0 and 2: a pixel can be counted
    both as a horizontal and as a vertical edge, so the density is not
    bounded by 1. *)
Theorem normalizedEdges_range (ctx : Canvas) (width height : Z)
  (Hwidth : 0 < width) (Hheight : 0 < height)
  (Hsize : 2 * (width * height) < 2 ^ 53) :
  JS.le 0 (normalizedEdges (analyzeEdges ctx width height)) = true /\
  JS.le (normalizedEdges (analyzeEdges ctx width height)) 2 = true.
Proof.
  destruct (edgeLoop_counts ctx width height) as (Hh & Hv & _).
  cbv zeta in *. cbn [analyzeEdges normalizedEdges]. rewrite Hh, Hv.
  set (ps := visited 1 width height).
  pose proof (countIf_nonneg (isHEdge ctx) ps) as H1.
  pose proof (countIf_nonneg (isVEdge ctx) ps) as H2.
  pose proof (countIf_le_length (isHEdge ctx) ps) as H3.
  pose proof (countIf_le_length (isVEdge ctx) ps) as H4.
  assert (Hlen : Z.of_nat (List.length ps) <= width * height).
  { unfold ps. rewrite visited_length. nia. }
  set (n := countIf (isHEdge ctx) ps + countIf (isVEdge ctx) ps) in *.
  assert (Hpos : 0 < width * height) by nia.
  destruct (Binary64.Z2F_nonneg n) as [Hn Hnv]; [lia|].
  destruct (Binary64.Z2F_pos (width * height)) as [Ht Htv]; [lia|].
  destruct (Binary64.F_div_le (JS.Z2F n) (JS.Z2F (width * height)) 2%float)
    as [Hq Hqv]; auto using Fpos_2.
  { rewrite Hnv, Htv, FR_2, <- mult_IZR. apply IZR_le. lia. }
  split.
  - apply Binary64.F_leb; [apply Binary64.Fnonneg_0|exact Hq|].
    rewrite Binary64.FR_0. now apply Binary64.Fnonneg_FR.
  - apply Binary64.F_leb; [exact Hq|apply Binary64.Fpos_nonneg, Fpos_2|exact Hqv].
Qed.

(** A 4 x 4 checkerboard of black and white pixels. *)
Definition white : Pixel :=
  {| red := Byte.xff; green := Byte.xff; blue := Byte.xff; alpha := Byte.xff |}.

Definition checkerboard : Canvas := fun x y =>
  if Z.even (x + y) then black else white.

(** Every scanned pixel of the checkerboard is an edge of both kinds:
    18 edges on 16 pixels. *)
Example normalizedEdges_above_one :
  normalizedEdges (analyzeEdges checkerboard 4 4) = 1.125%float.
Proof. vm_compute. reflexivity. Qed.

(** ** Images of a single colour *)

Lemma binary_round_aux_sign sx mx ex lx :
  match binary_round_aux prec emax sx mx ex lx with
  | S754_zero s | S754_infinity s | S754_finite s _ _ => s = sx
  | S754_nan => True
  end.
Proof.
  unfold binary_round_aux.
  destruct (shr_fexp prec emax mx ex lx) as [mrs' e'].
  destruct (shr_fexp prec emax _ e' loc_Exact) as [mrs'' e''].
  destruct (shr_m mrs''); [reflexivity| |exact I].
  destruct (e'' <=? emax - prec); reflexivity.
Qed.

(** The product of two positive numbers is not below zero. *)
Lemma F_mul_not_neg x y :
  Binary64.Fpos x -> Binary64.Fpos y -> (x * y <? 0)%float = false.
Proof.
  intros (mx & ex & Hx) (my & ey & Hy).
  rewrite ltb_spec, mul_spec, Hx, Hy.
  change (Prim2SF 0) with (S754_zero false).
  unfold SF64mul, SFmul. cbn [xorb].
  pose proof (binary_round_aux_sign false (Zpos (mx * my)) (ex + ey) loc_Exact) as H.
  destruct (binary_round_aux prec emax false (Zpos (mx * my)) (ex + ey) loc_Exact)
    as [s|s| |s m e]; try subst s; reflexivity.
Qed.

Lemma Fpos_001 : Binary64.Fpos 0.01.
Proof. Binary64.float_const. Qed.

Lemma within20_refl c : within20 c c = true.
Proof. unfold within20. now rewrite !Z.sub_diag. Qed.

Lemma single_colour_edges ctx width height c :
  (forall x y, 0 <= x < width -> 0 <= y < height -> sameColour (ctx x y) c) ->
  let ea := analyzeEdges ctx width height in
  horizontalEdges ea = 0 /\ verticalEdges ea = 0 /\ rectangularShapes ea = 0.
Proof.
  intros Hcolour.
  assert (Hsum : forall x y, 0 <= x < width -> 0 <= y < height ->
                   channelSum (ctx x y) = channelSum c).
  { intros x y Hx Hy. now apply sameColour_sum, Hcolour. }
  assert (Hflat : edgeBetween (channelSum c) (channelSum c) = false).
  { apply edgeBetween_spec; try apply channelSum_bounds.
    rewrite Z.sub_diag. cbn. lia. }
  destruct (edgeLoop_counts ctx width height) as (Hh & Hv & Hr). cbv zeta in *.
  cbn [analyzeEdges horizontalEdges verticalEdges rectangularShapes].
  assert (Eh : countIf (isHEdge ctx) (visited 1 width height) = 0).
  { apply countIf_none. intros [x y] Hin. apply visited_In in Hin.
    rewrite isHEdge_sum, !Hsum by lia. exact Hflat. }
  assert (Ev : countIf (isVEdge ctx) (visited 1 width height) = 0).
  { apply countIf_none. intros [x y] Hin. apply visited_In in Hin.
    rewrite isVEdge_sum, !Hsum by lia. exact Hflat. }
  pose proof (countIf_andb_le (isHEdge ctx) (isVEdge ctx) (visited 1 width height)).
  pose proof (countIf_nonneg (fun p => isHEdge ctx p && isVEdge ctx p)
                (visited 1 width height)).
  lia.
Qed.

Lemma single_colour_patterns ctx width height c :
  (forall x y, 0 <= x < width -> 0 <= y < height -> sameColour (ctx x y) c) ->
  regularPatterns (analyzePatterns ctx width height)
  = Z.max 0 (width - 3) * Z.max 0 (height - 3).
Proof.
  intros Hcolour. rewrite analyzePatterns_count, <- visited_length.
  apply countIf_all. intros [x y] Hin. apply visited_In in Hin.
  rewrite isRegularAt_regularAt. unfold regularAt.
  apply forallb_forall. intros [u v] Hq. apply block_In in Hq.
  cbn [fst snd] in *. rewrite <- (within20_refl c).
  apply sameColour_within20; apply Hcolour; lia.
Qed.

(** X10. An image of a single colour (every pixel has the same R, G and
    B; 0 < width, 0 < height, width * height below 2^53) has no edge,
    edge density 0 and a regular pattern at every scanned pixel, and is
    classified, whatever its colour statistics, as
    'Simple Graphic or Icon', neither a UI screen nor text. *)
Theorem single_colour_image (ctx : Canvas) (width height : Z) (c : Pixel)
  (ca : ColorAnalysis)
  (Hwidth : 0 < width) (Hheight : 0 < height)
  (Hsize : width * height < 2 ^ 53)
  (Hcolour : forall x y, 0 <= x < width -> 0 <= y < height ->
                         sameColour (ctx x y) c) :
  let ea := analyzeEdges ctx width height in
  let pa := analyzePatterns ctx width height in
  let r := analyzeContent ca ea pa in
  horizontalEdges ea = 0 /\ verticalEdges ea = 0 /\ rectangularShapes ea = 0 /\
  normalizedEdges ea = 0%float /\
  regularPatterns pa = Z.max 0 (width - 3) * Z.max 0 (height - 3) /\
  isUIScreen r = false /\ hasText r = false /\
  contentType r = "Simple Graphic or Icon".
Proof.
  intros ea pa r.
  assert (Hn : 0 < width * height < 2 ^ 53) by nia.
  destruct (Binary64.Z2F_pos _ Hn) as [Htp Htv].
  destruct (single_colour_edges ctx width height c Hcolour) as (Hh & Hv & Hr).
  fold ea in Hh, Hv, Hr.
  pose proof (single_colour_patterns ctx width height c Hcolour) as Hrp.
  fold pa in Hrp.
  assert (Hne : normalizedEdges ea = 0%float).
  { unfold ea in *. cbn [analyzeEdges normalizedEdges horizontalEdges verticalEdges] in *.
    rewrite Hh, Hv.
    change (JS.Z2F (0 + 0)) with 0%float. apply Binary64.F_zero_div.
    apply Binary64.F_ltb;
      [apply Binary64.Fnonneg_0|now apply Binary64.Fpos_nonneg|].
    rewrite Binary64.FR_0. now apply Binary64.Fpos_FR. }
  assert (Hrect : JS.gt (JS.Z2F (rectangularShapes ea))
                    (JS.Z2F (totalPixels pa) * 0.01)%float = false).
  { rewrite Hr. unfold pa. cbn [analyzePatterns totalPixels].
    change (JS.Z2F 0) with 0%float. unfold JS.gt.
    apply F_mul_not_neg; [exact Htp|exact Fpos_001]. }
  repeat (split; [assumption|]).
  unfold r, analyzeContent. cbv zeta.
  cbn [isUIScreen hasText contentType]. rewrite Hrect, Hh, Hv, Hne.
  cbn [andb].
  change (JS.gt (JS.Z2F 0) (JS.Z2F 0 * 1.5)%float) with false.
  cbn [andb]. change (JS.lt 0 0.05) with true. cbv iota.
  repeat split.
Qed.

(** ** The all-white image *)

Lemma uniform_quads ctx width height c :
  (forall x y, 0 <= x < width -> 0 <= y < height -> ctx x y = c) ->
  Forall (fun p => p = c) (quads (getImageData ctx 0 0 width height)).
Proof.
  intros Hc. rewrite quads_getImageData. apply Forall_forall.
  intros p Hp. apply in_flat_map in Hp as (y & Hy & Hp).
  apply in_map_iff in Hp as (x & <- & Hx).
  apply range_In in Hy, Hx. apply Hc; lia.
Qed.

Lemma canvas_quads_length ctx width height :
  0 <= width -> 0 <= height ->
  Z.of_nat (List.length (quads (getImageData ctx 0 0 width height)))
  = width * height.
Proof.
  intros Hw Hh. rewrite quads_getImageData.
  change (0 + width) with width. change (0 + height) with height.
  assert (H : forall ys,
    Z.of_nat (List.length
      (flat_map (fun y => map (fun x => ctx x y) (range 0 width)) ys))
    = Z.of_nat (List.length ys) * width).
  { induction ys as [|y ys IH]; cbn [flat_map List.length]; [lia|].
    rewrite length_app, length_map, Nat2Z.inj_add, IH, Nat2Z.inj_succ.
    rewrite (range_length 0 width). lia. }
  rewrite H, (range_length 0 height). lia.
Qed.

(** The brightness of white pixels adds up without rounding. *)
Lemma white_sum ps k :
  Forall (fun p => p = white) ps -> 0 <= k ->
  255 * (k + Z.of_nat (List.length ps)) < 2 ^ 53 ->
  sumBrightness ps (JS.Z2F (255 * k))
  = JS.Z2F (255 * (k + Z.of_nat (List.length ps))).
Proof.
  intros H. revert k. induction H as [|p ps -> _ IH]; intros k Hk Hlim.
  - cbn. now rewrite Z.add_0_r.
  - unfold sumBrightness. cbn [fold_left]. fold (sumBrightness ps).
    change (opaque white) with true. cbv iota.
    change (brightnessOfPixel white) with (JS.Z2F 255).
    cbn [List.length] in *.
    rewrite Binary64Exact.Z2F_add by lia.
    replace (255 * k + 255) with (255 * (k + 1)) by lia.
    rewrite IH by lia. f_equal. lia.
Qed.

Definition whiteKey : string := "rgb(256,256,256)".

Lemma white_keys data :
  Forall (fun p => p = white) (quads data) ->
  opaqueKeys data = repeat whiteKey (List.length (quads data)).
Proof.
  induction data as [l Hl|r g b a rest IH] using quad_ind; intros H.
  - destruct l as [|? [|? [|? [|? ?]]]]; try reflexivity. simpl in Hl; lia.
  - cbn [quads] in H. inversion H as [|? ? Hp Hrest]; subst.
    injection Hp as -> -> -> ->.
    cbn [opaqueKeys quads List.length repeat].
    change (chan Byte.xff <? 128) with false. cbv iota.
    change (quantizedColor Byte.xff Byte.xff Byte.xff) with whiteKey.
    f_equal. now apply IH.
Qed.

Lemma firstSeen_repeat k n :
  firstSeen (repeat k n) = match n with O => [] | S _ => [k] end.
Proof.
  induction n as [|n IH]; [reflexivity|].
  cbn [repeat firstSeen]. rewrite IH. destruct n; [reflexivity|].
  cbn [filter]. now rewrite String.eqb_refl.
Qed.

(** X11. An all-white opaque image (0 < width, 0 < height,
    255 * width * height below 2^53) has darkRatio 0, lightRatio 1 and
    brightness exactly 1 - the binary64 sum of the brightnesses and its
    quotients are exact -, the single dominant colour
    'rgb(256,256,256)', no edge, and a regular pattern at every scanned
    pixel. *)
Theorem all_white_image (ctx : Canvas) (width height : Z)
  (Hwidth : 0 < width) (Hheight : 0 < height)
  (Hsize : 255 * (width * height) < 2 ^ 53)
  (Hwhite : forall x y, 0 <= x < width -> 0 <= y < height -> ctx x y = white) :
  let ca := analyzeColors (getImageData ctx 0 0 width height)
              (JS.Z2F (width * height)) in
  let ea := analyzeEdges ctx width height in
  let pa := analyzePatterns ctx width height in
  darkRatio ca = 0%float /\ lightRatio ca = 1%float /\ brightness ca = 1%float /\
  dominantColors ca = ["rgb(256,256,256)"] /\
  horizontalEdges ea = 0 /\ verticalEdges ea = 0 /\ rectangularShapes ea = 0 /\
  regularPatterns pa = Z.max 0 (width - 3) * Z.max 0 (height - 3).
Proof.
  cbv zeta. set (data := getImageData ctx 0 0 width height).
  assert (Hn : 0 < width * height) by nia.
  pose proof (uniform_quads ctx width height white Hwhite) as Hq. fold data in Hq.
  pose proof (canvas_quads_length ctx width height ltac:(lia) ltac:(lia)) as Hlen.
  fold data in Hlen.
  destruct (colorLoop_scan data colorInit) as (Hd & Hl & Hb).
  cbn [darkPixels lightPixels brightnessSum colorInit] in Hd, Hl, Hb.
  rewrite (countIf_none isDark) in Hd
    by (intros p Hp; rewrite Forall_forall in Hq; now rewrite (Hq p Hp)).
  rewrite (countIf_all isLight) in Hl
    by (intros p Hp; rewrite Forall_forall in Hq; now rewrite (Hq p Hp)).
  change 0%float with (JS.Z2F (255 * 0)) in Hb.
  rewrite (white_sum _ 0 Hq) in Hb by lia.
  rewrite Hlen in Hl, Hb. cbn [Z.add] in Hd, Hl, Hb.
  destruct (Binary64.Z2F_pos (width * height)) as [Htp _]; [lia|].
  assert (Hgt : JS.gt (JS.Z2F (width * height)) 0 = true).
  { apply Binary64.F_ltb;
      [apply Binary64.Fnonneg_0|now apply Binary64.Fpos_nonneg|].
    rewrite Binary64.FR_0. now apply Binary64.Fpos_FR. }
  unfold analyzeColors. cbn [darkRatio lightRatio brightness dominantColors].
  rewrite Hd, Hl, Hb. change (JS.Z2F 0) with 0%float.
  rewrite (Binary64.F_div_self _ Htp), (Binary64.F_zero_div _ Hgt).
  rewrite Binary64Exact.Z2F_div by lia.
  change (JS.Z2F 255) with 255%float.
  rewrite (Binary64.F_div_self _ Binary64.Fpos_255).
  split; [reflexivity|]. split; [reflexivity|]. split; [reflexivity|].
  split.
  { rewrite colorCounts_tally, (white_keys data Hq).
    unfold tally. rewrite firstSeen_repeat.
    destruct (List.length (quads data)) eqn:E; [lia|]. reflexivity. }
  assert (Hsame : forall x y, 0 <= x < width -> 0 <= y < height ->
                    sameColour (ctx x y) white).
  { intros x y Hx Hy. rewrite Hwhite by assumption. repeat split. }
  destruct (single_colour_edges ctx width height white Hsame) as (Hh & Hv & Hr).
  repeat (split; [assumption|]).
  now apply single_colour_patterns with (c := white).
Qed.

(** ** Colour keys *)

Definition levelTriples : list (Z * Z * Z) :=
  flat_map (fun a => flat_map (fun b => map (fun c => (a, b, c)) quantLevels)
                       quantLevels) quantLevels.

Definition sameTriple (t u : Z * Z * Z) : bool :=
  (fst (fst t) =? fst (fst u)) && (snd (fst t) =? snd (fst u))
  && (snd t =? snd u).

Definition keyOf (t : Z * Z * Z) : string :=
  colorKey (fst (fst t)) (snd (fst t)) (snd t).

(** Every triple of levels with its key. *)
Definition keyedTriples : list ((Z * Z * Z) * string) :=
  map (fun t => (t, keyOf t)) levelTriples.

(** Two triples have the same key only if they are equal. *)
Definition keyCheck (t u : (Z * Z * Z) * string) : bool :=
  Bool.eqb (String.eqb (snd t) (snd u)) (sameTriple (fst t) (fst u)).

Lemma keyTable_ok :
  forallb (fun t => forallb (keyCheck t) keyedTriples) keyedTriples = true.
Proof. vm_compute. reflexivity. Qed.

Lemma keyedTriples_In r g b :
  In ((quantize r, quantize g, quantize b), quantizedColor r g b) keyedTriples.
Proof.
  unfold keyedTriples. apply in_map_iff.
  exists (quantize r, quantize g, quantize b). split; [reflexivity|].
  unfold levelTriples. apply in_flat_map. exists (quantize r).
  split; [apply quantize_levels|].
  apply in_flat_map. exists (quantize g). split; [apply quantize_levels|].
  apply in_map_iff. exists (quantize b). split; [reflexivity|apply quantize_levels].
Qed.

(** X12. The colour key names the quantized colour faithfully: two
    pixels get the same key exactly when each of their three channels
    is quantized to the same level, so colorCounts counts the opaque
    pixels of each quantized colour. *)
Theorem quantizedColor_same_key (r g b r' g' b' : Byte.byte) :
  quantizedColor r g b = quantizedColor r' g' b' <->
  quantize r = quantize r' /\ quantize g = quantize g' /\ quantize b = quantize b'.
Proof.
  split.
  - intros E. pose proof keyTable_ok as H. rewrite forallb_forall in H.
    specialize (H _ (keyedTriples_In r g b)). rewrite forallb_forall in H.
    specialize (H _ (keyedTriples_In r' g' b')).
    unfold keyCheck, sameTriple in H. cbn [fst snd] in H.
    rewrite E, String.eqb_refl in H. apply eqb_prop in H. symmetry in H.
    rewrite !andb_true_iff, !Z.eqb_eq in H. tauto.
  - intros (Hr & Hg & Hb). unfold quantizedColor. now rewrite Hr, Hg, Hb.
Qed.

(** ** Flags and labels *)

(** No number is below one threshold and above a larger one. *)
Lemma F_lt_gt_exclusive a lo hi :
  Binary64.Fpos lo -> Binary64.Fpos hi -> (lo <=? hi)%float = true ->
  (a <? lo)%float && (hi <? a)%float = false.
Proof.
  intros Hlo Hhi Hle.
  apply Binary64.F_leb in Hle; try now apply Binary64.Fpos_nonneg.
  destruct (a <? lo)%float eqn:H1; [cbn [andb]|reflexivity].
  destruct (hi <? a)%float eqn:H2; [exfalso|reflexivity].
  destruct Hlo as (ml & el & El). destruct Hhi as (mh & eh & Eh).
  assert (Ha : Binary64.Fnonneg a).
  { unfold Binary64.Fnonneg. rewrite ltb_spec in H1, H2. rewrite El in H1.
    rewrite Eh in H2. pose proof (Prim2SF_valid a) as Hv.
    destruct (Prim2SF a) as [s|s| |[] m e]; try discriminate;
      try (constructor; assumption).
    - destruct s; discriminate.
    }
  apply Binary64.F_ltb in H1; [|exact Ha|apply Binary64.Fpos_nonneg; now exists ml, el].
  apply Binary64.F_ltb in H2; [|apply Binary64.Fpos_nonneg; now exists mh, eh|exact Ha].
  lra.
Qed.

Lemma Fpos_02 : Binary64.Fpos 0.2. Proof. Binary64.float_const. Qed.
Lemma Fpos_01 : Binary64.Fpos 0.1. Proof. Binary64.float_const. Qed.
Lemma Fpos_005 : Binary64.Fpos 0.05. Proof. Binary64.float_const. Qed.

(** X13. The flags and the label of a classification agree.  An error
    screen is never in dark mode (darkRatio cannot be below 0.2 and
    above 0.7), so the error suffix never hides a dark theme.
    isUIScreen holds exactly when the label is one of the four
    'User Interface' labels; the label 'Document or Text Content'
    implies hasText, and the label 'Simple Graphic or Icon' excludes it
    (an edge density below 0.05 is not above 0.1). *)
Theorem flags_agree_with_label (ca : ColorAnalysis) (ea : EdgeAnalysis)
  (pa : PatternAnalysis) :
  let r := analyzeContent ca ea pa in
  isErrorScreen r && isDarkMode r = false /\
  (isUIScreen r = true <->
   In (contentType r)
      [ "User Interface (Error Screen)"; "User Interface (Dark Theme)";
        "User Interface (Light Theme)"; "User Interface" ]) /\
  (contentType r = "User Interface (Dark Theme)" -> isDarkMode r = true) /\
  (contentType r = "User Interface (Light Theme)" ->
   isLightMode r = true /\ isDarkMode r = false) /\
  (contentType r = "Document or Text Content" -> hasText r = true) /\
  (contentType r = "Simple Graphic or Icon" -> hasText r = false).
Proof.
  cbv zeta. unfold analyzeContent.
  cbn [isUIScreen hasText isErrorScreen isDarkMode isLightMode contentType].
  set (ui := JS.gt _ _ && JS.gt _ _).
  set (edgy := JS.gt (JS.Z2F (horizontalEdges ea)) _).
  set (ne := normalizedEdges ea).
  set (err := existsb isErrorColor (dominantColors ca)).
  pose proof (F_lt_gt_exclusive (darkRatio ca) 0.2 0.7 Fpos_02 Binary64.Fpos_07
                ltac:(reflexivity)) as Hdark.
  pose proof (F_lt_gt_exclusive ne 0.05 0.1 Fpos_005 Fpos_01
                ltac:(reflexivity)) as Hne.
  fold (JS.lt (darkRatio ca) 0.2) (JS.gt (darkRatio ca) 0.7) in Hdark.
  fold (JS.lt ne 0.05) (JS.gt ne 0.1) in Hne.
  set (dark := JS.gt (darkRatio ca) 0.7) in *.
  set (light := JS.gt (lightRatio ca) 0.7).
  set (low := JS.lt ne 0.05) in *.
  set (above01 := JS.gt ne 0.1) in *.
  set (above02 := JS.gt ne 0.2).
  assert (Herr : JS.lt (darkRatio ca) 0.2 && JS.gt (lightRatio ca) 0.6 && err
                 && dark = false).
  { destruct (JS.lt (darkRatio ca) 0.2); [|reflexivity].
    cbn [andb] in Hdark. rewrite Hdark. apply andb_false_r. }
  set (error := JS.lt (darkRatio ca) 0.2 && JS.gt (lightRatio ca) 0.6 && err) in *.
  clearbody ui edgy err dark light low above01 above02 error.
  split; [exact Herr|].
  split.
  { destruct ui.
    - split; [intros _|reflexivity].
      destruct error; [left; reflexivity|].
      destruct dark; [right; left; reflexivity|].
      destruct light; [right; right; left; reflexivity|].
      right; right; right; left; reflexivity.
    - split; [discriminate|]. intros H. exfalso.
      destruct (edgy && above01 && above02), low; cbn [In] in H;
        repeat (destruct H as [H|H]; try discriminate H); exact H. }
  split.
  { destruct ui, error, dark; try reflexivity; intros H; try discriminate H;
      destruct light; try discriminate H;
      destruct (edgy && above01 && above02), low; discriminate H. }
  split.
  { destruct ui, error, dark, light; intros H; try discriminate H;
      try (split; reflexivity);
      destruct (edgy && above01 && above02), low; discriminate H. }
  split.
  { destruct ui.
    - destruct error, dark, light; intros H; discriminate H.
    - destruct (edgy && above01) eqn:E; [reflexivity|]. cbn [andb].
      destruct low; intros H; discriminate H. }
  destruct ui.
  - destruct error, dark, light; intros H; discriminate H.
  - destruct low; cbn [andb] in Hne.
    + rewrite Hne. intros _. apply andb_false_r.
    + destruct (edgy && above01 && above02); intros H; discriminate H.
Qed.

(** * The orchestrator, step by step *)

Section ProcessImageSteps.
Import Orchestrator.
Context {Image : Type} (env : Browser Image).

Lemma unsupportedMessage_text :
  unsupportedMessage
  = "Unsupported image format. Supported formats: jpeg, png, webp, gif".
Proof. reflexivity. Qed.

Lemma tooLargeMessage_text :
  tooLargeMessage = "Image size exceeds maximum limit of 10MB".
Proof. reflexivity. Qed.

Lemma array_includes_In l s : JS.array_includes l s = true <-> In s l.
Proof.
  unfold JS.array_includes. rewrite existsb_exists. split.
  - intros (x & Hx & E). apply String.eqb_eq in E. now subst.
  - intros H. exists s. split; [exact H|apply String.eqb_refl].
Qed.

(** X14. processImage ends in one of four ways.  Without any browser
    call, with the failure text for 'No image provided', the
    unsupported-format message or the size message; after reading the
    file, with the failure text for one of the two reader errors; after
    reading and decoding, with the failure text for 'Failed to load
    image' or for 'Failed to analyze image: ' followed by a message; or,
    when reading, decoding, the canvas context and the analysis all
    succeed, with the analysis report itself, after exactly one read
    and one decode and with nothing logged.  console.error is called
    exactly when the failure text is returned. *)
Theorem processImage_outcomes (image : option File) (tr : list event) :
  let result := processImage env image tr in
  (exists m,
     In m ["No image provided";
           "Unsupported image format. Supported formats: jpeg, png, webp, gif";
           "Image size exceeds maximum limit of 10MB"] /\
     result = (Return (failureText m), tr ++ [ConsoleError])) \/
  (exists m,
     In m ["Failed to read image file"; "Error reading image file"] /\
     result = (Return (failureText m), tr ++ [ReadAsDataURL; ConsoleError])) \/
  (exists m,
     (m = "Failed to load image" \/
      exists reason, m = ("Failed to analyze image: " ++ reason)%string) /\
     result
     = (Return (failureText m), tr ++ [ReadAsDataURL; DecodeImage; ConsoleError])) \/
  (exists f url img report,
     image = Some f /\ readAsDataURL env f = ReadString url /\
     loadImage env url = Some img /\ hasContext env img = true /\
     analysis env img = Return report /\
     result = (Return report, tr ++ [ReadAsDataURL; DecodeImage])).
Proof.
  cbv zeta.
  unfold processImage, processBody, readFile, analyzeImageLocally,
    try_catch, bind, emit, ret, throw.
  destruct image as [f|].
  2:{ left. exists "No image provided". split; [now left|reflexivity]. }
  destruct (JS.array_includes SUPPORTED_FORMATS (type f)); cbv beta iota delta [negb].
  2:{ left. eexists. split; [right; left; reflexivity|reflexivity]. }
  destruct (size f >? MAX_IMAGE_SIZE).
  { left. eexists. split; [right; right; left; reflexivity|reflexivity]. }
  destruct (readAsDataURL env f) as [url| |] eqn:Hread.
  2:{ right; left. eexists. split; [left; reflexivity|].
      now rewrite <- app_assoc. }
  2:{ right; left. eexists. split; [right; left; reflexivity|].
      now rewrite <- app_assoc. }
  right; right.
  destruct (loadImage env url) as [img|] eqn:Hload.
  2:{ left. eexists. split; [left; reflexivity|]. now rewrite <- !app_assoc. }
  destruct (hasContext env img) eqn:Hctx; cbv beta iota delta [negb].
  2:{ left. eexists. split; [right; eexists; reflexivity|].
      now rewrite <- !app_assoc. }
  destruct (analysis env img) as [report|t] eqn:Han.
  - right. exists f, url, img, report. rewrite <- app_assoc. now repeat split.
  - left. eexists. split; [right; eexists; reflexivity|].
    now rewrite <- !app_assoc.
Qed.

(** X15. The file is read exactly when its type is one of image/jpeg,
    image/png, image/webp and image/gif and its size is at most
    10485760 bytes (a file of exactly 10 MiB is accepted); the image is
    decoded exactly when, in addition, the reader delivered a string. *)
Theorem processImage_reads_iff (f : File) :
  let calls := snd (processImage env (Some f) []) in
  (In ReadAsDataURL calls <->
   In (type f) ["image/jpeg"; "image/png"; "image/webp"; "image/gif"] /\
   size f <= 10485760) /\
  (In DecodeImage calls <->
   In ReadAsDataURL calls /\ exists url, readAsDataURL env f = ReadString url).
Proof.
  cbv zeta.
  assert (Hacc : In (type f) ["image/jpeg"; "image/png"; "image/webp"; "image/gif"]
                 <-> JS.array_includes SUPPORTED_FORMATS (type f) = true)
    by (symmetry; apply array_includes_In).
  rewrite Hacc. clear Hacc.
  unfold processImage, processBody, readFile, analyzeImageLocally,
    try_catch, bind, emit, ret, throw.
  destruct (JS.array_includes SUPPORTED_FORMATS (type f));
    cbv beta iota delta [negb].
  2:{ cbn [snd app In]. intuition discriminate. }
  destruct (Z.gtb_spec (size f) MAX_IMAGE_SIZE) as [Hs|Hs];
    unfold MAX_IMAGE_SIZE in Hs.
  { cbn [snd app In]. intuition (discriminate || lia). }
  assert (Hsize : size f <= 10485760) by lia. clear Hs.
  destruct (readAsDataURL env f) as [url| |].
  - assert (Hurl : exists url0, ReadString url = ReadString url0) by eauto.
    destruct (loadImage env url) as [img|];
      [|cbn [snd app In]; intuition discriminate].
    destruct (hasContext env img); cbv beta iota delta [negb];
      [|cbn [snd app In]; intuition discriminate].
    destruct (analysis env img); cbn [snd app In]; intuition discriminate.
  - cbn [snd app In].
    assert (Hno : ~ exists url0, ReadOther = ReadString url0)
      by (intros [u Hu]; discriminate).
    intuition discriminate.
  - cbn [snd app In].
    assert (Hno : ~ exists url0, ReadFailed = ReadString url0)
      by (intros [u Hu]; discriminate).
    intuition discriminate.
Qed.

End ProcessImageSteps.

(** * The diagram label *)

Section Diagram.
Import Visualization.







(** The labels of the classifier. *)
Definition contentTypes : list string :=
  [ "User Interface (Error Screen)"; "User Interface (Dark Theme)";
    "User Interface (Light Theme)"; "User Interface";
    "Document or Text Content"; "Simple Graphic or Icon";
    "Complex Image or Photo" ].

(** X17. The classifier returns one of seven labels - never the
    'Unknown' it starts from - and the diagram shows each of them
    unchanged: sanitizing deletes nothing from a label the classifier
    can produce. *)
Theorem contentType_shown_unchanged (ca : ColorAnalysis) (ea : EdgeAnalysis)
  (pa : PatternAnalysis) :
  let result := analyzeContent ca ea pa in
  In (contentType result) contentTypes /\
  contentType result <> "Unknown" /\
  sanitizedContentType result = contentType result.
Proof.
  cbv zeta. unfold sanitizedContentType, analyzeContent. cbn [contentType].
  repeat match goal with
         | |- context [if ?b then _ else _] => destruct b
         end;
    (split; [vm_compute; tauto|split; [discriminate|reflexivity]]).
Qed.

End Diagram.

(** * The chat providers *)

Section Providers.
Import AIProviders.
Context {Image : Type} (w : World Image).

(** The orchestrator returns a text in every case. *)
Lemma processImage_returns (image : option Orchestrator.File) tr :
  exists text tr',
    Orchestrator.processImage (browser w) image tr = (Orchestrator.Return text, tr').
Proof.
  unfold Orchestrator.processImage, Orchestrator.try_catch.
  destruct (Orchestrator.processBody (browser w) image tr) as [[r|t] tr'];
    [now exists r, tr'|].
  now exists (Orchestrator.failureText (Orchestrator.messageOf t)),
             (tr' ++ [Orchestrator.ConsoleError]).
Qed.

(** One exchange, as it is stored. *)
Definition turn (question answer : string) : list ChatMessage :=
  [ {| role := user; content := question |};
    {| role := assistant; content := answer |} ].

(** The system prompt followed by whole exchanges. *)
Definition conversation (turns : list (string * string)) : list ChatMessage :=
  systemMessage :: flat_map (fun t => turn (fst t) (snd t)) turns.

(** The client the configuration selects. *)
Definition selectedClient (s : Store) (c : AIConfig) : option string :=
  match provider c with
  | openai => openaiClient s
  | claude => claudeClient s
  end.

Definition consistent (s : Store) : Prop :=
  match config s with
  | None => True
  | Some c =>
      selectedClient s c = Some (apiKey c) /\ apiKey c <> "" /\
      exists turns, messageHistory s = conversation turns
  end.

(** The stores the exported functions can produce from the initial one. *)
Inductive reachable : Store -> Prop :=
| reach_initial : reachable initial
| reach_initializeAI s provider apiKey :
    reachable s -> reachable (snd (initializeAI w provider apiKey s))
| reach_getChatCompletion s message image :
    reachable s -> reachable (snd (getChatCompletion w message image s)).

(** Only the trace differs. *)
Definition sameVariables (s s' : Store) : Prop :=
  config s' = config s /\ openaiClient s' = openaiClient s /\
  claudeClient s' = claudeClient s /\ messageHistory s' = messageHistory s.

Lemma sameVariables_refl s : sameVariables s s.
Proof. repeat split. Qed.

Lemma sameVariables_emitAll es s : sameVariables s (emitAll es s).
Proof. repeat split. Qed.

(** The text sent for a message: the message itself, or, with an image,
    the text of the orchestrator, an empty line and the message. *)
Definition withAnalysis (text message : string) : string :=
  (text ++ nl ++ nl ++ "User Message: " ++ message)%string.

Lemma userContent_spec message image s :
  exists content calls,
    userContent w message image s = (Ok content, emitAll (map BrowserCall calls) s) /\
    match image with
    | None => content = message /\ calls = []
    | Some f =>
        exists text,
          Orchestrator.processImage (browser w) (Some f) []
          = (Orchestrator.Return text, calls) /\
          content = withAnalysis text message
    end.
Proof.
  destruct image as [f|].
  - destruct (processImage_returns (Some f) []) as (text & calls & E).
    exists (withAnalysis text message), calls. split; [|now exists text].
    unfold userContent, attempt, andThen, processImage. rewrite E. reflexivity.
  - exists message, []. split; [|now split].
    unfold userContent, pure, emitAll. cbn [map]. rewrite app_nil_r.
    now destruct s.
Qed.

(** The messages of a Claude request that come from the history. *)
Definition claudeMessages (history : list ChatMessage) : list ChatMessage :=
  map (fun msg => {| role := if isSystem (role msg) then user else role msg;
                     content := content msg |})
      (filter (fun msg => negb (isSystem (role msg))) history).

(** What the two [catch] blocks throw for a caught error. *)
Definition claudeFailure (error : exn) : exn :=
  if statusIs error 401 then Error "Invalid Claude API key"
  else if statusIs error 403 then
    Error "Access denied. Please check your Claude API key permissions."
  else if messageIncludes error "Failed to fetch" then
    Error "Unable to connect to Claude API. Please check your internet connection and try again."
  else Error (orElse (errorMessage error)
                "An unexpected error occurred while connecting to Claude API").

Definition openaiFailure (error : exn) : exn :=
  if statusIs error 401 then Error "Invalid OpenAI API key"
  else Error (orElse (errorMessage error) "Failed to get response from OpenAI").

Definition userMessage (content : string) : ChatMessage :=
  {| role := user; content := content |}.

Lemma getClaudeCompletion_spec message image s client :
  claudeClient s = Some client ->
  exists content calls,
    userContent w message image s = (Ok content, emitAll (map BrowserCall calls) s) /\
    let s1 := emitAll (map BrowserCall calls) s in
    let msgs := claudeMessages (messageHistory s) ++ [userMessage content] in
    let s2 := emitAll [Request claude client msgs] s1 in
    getClaudeCompletion w message image s
    = match claudeCreate w (trace s1) client msgs with
      | Ok text =>
          (Ok text, setMessageHistory (messageHistory s ++ turn message text) s2)
      | Thrown e => (Thrown (claudeFailure e), emitAll [ConsoleError] s2)
      end.
Proof.
  intros Hc. destruct (userContent_spec message image s) as (content & calls & E & _).
  exists content, calls. split; [exact E|]. cbv zeta.
  unfold getClaudeCompletion, andThen at 1, read. rewrite Hc.
  unfold attempt, andThen, read. rewrite E. unfold sendClaude.
  fold (claudeMessages (messageHistory s)). fold (userMessage content).
  destruct (claudeCreate w _ client _) as [text|e].
  - reflexivity.
  - unfold claudeFailure, emit, update, raise.
    destruct (statusIs e 401); [reflexivity|].
    destruct (statusIs e 403); [reflexivity|].
    destruct (messageIncludes e "Failed to fetch"); reflexivity.
Qed.

Lemma getOpenAICompletion_spec message image s client :
  openaiClient s = Some client ->
  exists content calls,
    userContent w message image s = (Ok content, emitAll (map BrowserCall calls) s) /\
    let s1 := emitAll (map BrowserCall calls) s in
    let msgs := messageHistory s ++ [userMessage content] in
    let s2 := emitAll [Request openai client msgs] s1 in
    getOpenAICompletion w message image s
    = match openaiCreate w (trace s1) client msgs with
      | Ok completion =>
          let text := orElse completion "Sorry, I could not process your request." in
          (Ok text, setMessageHistory (messageHistory s ++ turn message text) s2)
      | Thrown e => (Thrown (openaiFailure e), s2)
      end.
Proof.
  intros Hc. destruct (userContent_spec message image s) as (content & calls & E & _).
  exists content, calls. split; [exact E|]. cbv zeta.
  unfold getOpenAICompletion, andThen at 1, read. rewrite Hc.
  unfold attempt, andThen, read. rewrite E. unfold sendOpenAI.
  fold (userMessage content).
  destruct (openaiCreate w _ client _) as [completion|e].
  - reflexivity.
  - unfold openaiFailure, raise. destruct (statusIs e 401); reflexivity.
Qed.

Lemma failure_is_Error (f : exn -> exn) :
  (f = claudeFailure \/ f = openaiFailure) -> forall e, exists m, f e = Error m.
Proof.
  intros [-> | ->] e.
  - unfold claudeFailure.
    destruct (statusIs e 401); [eauto|].
    destruct (statusIs e 403); [eauto|].
    destruct (messageIncludes e "Failed to fetch"); eauto.
  - unfold openaiFailure. destruct (statusIs e 401); eauto.
Qed.

Lemma getChatCompletion_variables message image s :
  let r := fst (getChatCompletion w message image s) in
  let s' := snd (getChatCompletion w message image s) in
  config s' = config s /\ openaiClient s' = openaiClient s /\
  claudeClient s' = claudeClient s /\
  match r with
  | Ok answer => messageHistory s' = messageHistory s ++ turn message answer
  | Thrown e => messageHistory s' = messageHistory s /\ exists m, e = Error m
  end.
Proof.
  cbv zeta. unfold getChatCompletion, andThen, read.
  destruct (config s) as [c|] eqn:Hcfg; [|cbn; eauto 6].
  destruct (provider c).
  - destruct (openaiClient s) as [client|] eqn:Hc.
    + destruct (getOpenAICompletion_spec message image s client Hc)
        as (content & calls & _ & E).
      cbv zeta in E. rewrite E.
      destruct (openaiCreate w _ client _) as [completion|e]; cbn.
      * repeat split; assumption || reflexivity.
      * repeat split; try assumption; try reflexivity.
        apply (failure_is_Error openaiFailure). now right.
    + unfold getOpenAICompletion, andThen, read. rewrite Hc. cbn.
      repeat split; try assumption. now eexists.
  - destruct (claudeClient s) as [client|] eqn:Hc.
    + destruct (getClaudeCompletion_spec message image s client Hc)
        as (content & calls & _ & E).
      cbv zeta in E. rewrite E.
      destruct (claudeCreate w _ client _) as [text|e]; cbn.
      * repeat split; assumption || reflexivity.
      * repeat split; try assumption; try reflexivity.
        apply (failure_is_Error claudeFailure). now left.
    + unfold getClaudeCompletion, andThen, read. rewrite Hc. cbn.
      repeat split; try assumption. now eexists.
Qed.

(** X18. A call of getChatCompletion never changes the configuration or
    the clients.  When it returns an answer, the history has grown by
    exactly two entries: the user's message as typed - without the image
    analysis that was sent with it - and the answer.  When it throws,
    the history is unchanged and the thrown value is an Error. *)
Theorem getChatCompletion_history (message : string)
  (image : option Orchestrator.File) (s : Store) :
  let r := fst (getChatCompletion w message image s) in
  let s' := snd (getChatCompletion w message image s) in
  config s' = config s /\ openaiClient s' = openaiClient s /\
  claudeClient s' = claudeClient s /\
  match r with
  | Ok answer =>
      messageHistory s'
      = messageHistory s ++ [ {| role := user; content := message |};
                              {| role := assistant; content := answer |} ]
  | Thrown e => messageHistory s' = messageHistory s /\ exists m, e = Error m
  end.
Proof. exact (getChatCompletion_variables message image s). Qed.

(** The constructor [initializeAI] calls for a provider. *)
Definition construct (p : AIProvider) (apiKey : string) : option exn :=
  match p with
  | openai => newOpenAI w apiKey
  | claude => newAnthropic w apiKey
  end.

Definition setClient (p : AIProvider) (c : option string) (s : Store) : Store :=
  match p with
  | openai => setOpenaiClient c s
  | claude => setClaudeClient c s
  end.

Definition wiped (s : Store) : Store :=
  {| config := None; openaiClient := None; claudeClient := None;
     messageHistory := []; trace := trace s ++ [ConsoleError] |}.

Lemma initializeAI_spec p k s :
  initializeAI w p k s
  = if String.eqb k "" then (Ok false, s)
    else match construct p k with
         | None =>
             (Ok true,
              setClient p (Some k)
                (setMessageHistory [systemMessage]
                   (setConfig (Some {| provider := p; apiKey := k |}) s)))
         | Some e => (Ok false, wiped s)
         end.
Proof.
  unfold initializeAI, attempt. destruct (String.eqb k ""); [reflexivity|].
  unfold andThen at 1 2 3. unfold update at 1 2. unfold construct.
  destruct p.
  - destruct (newOpenAI w k); reflexivity.
  - destruct (newAnthropic w k); reflexivity.
Qed.

Lemma initializeAI_consistent p k s :
  consistent s -> consistent (snd (initializeAI w p k s)).
Proof.
  intros H. rewrite initializeAI_spec.
  destruct (String.eqb_spec k ""); [exact H|].
  destruct (construct p k); [exact I|].
  unfold consistent. destruct p; cbn.
  - repeat split; auto. now exists [].
  - repeat split; auto. now exists [].
Qed.

Lemma getChatCompletion_consistent message image s :
  consistent s -> consistent (snd (getChatCompletion w message image s)).
Proof.
  intros H.
  destruct (getChatCompletion_variables message image s) as (Hc & Ho & Hl & Hh).
  cbv zeta in *. unfold consistent in *. rewrite Hc.
  destruct (config s) as [c|]; [|exact I].
  destruct H as (Hsel & Hk & turns & Hturns).
  split; [|split; [exact Hk|]].
  - unfold selectedClient in *. destruct (provider c); congruence.
  - destruct (fst (getChatCompletion w message image s)) as [answer|e].
    + exists (turns ++ [(message, answer)]). rewrite Hh, Hturns.
      unfold conversation. rewrite flat_map_app. cbn [flat_map fst snd].
      now rewrite app_nil_r.
    + exists turns. destruct Hh as [Hh _]. congruence.
Qed.

Lemma reachable_inv s : reachable s -> consistent s.
Proof.
  induction 1.
  - exact I.
  - now apply initializeAI_consistent.
  - now apply getChatCompletion_consistent.
Qed.

(** X19. In every store the exported functions can produce from the
    initial one, a configured provider has its client, built with the
    configured (non-empty) key, and the history is the system prompt
    followed by whole exchanges, a user message and then the
    assistant's answer. *)
Theorem reachable_consistent (s : Store) (Hreach : reachable s) :
  match config s with
  | None => True
  | Some c =>
      match provider c with
      | openai => openaiClient s
      | claude => claudeClient s
      end = Some (apiKey c) /\
      apiKey c <> "" /\
      exists turns,
        messageHistory s
        = systemMessage
          :: flat_map (fun t => [ {| role := user; content := fst t |};
                                  {| role := assistant; content := snd t |} ])
               turns
  end.
Proof. exact (reachable_inv s Hreach). Qed.

Lemma map_injective_BrowserCall l1 l2 :
  map BrowserCall l1 = map BrowserCall l2 -> l1 = l2.
Proof.
  revert l2. induction l1 as [|x l1 IH]; intros [|y l2] H;
    try discriminate; [reflexivity|].
  cbn [map] in H. injection H as -> H. f_equal. now apply IH.
Qed.

Lemma claudeMessages_conversation turns :
  claudeMessages (conversation turns)
  = flat_map (fun t => turn (fst t) (snd t)) turns.
Proof.
  unfold claudeMessages, conversation. cbn [filter role systemMessage isSystem negb].
  induction turns as [|[q a] turns IH]; [reflexivity|].
  cbn [flat_map fst snd turn app filter role isSystem negb map content].
  now rewrite IH.
Qed.

Lemma getChatCompletion_trace (message : string)
  (image : option Orchestrator.File) (s : Store) (c : AIConfig)
  (Hreach : reachable s) (Hconfig : config s = Some c) :
  exists turns content calls tail,
    messageHistory s = conversation turns /\
    trace (snd (getChatCompletion w message image s))
    = trace s ++ map BrowserCall calls
      ++ [Request (provider c) (apiKey c)
            (match provider c with
             | openai => [systemMessage]
             | claude => []
             end ++ flat_map (fun t => turn (fst t) (snd t)) turns
                 ++ [ {| role := user; content := content |} ])]
      ++ tail /\
    (tail = [] \/ tail = [ConsoleError]) /\
    match image with
    | None => content = message /\ calls = []
    | Some f =>
        exists text,
          Orchestrator.processImage (browser w) (Some f) []
          = (Orchestrator.Return text, calls) /\
          content = (text ++ nl ++ nl ++ "User Message: " ++ message)%string
    end.
Proof.
  pose proof (reachable_inv s Hreach) as Hcons. unfold consistent in Hcons.
  rewrite Hconfig in Hcons. destruct Hcons as (Hsel & _ & turns & Hturns).
  destruct (userContent_spec message image s) as (content & calls & E & Himg).
  exists turns, content, calls.
  unfold getChatCompletion, andThen, read. rewrite Hconfig.
  unfold selectedClient in Hsel. destruct (provider c).
  - destruct (getOpenAICompletion_spec message image s _ Hsel)
      as (content' & calls' & E' & Hspec).
    rewrite E in E'. injection E' as <- Hcalls.
    apply app_inv_head, map_injective_BrowserCall in Hcalls. subst calls'.
    cbv zeta in Hspec. rewrite Hspec, Hturns. clear Hspec.
    destruct (openaiCreate w _ _ _) as [completion|e].
    + exists []. cbn [snd trace setMessageHistory emitAll].
      split; [reflexivity|]. split; [|split; [now left|exact Himg]].
      rewrite app_nil_r, <- !app_assoc. reflexivity.
    + exists []. cbn [snd trace setMessageHistory emitAll].
      split; [reflexivity|]. split; [|split; [now left|exact Himg]].
      rewrite app_nil_r, <- !app_assoc. reflexivity.
  - destruct (getClaudeCompletion_spec message image s _ Hsel)
      as (content' & calls' & E' & Hspec).
    rewrite E in E'. injection E' as <- Hcalls.
    apply app_inv_head, map_injective_BrowserCall in Hcalls. subst calls'.
    cbv zeta in Hspec. rewrite Hspec, Hturns, claudeMessages_conversation.
    clear Hspec.
    destruct (claudeCreate w _ _ _) as [text|e].
    + exists []. cbn [snd trace setMessageHistory emitAll].
      split; [reflexivity|]. split; [|split; [now left|exact Himg]].
      rewrite app_nil_r, <- !app_assoc. reflexivity.
    + exists [ConsoleError]. cbn [snd trace setMessageHistory emitAll].
      split; [reflexivity|]. split; [|split; [now right|exact Himg]].
      rewrite <- !app_assoc. reflexivity.
Qed.

(** X20. In a reachable store with a configured provider,
    getChatCompletion sends exactly one request, to that provider and
    with the configured key.  Its messages are the stored exchanges -
    preceded by the system prompt for OpenAI, without any system message
    for Claude - and one user message: the message itself, or, when an
    image is attached, the text the orchestrator returned, an empty
    line and 'User Message: ' with the message.  The orchestrator never
    throws, so the '[Image analysis unavailable]' text is never sent. *)
Theorem getChatCompletion_request (message : string)
  (image : option Orchestrator.File) (s : Store) (c : AIConfig)
  (Hreach : reachable s) (Hconfig : config s = Some c) :
  exists turns content calls tail,
    messageHistory s = conversation turns /\
    trace (snd (getChatCompletion w message image s))
    = trace s ++ map BrowserCall calls
      ++ [Request (provider c) (apiKey c)
            (match provider c with
             | openai => [systemMessage]
             | claude => []
             end ++ flat_map (fun t => turn (fst t) (snd t)) turns
                 ++ [ {| role := user; content := content |} ])]
      ++ tail /\
    (tail = [] \/ tail = [ConsoleError]) /\
    match image with
    | None => content = message /\ calls = []
    | Some f =>
        exists text,
          Orchestrator.processImage (browser w) (Some f) []
          = (Orchestrator.Return text, calls) /\
          content = (text ++ nl ++ nl ++ "User Message: " ++ message)%string
    end.
Proof. exact (getChatCompletion_trace message image s c Hreach Hconfig). Qed.

(** X21. An image that processImage turns down does not stop the
    message: for a file of an unsupported type, getChatCompletion (in a
    reachable store with a configured provider) reads and decodes
    nothing, and still sends the request, whose user message is the
    failure text for the unsupported format, an empty line and
    'User Message: ' with the message. *)
Theorem unsupported_image_still_sent (message : string)
  (f : Orchestrator.File) (s : Store) (c : AIConfig)
  (Hreach : reachable s) (Hconfig : config s = Some c)
  (Htype : JS.array_includes Orchestrator.SUPPORTED_FORMATS (Orchestrator.type f)
           = false) :
  exists turns tail,
    messageHistory s = conversation turns /\
    trace (snd (getChatCompletion w message (Some f) s))
    = trace s ++ [BrowserCall Orchestrator.ConsoleError]
      ++ [Request (provider c) (apiKey c)
            (match provider c with
             | openai => [systemMessage]
             | claude => []
             end ++ flat_map (fun t => turn (fst t) (snd t)) turns
                 ++ [ {| role := user;
                         content :=
                           (Orchestrator.failureText Orchestrator.unsupportedMessage
                            ++ nl ++ nl ++ "User Message: " ++ message)%string |} ])]
      ++ tail /\
    (tail = [] \/ tail = [ConsoleError]).
Proof.
  destruct (getChatCompletion_trace message (Some f) s c Hreach Hconfig)
    as (turns & content & calls & tail & Hturns & Htrace & Htail & text & Hp & Hc).
  assert (E : Orchestrator.processImage (browser w) (Some f) []
              = (Orchestrator.Return
                   (Orchestrator.failureText Orchestrator.unsupportedMessage),
                 [Orchestrator.ConsoleError])).
  { unfold Orchestrator.processImage, Orchestrator.try_catch,
      Orchestrator.processBody. rewrite Htype. reflexivity. }
  rewrite E in Hp. injection Hp as <- <-. subst content.
  exists turns, tail. split; [exact Hturns|]. split; [exact Htrace|exact Htail].
Qed.

Definition notInitialized : exn :=
  Error "AI provider not initialized. Please set a valid API key.".

(** X22. initializeAI never throws.  With an empty key it returns false
    and changes nothing - a provider configured before stays usable.
    With a non-empty key whose client is built, it returns true, sets
    the configuration and that provider's client (the other client is
    kept) and restarts the history at the system prompt.  When the
    constructor throws, it returns false with everything cleared, and
    getChatCompletion then throws 'AI provider not initialized. Please
    set a valid API key.' without any effect. *)
Theorem initializeAI_outcomes (p : AIProvider) (k : string) (s : Store) :
  let r := fst (initializeAI w p k s) in
  let s' := snd (initializeAI w p k s) in
  (k = "" -> r = Ok false /\ s' = s) /\
  (k <> "" -> construct p k = None ->
   r = Ok true /\
   config s' = Some {| provider := p; apiKey := k |} /\
   messageHistory s' = [systemMessage] /\
   match p with
   | openai => openaiClient s' = Some k /\ claudeClient s' = claudeClient s
   | claude => claudeClient s' = Some k /\ openaiClient s' = openaiClient s
   end /\
   trace s' = trace s) /\
  (k <> "" -> forall e, construct p k = Some e ->
   r = Ok false /\
   config s' = None /\ openaiClient s' = None /\ claudeClient s' = None /\
   messageHistory s' = [] /\ trace s' = trace s ++ [ConsoleError] /\
   forall message image,
     getChatCompletion w message image s' = (Thrown notInitialized, s')).
Proof.
  cbv zeta. rewrite initializeAI_spec. split; [|split].
  - intros ->. now split.
  - intros Hk Hc. destruct (String.eqb_spec k ""); [contradiction|].
    rewrite Hc. destruct p; cbn; repeat split.
  - intros Hk e Hc. destruct (String.eqb_spec k ""); [contradiction|].
    rewrite Hc. cbn. repeat split.
Qed.

(** The provider [p] answers the request made at [time], with [key]
    and [messages], by throwing [e]. *)
Definition rejects (p : AIProvider) (time : list event) (key : string)
  (messages : list ChatMessage) (e : exn) : Prop :=
  match p with
  | openai => openaiCreate w time key messages = Thrown e
  | claude => claudeCreate w time key messages = Thrown e
  end.

(** X23. When the provider answers the request of this call - the one
    the call's trace shows - with an error of status 401,
    getChatCompletion throws the Error 'Invalid OpenAI API key' or
    'Invalid Claude API key', according to the configured provider,
    and leaves the history as it was, whatever exchanges it holds; the
    chat window's test (an Error whose message includes 'Invalid')
    holds for it, so the stored key is forgotten. *)
Theorem unauthorized_forgets_key (message : string)
  (image : option Orchestrator.File) (s : Store) (c : AIConfig) (e : exn)
  (Hreach : reachable s) (Hconfig : config s = Some c)
  (Hstatus : status e = Some 401)
  (Hrejected : forall before key messages after,
     trace (snd (getChatCompletion w message image s))
     = trace s ++ before ++ [Request (provider c) key messages] ++ after ->
     rejects (provider c) (trace s ++ before) key messages e) :
  let r := fst (getChatCompletion w message image s) in
  let s' := snd (getChatCompletion w message image s) in
  r = Thrown (Error match provider c with
                    | openai => "Invalid OpenAI API key"
                    | claude => "Invalid Claude API key"
                    end) /\
  messageHistory s' = messageHistory s /\
  (forall err, r = Thrown err -> forgetsKey err = true).
Proof.
  pose proof (reachable_inv s Hreach) as Hcons. unfold consistent in Hcons.
  rewrite Hconfig in Hcons. destruct Hcons as (Hsel & _).
  assert (H401 : statusIs e 401 = true) by (unfold statusIs; now rewrite Hstatus).
  revert Hrejected. cbv zeta.
  unfold getChatCompletion, andThen, read. rewrite Hconfig.
  unfold selectedClient in Hsel. unfold rejects. destruct (provider c).
  - destruct (getOpenAICompletion_spec message image s _ Hsel)
      as (content & calls & _ & Hspec).
    cbv zeta in Hspec. rewrite Hspec. clear Hspec. intros Hrejected.
    destruct (openaiCreate w _ _ _) as [completion|e'] eqn:Eo.
    + specialize (Hrejected (map BrowserCall calls) _ _ []
                    ltac:(cbn [snd trace setMessageHistory emitAll];
                          now rewrite <- !app_assoc)).
      cbn [trace emitAll] in Eo. rewrite Eo in Hrejected. discriminate.
    + specialize (Hrejected (map BrowserCall calls) _ _ []
                    ltac:(cbn [snd trace emitAll]; now rewrite <- !app_assoc)).
      cbn [trace emitAll] in Eo. rewrite Eo in Hrejected.
      injection Hrejected as ->. unfold openaiFailure. rewrite H401.
      cbn [fst snd]. repeat split. intros err [= <-]. reflexivity.
  - destruct (getClaudeCompletion_spec message image s _ Hsel)
      as (content & calls & _ & Hspec).
    cbv zeta in Hspec. rewrite Hspec. clear Hspec. intros Hrejected.
    destruct (claudeCreate w _ _ _) as [text|e'] eqn:Ec.
    + specialize (Hrejected (map BrowserCall calls) _ _ []
                    ltac:(cbn [snd trace setMessageHistory emitAll];
                          now rewrite <- !app_assoc)).
      cbn [trace emitAll] in Ec. rewrite Ec in Hrejected. discriminate.
    + specialize (Hrejected (map BrowserCall calls) _ _ [ConsoleError]
                    ltac:(cbn [snd trace emitAll]; now rewrite <- !app_assoc)).
      cbn [trace emitAll] in Ec. rewrite Ec in Hrejected.
      injection Hrejected as ->. unfold claudeFailure. rewrite H401.
      cbn [fst snd]. repeat split. intros err [= <-]. reflexivity.
Qed.

End Providers.

(** A world for the instances below: every browser step succeeds, both
    constructors return, and both providers reject every request with
    status 401. *)
Definition unauthorized : AIProviders.exn :=
  {| AIProviders.isError := true; AIProviders.status := Some 401;
     AIProviders.errorMessage := Some "Unauthorized" |}.

Definition rejectingWorld : AIProviders.World unit :=
  {| AIProviders.browser :=
       {| Orchestrator.readAsDataURL := fun _ => Orchestrator.ReadString "data:image/png;base64,";
          Orchestrator.loadImage := fun _ => Some tt;
          Orchestrator.hasContext := fun _ => true;
          Orchestrator.analysis := fun _ => Orchestrator.Return "Image Content Analysis:" |};
     AIProviders.newOpenAI := fun _ => None;
     AIProviders.newAnthropic := fun _ => None;
     AIProviders.claudeCreate := fun _ _ _ => AIProviders.Thrown unauthorized;
     AIProviders.openaiCreate := fun _ _ _ => AIProviders.Thrown unauthorized |}.

(** The store after [initializeAI('claude', 'sk-ant-test')]. *)
Definition configuredStore : AIProviders.Store :=
  snd (AIProviders.initializeAI rejectingWorld AIProviders.claude "sk-ant-test"
         AIProviders.initial).

Lemma configuredStore_reachable : reachable rejectingWorld configuredStore.
Proof. apply reach_initializeAI, reach_initial. Qed.

Definition pngFile : Orchestrator.File :=
  {| Orchestrator.type := "image/png"; Orchestrator.size := 2048 |}.

(** A world in which the key stops being accepted: the first request is
    answered, every later one is rejected with status 401. *)
Definition isRequest (ev : AIProviders.event) : bool :=
  match ev with
  | AIProviders.Request _ _ _ => true
  | _ => false
  end.

Definition expiringWorld : AIProviders.World unit :=
  {| AIProviders.browser := AIProviders.browser rejectingWorld;
     AIProviders.newOpenAI := fun _ => None;
     AIProviders.newAnthropic := fun _ => None;
     AIProviders.claudeCreate := fun time _ _ =>
       if existsb isRequest time then AIProviders.Thrown unauthorized
       else AIProviders.Ok "Hello! How can I help?";
     AIProviders.openaiCreate := fun time _ _ =>
       if existsb isRequest time then AIProviders.Thrown unauthorized
       else AIProviders.Ok (Some "Hello! How can I help?") |}.

(** The store after [initializeAI('claude', 'sk-ant-test')] and one
    answered message: the history holds one exchange. *)
Definition storeAfterOneExchange : AIProviders.Store :=
  snd (AIProviders.getChatCompletion expiringWorld "Hello" None
         (snd (AIProviders.initializeAI expiringWorld AIProviders.claude
                 "sk-ant-test" AIProviders.initial))).

Lemma storeAfterOneExchange_reachable :
  reachable expiringWorld storeAfterOneExchange.
Proof. apply reach_getChatCompletion, reach_initializeAI, reach_initial. Qed.

Example storeAfterOneExchange_history :
  AIProviders.messageHistory storeAfterOneExchange
  = [ AIProviders.systemMessage;
      {| AIProviders.role := AIProviders.user; AIProviders.content := "Hello" |};
      {| AIProviders.role := AIProviders.assistant;
         AIProviders.content := "Hello! How can I help?" |} ].
Proof. reflexivity. Qed.

(** ** Instances *)

(** The 2 x 2 sample with every pixel made opaque. *)
Definition sample2x2_opaque : Canvas := fun x y =>
  {| red := red (sample2x2 x y); green := green (sample2x2 x y);
     blue := blue (sample2x2 x y); alpha := Byte.xff |}.

Lemma scans_read_rgb_inside_witness :
  analyzeEdges sample2x2 2 2 = analyzeEdges sample2x2_opaque 2 2 /\
  analyzePatterns sample2x2 2 2 = analyzePatterns sample2x2_opaque 2 2.
Proof.
  apply (scans_read_rgb_inside sample2x2 sample2x2_opaque 2 2).
  intros x y _ _. repeat split.
Defined.

Lemma normalizedEdges_range_witness :
  JS.le 0 (normalizedEdges (analyzeEdges checkerboard 4 4)) = true /\
  JS.le (normalizedEdges (analyzeEdges checkerboard 4 4)) 2 = true.
Proof.
  apply (normalizedEdges_range checkerboard 4 4).
  - lia.
  - lia.
  - reflexivity.
Defined.

Definition grey : Pixel :=
  {| red := Byte.x80; green := Byte.x80; blue := Byte.x80; alpha := Byte.xff |}.

Lemma single_colour_image_witness :
  let ctx : Canvas := fun _ _ => grey in
  let ca := analyzeColors (getImageData ctx 0 0 5 4) (JS.Z2F (5 * 4)) in
  let ea := analyzeEdges ctx 5 4 in
  let pa := analyzePatterns ctx 5 4 in
  let r := analyzeContent ca ea pa in
  horizontalEdges ea = 0 /\ verticalEdges ea = 0 /\ rectangularShapes ea = 0 /\
  normalizedEdges ea = 0%float /\
  regularPatterns pa = Z.max 0 (5 - 3) * Z.max 0 (4 - 3) /\
  isUIScreen r = false /\ hasText r = false /\
  contentType r = "Simple Graphic or Icon".
Proof.
  apply (single_colour_image (fun _ _ => grey) 5 4 grey).
  - lia.
  - lia.
  - reflexivity.
  - intros; repeat split.
Defined.

Lemma all_white_image_witness :
  let ctx : Canvas := fun _ _ => white in
  let ca := analyzeColors (getImageData ctx 0 0 4 3) (JS.Z2F (4 * 3)) in
  let ea := analyzeEdges ctx 4 3 in
  let pa := analyzePatterns ctx 4 3 in
  darkRatio ca = 0%float /\ lightRatio ca = 1%float /\ brightness ca = 1%float /\
  dominantColors ca = ["rgb(256,256,256)"] /\
  horizontalEdges ea = 0 /\ verticalEdges ea = 0 /\ rectangularShapes ea = 0 /\
  regularPatterns pa = Z.max 0 (4 - 3) * Z.max 0 (3 - 3).
Proof.
  apply (all_white_image (fun _ _ => white) 4 3).
  - lia.
  - lia.
  - reflexivity.
  - intros; reflexivity.
Defined.

Lemma reachable_consistent_witness :
  AIProviders.claudeClient configuredStore = Some "sk-ant-test" /\
  "sk-ant-test" <> "" /\
  exists turns,
    AIProviders.messageHistory configuredStore
    = AIProviders.systemMessage
      :: flat_map (fun t =>
           [ {| AIProviders.role := AIProviders.user;
                AIProviders.content := fst t |};
             {| AIProviders.role := AIProviders.assistant;
                AIProviders.content := snd t |} ]) turns.
Proof.
  exact (reachable_consistent rejectingWorld configuredStore
           configuredStore_reachable).
Defined.

Definition claudeConfig : AIProviders.AIConfig :=
  {| AIProviders.provider := AIProviders.claude;
     AIProviders.apiKey := "sk-ant-test" |}.

Lemma getChatCompletion_request_witness :
  exists turns content calls tail,
    AIProviders.messageHistory configuredStore = conversation turns /\
    AIProviders.trace
      (snd (AIProviders.getChatCompletion rejectingWorld "What is wrong here?"
              (Some pngFile) configuredStore))
    = AIProviders.trace configuredStore ++ map AIProviders.BrowserCall calls
      ++ [AIProviders.Request AIProviders.claude "sk-ant-test"
            ([] ++ flat_map (fun t => turn (fst t) (snd t)) turns
                ++ [ {| AIProviders.role := AIProviders.user;
                        AIProviders.content := content |} ])]
      ++ tail /\
    (tail = [] \/ tail = [AIProviders.ConsoleError]) /\
    exists text,
      Orchestrator.processImage (AIProviders.browser rejectingWorld)
        (Some pngFile) []
      = (Orchestrator.Return text, calls) /\
      content = (text ++ AIProviders.nl ++ AIProviders.nl
                 ++ "User Message: " ++ "What is wrong here?")%string.
Proof.
  apply (getChatCompletion_request rejectingWorld "What is wrong here?"
           (Some pngFile) configuredStore claudeConfig).
  - exact configuredStore_reachable.
  - reflexivity.
Defined.

Lemma unauthorized_forgets_key_witness :
  let r := fst (AIProviders.getChatCompletion expiringWorld "Are you there?" None
                  storeAfterOneExchange) in
  let s' := snd (AIProviders.getChatCompletion expiringWorld "Are you there?" None
                   storeAfterOneExchange) in
  r = AIProviders.Thrown (AIProviders.Error "Invalid Claude API key") /\
  AIProviders.messageHistory s'
  = AIProviders.messageHistory storeAfterOneExchange /\
  (forall err, r = AIProviders.Thrown err -> AIProviders.forgetsKey err = true).
Proof.
  apply (unauthorized_forgets_key expiringWorld "Are you there?" None
           storeAfterOneExchange claudeConfig unauthorized).
  - exact storeAfterOneExchange_reachable.
  - reflexivity.
  - reflexivity.
  - intros before key messages after _. reflexivity.
Defined.

Definition bmpFile : Orchestrator.File :=
  {| Orchestrator.type := "image/bmp"; Orchestrator.size := 2048 |}.

Lemma unsupported_image_still_sent_witness :
  exists turns tail,
    AIProviders.messageHistory configuredStore = conversation turns /\
    AIProviders.trace
      (snd (AIProviders.getChatCompletion rejectingWorld "What is this?"
              (Some bmpFile) configuredStore))
    = AIProviders.trace configuredStore
      ++ [AIProviders.BrowserCall Orchestrator.ConsoleError]
      ++ [AIProviders.Request AIProviders.claude "sk-ant-test"
            ([] ++ flat_map (fun t => turn (fst t) (snd t)) turns
                ++ [ {| AIProviders.role := AIProviders.user;
                        AIProviders.content :=
                          (Orchestrator.failureText Orchestrator.unsupportedMessage
                           ++ AIProviders.nl ++ AIProviders.nl
                           ++ "User Message: " ++ "What is this?")%string |} ])]
      ++ tail /\
    (tail = [] \/ tail = [AIProviders.ConsoleError]).
Proof.
  apply (unsupported_image_still_sent rejectingWorld "What is this?" bmpFile
           configuredStore claudeConfig).
  - exact configuredStore_reachable.
  - reflexivity.
  - reflexivity.
Defined.

(** * The markdown tools *)

Section MarkdownTools.
Import ChatInput.

Lemma substring_ordered text a b :
  (a <= b <= List.length text)%nat ->
  substring text a b = firstn (b - a) (skipn a text).
Proof.
  intros H. unfold substring. cbv zeta.
  rewrite !Nat.min_l by lia. rewrite Nat.max_r by lia. reflexivity.
Qed.

Lemma substring_before text a :
  (a <= List.length text)%nat -> substring text 0 a = firstn a text.
Proof.
  intros H. rewrite substring_ordered by lia. now rewrite Nat.sub_0_r.
Qed.

Lemma substring_after text b :
  (b <= List.length text)%nat -> substringFrom text b = skipn b text.
Proof.
  intros H. unfold substringFrom. rewrite substring_ordered by lia.
  apply firstn_all2. rewrite length_skipn. lia.
Qed.

(** A replacement text without dollar sign stands for itself. *)
Lemma getSubstitution_plain matched before after template :
  ~ In 36%N template ->
  getSubstitution matched before after template = template.
Proof.
  induction template as [|c rest IH]; intros H; [reflexivity|].
  cbn [getSubstitution]. destruct (N.eqb_spec c 36) as [->|_].
  - exfalso. apply H. now left.
  - f_equal. apply IH. intros Hin. apply H. now right.
Qed.

Lemma replace_at pre pattern post replacement :
  indexOf pattern (pre ++ pattern ++ post) = Some (List.length pre) ->
  ~ In 36%N replacement ->
  replace (pre ++ pattern ++ post) pattern replacement = pre ++ replacement ++ post.
Proof.
  intros Hi Hd. unfold replace. rewrite Hi. cbv zeta.
  rewrite getSubstitution_plain by exact Hd.
  rewrite firstn_app, firstn_all, Nat.sub_diag. cbn [firstn]. rewrite app_nil_r.
  f_equal. f_equal.
  rewrite app_assoc, skipn_app, length_app.
  rewrite skipn_all2 by (rewrite length_app; lia).
  replace (List.length pre + List.length pattern
           - (List.length pre + List.length pattern))%nat with O by lia.
  reflexivity.
Qed.

Lemma replace_absent s pattern replacement :
  indexOf pattern s = None -> replace s pattern replacement = s.
Proof. intros H. unfold replace. now rewrite H. Qed.

(** X24. A click on a tool leaves the text before the selection and
    the text after it untouched and puts the cursor right after what
    was inserted between them; with an empty selection, what is
    inserted is the tool's markdown itself. *)
Theorem handleToolClick_frame (text : JSString) (selectionStart selectionEnd : nat)
  (markdown : JSString)
  (Hselection : (selectionStart <= selectionEnd <= List.length text)%nat) :
  let newText := fst (handleToolClick text selectionStart selectionEnd markdown) in
  let newCursorPos := snd (handleToolClick text selectionStart selectionEnd markdown) in
  exists inserted,
    newText = firstn selectionStart text ++ inserted ++ skipn selectionEnd text /\
    newCursorPos = (selectionStart + List.length inserted)%nat /\
    firstn selectionStart newText = firstn selectionStart text /\
    skipn newCursorPos newText = skipn selectionEnd text /\
    (selectionStart = selectionEnd -> inserted = markdown).
Proof.
  cbv zeta. unfold handleToolClick. cbv zeta.
  rewrite substring_before, substring_after, substring_ordered by lia.
  set (before := firstn selectionStart text).
  set (after := skipn selectionEnd text).
  assert (Hlen : List.length before = selectionStart)
    by (unfold before; rewrite length_firstn; lia).
  assert (Hframe : forall inserted,
    firstn selectionStart (before ++ inserted ++ after) = before /\
    skipn (selectionStart + List.length inserted) (before ++ inserted ++ after)
    = after).
  { intros inserted. split.
    - rewrite firstn_app, Hlen, Nat.sub_diag. cbn [firstn].
      rewrite app_nil_r. rewrite <- Hlen. apply firstn_all.
    - rewrite app_assoc, skipn_app.
      rewrite skipn_all2 by (rewrite length_app; lia).
      rewrite length_app, Hlen, Nat.sub_diag. reflexivity. }
  destruct (firstn (selectionEnd - selectionStart) (skipn selectionStart text))
    as [|c selection] eqn:Esel; cbn [fst snd].
  - exists markdown. destruct (Hframe markdown). repeat split; auto.
  - eexists. destruct (Hframe
      (replace (replace markdown (units "text") (c :: selection))
         (units "code") (c :: selection))) as [H1 H2].
    split; [reflexivity|]. split; [reflexivity|]. split; [exact H1|].
    split; [exact H2|].
    intros ->. rewrite Nat.sub_diag in Esel. discriminate.
Qed.

(** X25. With a non-empty selection that holds no dollar sign, a tool
    whose markdown has the placeholder 'text' (Bold, Italic, Link)
    replaces its first 'text' by the selection, provided 'code' does
    not occur in the result; and a tool whose markdown has no 'text'
    but the placeholder 'code' (Code) replaces its first 'code' by the
    selection. *)
Theorem handleToolClick_wraps (text : JSString) (selectionStart selectionEnd : nat)
  (pre post : JSString) (placeholder : string)
  (Hselection : (selectionStart < selectionEnd <= List.length text)%nat)
  (Hdollar : ~ In 36%N (substring text selectionStart selectionEnd))
  (Hfirst : indexOf (units placeholder) (pre ++ units placeholder ++ post)
            = Some (List.length pre))
  (Htool :
     (placeholder = "text" /\
      indexOf (units "code")
        (pre ++ substring text selectionStart selectionEnd ++ post) = None) \/
     (placeholder = "code" /\
      indexOf (units "text") (pre ++ units "code" ++ post) = None)) :
  handleToolClick text selectionStart selectionEnd (pre ++ units placeholder ++ post)
  = (firstn selectionStart text ++
     (pre ++ substring text selectionStart selectionEnd ++ post) ++
     skipn selectionEnd text,
     (selectionStart
      + List.length (pre ++ substring text selectionStart selectionEnd ++ post))%nat).
Proof.
  unfold handleToolClick. cbv zeta.
  rewrite substring_before, substring_after by lia.
  set (selection := substring text selectionStart selectionEnd) in *.
  assert (Hne : selection <> []).
  { unfold selection. rewrite substring_ordered by lia. intros E.
    apply (f_equal (@List.length N)) in E.
    rewrite length_firstn, length_skipn in E. cbn in E. lia. }
  destruct selection as [|c sel] eqn:Esel; [contradiction|]. rewrite <- Esel in *.
  assert (Hw : replace (replace (pre ++ units placeholder ++ post) (units "text")
                          selection) (units "code") selection
               = pre ++ selection ++ post).
  { destruct Htool as [[-> Hcode] | [-> Htext]].
    - rewrite (replace_at pre (units "text") post selection Hfirst Hdollar).
      now apply replace_absent.
    - rewrite (replace_absent _ (units "text") selection Htext).
      now apply replace_at. }
  rewrite Hw. reflexivity.
Qed.

(** X26. With a tool whose placeholder is 'text', a selection that
    itself contains 'code' is not simply wrapped: after the selection
    has replaced 'text', the second replacement finds the 'code' of the
    selection and puts the whole selection in its place, so that
    selecting 'a code b' gives 'a a code b b' between the tool's marks. *)
Theorem handleToolClick_repeats_selection (text : JSString)
  (selectionStart selectionEnd : nat) (pre post a b : JSString)
  (Hselection : (selectionStart < selectionEnd <= List.length text)%nat)
  (Hcode : substring text selectionStart selectionEnd = a ++ units "code" ++ b)
  (Hdollar : ~ In 36%N (a ++ units "code" ++ b))
  (Hfirst : indexOf (units "text") (pre ++ units "text" ++ post)
            = Some (List.length pre))
  (Hinside : indexOf (units "code") ((pre ++ a) ++ units "code" ++ (b ++ post))
             = Some (List.length (pre ++ a))) :
  fst (handleToolClick text selectionStart selectionEnd (pre ++ units "text" ++ post))
  = firstn selectionStart text ++
    (pre ++ a ++ (a ++ units "code" ++ b) ++ b ++ post) ++
    skipn selectionEnd text.
Proof.
  unfold handleToolClick. cbv zeta.
  rewrite substring_before, substring_after by lia. rewrite Hcode.
  destruct (a ++ units "code" ++ b) as [|c sel] eqn:Esel.
  { destruct a; discriminate. }
  rewrite <- Esel in *. cbn [fst].
  rewrite replace_at by assumption.
  replace (pre ++ (a ++ units "code" ++ b) ++ post)
    with ((pre ++ a) ++ units "code" ++ (b ++ post))
    by (rewrite <- !app_assoc; reflexivity).
  rewrite replace_at by (rewrite <- ?Esel; assumption).
  rewrite <- !app_assoc. reflexivity.
Qed.

End MarkdownTools.

Lemma handleToolClick_frame_witness :
  let text := ChatInput.units "see this" in
  let newText := fst (ChatInput.handleToolClick text 4 4 ChatInput.bold) in
  let newCursorPos := snd (ChatInput.handleToolClick text 4 4 ChatInput.bold) in
  exists inserted,
    newText = firstn 4 text ++ inserted ++ skipn 4 text /\
    newCursorPos = (4 + List.length inserted)%nat /\
    firstn 4 newText = firstn 4 text /\
    skipn newCursorPos newText = skipn 4 text /\
    (4%nat = 4%nat -> inserted = ChatInput.bold).
Proof.
  apply (handleToolClick_frame (ChatInput.units "see this") 4 4 ChatInput.bold).
  cbn. lia.
Defined.

Lemma handleToolClick_wraps_witness :
  ChatInput.handleToolClick (ChatInput.units "see this") 4 8
    (ChatInput.units "**" ++ ChatInput.units "text" ++ ChatInput.units "**")
  = (ChatInput.units "see **this**", 12%nat).
Proof.
  apply (handleToolClick_wraps (ChatInput.units "see this") 4 8
           (ChatInput.units "**") (ChatInput.units "**") "text").
  - cbn. lia.
  - cbn. intros H. repeat (destruct H as [H|H]; [discriminate H|]). exact H.
  - reflexivity.
  - left. split; reflexivity.
Defined.

Lemma handleToolClick_repeats_selection_witness :
  fst (ChatInput.handleToolClick (ChatInput.units "see my code here") 4 11
         (ChatInput.units "**" ++ ChatInput.units "text" ++ ChatInput.units "**"))
  = ChatInput.units "see **my my code** here".
Proof.
  apply (handleToolClick_repeats_selection (ChatInput.units "see my code here") 4 11
           (ChatInput.units "**") (ChatInput.units "**")
           (ChatInput.units "my ") []).
  - cbn. lia.
  - reflexivity.
  - cbn. intros H. repeat (destruct H as [H|H]; [discriminate H|]). exact H.
  - reflexivity.
  - reflexivity.
Defined.
